(** * Storyboard pipeline: a shallow embedding of the orchestration code

    The development embeds the algorithmic core of the application
    ([src/App.tsx], [src/services/geminiService.ts] and the presentation
    player) and proves the properties its specification states about it.

    Conventions of the embedding.
    - A JavaScript string is a [string]; the case mappings and the
      character classes are the ASCII ones, so the model covers ASCII text.
    - [null] and [undefined] are [None]; a value that JavaScript tests for
      truthiness is tested with [truthy].
    - An exception is the message of the thrown [Error]; code that can throw
      returns a [Result].
    - The generative service is a parameter of a run (a [World]): every
      answer it may give is some field of that record.
    - React state is an explicit record that the handlers transform. *)

From Stdlib Require String DecimalNat.
From Stdlib Require Import Ascii.
From Stdlib Require Import Arith Lia Permutation Sorted DecimalString QArith_base.
From stdpp Require Import base option list gmap strings sorting.

Local Open Scope nat_scope.

(** ** JavaScript primitives *)

Module Js.

Definition code (c : ascii) : nat := Ascii.nat_of_ascii c.

Definition is_upper (c : ascii) : bool := (65 <=? code c) && (code c <=? 90).
Definition is_lower (c : ascii) : bool := (97 <=? code c) && (code c <=? 122).
Definition is_digit (c : ascii) : bool := (48 <=? code c) && (code c <=? 57).

Definition lower_char (c : ascii) : ascii :=
  if is_upper c then Ascii.ascii_of_nat (code c + 32) else c.
Definition upper_char (c : ascii) : ascii :=
  if is_lower c then Ascii.ascii_of_nat (code c - 32) else c.

Fixpoint map_chars (f : ascii → ascii) (s : string) : string :=
  match s with
  | EmptyString => EmptyString
  | String c s' => String (f c) (map_chars f s')
  end.

Fixpoint filter_chars (p : ascii → bool) (s : string) : string :=
  match s with
  | EmptyString => EmptyString
  | String c s' => if p c then String c (filter_chars p s') else filter_chars p s'
  end.

(** [s.toLowerCase()] and [s.toUpperCase()]. *)
Definition toLowerCase : string → string := map_chars lower_char.
Definition toUpperCase : string → string := map_chars upper_char.

(** [s.trim()]. *)
Fixpoint trim_start (s : string) : string :=
  match s with
  | String c s' => if Ascii.is_space c then trim_start s' else s
  | EmptyString => EmptyString
  end.
Definition trim (s : string) : string :=
  String.rev (trim_start (String.rev (trim_start s))).

(** Truthiness of a string: only the empty string is falsy. *)
Definition truthy (s : string) : bool :=
  match s with EmptyString => false | String _ _ => true end.

(** Truthiness of a possibly absent string ([null], [undefined]). *)
Definition truthy_opt (o : option string) : bool :=
  match o with Some s => truthy s | None => false end.

(** [x || d] on strings. *)
Definition or_else (o : option string) (d : string) : string :=
  match o with Some s => if truthy s then s else d | None => d end.

(** [hay.includes(needle)]. *)
Fixpoint includes (hay needle : string) : bool :=
  String.prefix needle hay ||
  match hay with
  | EmptyString => false
  | String _ hay' => includes hay' needle
  end.

(** [parts.join(sep)]. *)
Fixpoint join (sep : string) (parts : list string) : string :=
  match parts with
  | [] => EmptyString
  | [p] => p
  | p :: rest => p +:+ sep +:+ join sep rest
  end.

(** The decimal rendering of a number in a template literal. *)
Definition of_nat (n : nat) : string := NilEmpty.string_of_uint (Nat.to_uint n).

(** The line feed and the double quote of the report templates. *)
Definition nl : string := String (Ascii.ascii_of_nat 10) EmptyString.
Definition dq : string := String (Ascii.ascii_of_nat 34) EmptyString.

(** [s.split(/[.!?]/)[0]]: the text before the first terminator. *)
Definition is_terminator (c : ascii) : bool :=
  (code c =? 46) || (code c =? 33) || (code c =? 63).
Fixpoint first_segment (s : string) : string :=
  match s with
  | EmptyString => EmptyString
  | String c s' => if is_terminator c then EmptyString else String c (first_segment s')
  end.

End Js.

(** An exception-aware result: [Throw msg] is a thrown [Error] whose
    [message] is [msg]. *)
Inductive Result (T : Type) : Type :=
| Ok (v : T)
| Throw (msg : string).
Arguments Ok {T} v.
Arguments Throw {T} msg.

(** ** Edit distance ([levenshteinDistance], App.tsx) *)

Section Levenshtein.
Context {A : Type} `{EqDecision A}.

(** [matrix] is an array of [bn + 1] rows of [an + 1] cells, every cell
    [null] at first. *)
Abbreviation Matrix := (list (list (option nat))).

Definition new_matrix (rows cols : nat) : Matrix :=
  replicate rows (replicate cols None).

(** [matrix[j][i]]. *)
Definition cell (m : Matrix) (j i : nat) : option nat :=
  match m !! j with
  | Some row => match row !! i with Some c => c | None => None end
  | None => None
  end.

(** A cell in arithmetic: [null + 1] is [1] in JavaScript. *)
Definition num (c : option nat) : nat := default 0 c.

(** [matrix[j][i] = v]; every index the loops use is inside the table. *)
Definition set_cell (m : Matrix) (j i v : nat) : Matrix :=
  alter (λ row, <[i := Some v]> row) j m.

Definition min3 (x y z : nat) : nat := Nat.min (Nat.min x y) z.

(** [for (i = 0; i <= an; i += 1) matrix[0][i] = i]. *)
Definition fill_first_row (an : nat) (m : Matrix) : Matrix :=
  foldl (λ m i, set_cell m 0 i i) m (seq 0 (S an)).

(** [for (j = 0; j <= bn; j += 1) matrix[j][0] = j]. *)
Definition fill_first_col (bn : nat) (m : Matrix) : Matrix :=
  foldl (λ m j, set_cell m j 0 j) m (seq 0 (S bn)).

(** The body of the inner loop. *)
Definition fill_cell (a b : list A) (j : nat) (m : Matrix) (i : nat) : Matrix :=
  let substitutionCost := if decide (a !! (i - 1) = b !! (j - 1)) then 0 else 1 in
  set_cell m j i
    (min3 (num (cell m j (i - 1)) + 1)
          (num (cell m (j - 1) i) + 1)
          (num (cell m (j - 1) (i - 1)) + substitutionCost)).

(** [for (i = 1; i <= an; i += 1) ...]. *)
Definition fill_row (a b : list A) (m : Matrix) (j : nat) : Matrix :=
  foldl (fill_cell a b j) m (seq 1 (length a)).

(** [for (j = 1; j <= bn; j += 1) ...]. *)
Definition fill_table (a b : list A) (m : Matrix) : Matrix :=
  foldl (fill_row a b) m (seq 1 (length b)).

Definition levenshtein_table (a b : list A) : Matrix :=
  let an := length a in
  let bn := length b in
  fill_table a b (fill_first_col bn (fill_first_row an (new_matrix (bn + 1) (an + 1)))).

Definition levenshtein_units (a b : list A) : nat :=
  let an := length a in
  let bn := length b in
  if decide (an = 0) then bn
  else if decide (bn = 0) then an
  else num (cell (levenshtein_table a b) bn an).

(** The textbook recurrence, on lists read from their head. *)
Fixpoint lev (a : list A) : list A → nat :=
  fix lev_a (b : list A) : nat :=
    match a, b with
    | [], _ => length b
    | _, [] => length a
    | x :: a', y :: b' =>
        min3 (lev a' b + 1) (lev_a b' + 1)
             (lev a' b' + (if decide (x = y) then 0 else 1))
    end.

(** One single-character edit, at any position of the string. *)
Inductive edit1 : list A → list A → Prop :=
| edit1_insert l1 x l2 : edit1 (l1 ++ l2) (l1 ++ x :: l2)
| edit1_delete l1 x l2 : edit1 (l1 ++ x :: l2) (l1 ++ l2)
| edit1_substitute l1 x y l2 : edit1 (l1 ++ x :: l2) (l1 ++ y :: l2).

(** [edits n a b]: [n] single-character edits transform [a] into [b]. *)
Inductive edits : nat → list A → list A → Prop :=
| edits_done a : edits 0 a a
| edits_step n a b c : edits n a b → edit1 b c → edits (S n) a c.

End Levenshtein.

Abbreviation Matrix := (list (list (option nat))).

(** [levenshteinDistance(a, b)]: the strings are compared code unit by code
    unit. *)
Definition levenshteinDistance (a b : string) : nat :=
  levenshtein_units (String.list_ascii_of_string a) (String.list_ascii_of_string b).

(** ** JavaScript objects used as maps *)

(** A [Record<string, V>] is the list of its properties with distinct keys.
    Assigning an existing key keeps the property in place; a new key is
    appended.  Enumeration ([Object.keys], [Object.entries]) lists the keys
    that are canonical array indices first, in ascending numeric order, and
    then the other keys in creation order. *)
Module JsObject.

Abbreviation t V := (list (string * V)).

Definition get {V} (o : t V) (k : string) : option V :=
  snd <$> List.find (λ kv, String.eqb kv.1 k) o.

Fixpoint set {V} (o : t V) (k : string) (v : V) : t V :=
  match o with
  | [] => [(k, v)]
  | (k', v') :: o' =>
      if String.eqb k' k then (k, v) :: o' else (k', v') :: set o' k v
  end.

(** The property names that every object inherits from
    [Object.prototype]. *)
Definition inherited : list string :=
  [ "constructor"; "__defineGetter__"; "__defineSetter__"; "hasOwnProperty";
    "__lookupGetter__"; "__lookupSetter__"; "isPrototypeOf"; "propertyIsEnumerable";
    "toString"; "valueOf"; "__proto__"; "toLocaleString" ].

(** [!!o[k]] for an object whose own values are objects: [k] names an own
    property or an inherited one (the inherited values are functions and,
    for [__proto__], the prototype itself: none is falsy). *)
Definition truthy_at {V} (o : t V) (k : string) : bool :=
  bool_decide (is_Some (get o k)) || bool_decide (k ∈ inherited).

(** The value of a digit string. *)
Fixpoint digits_value (acc : N) (s : string) : option N :=
  match s with
  | EmptyString => Some acc
  | String c s' =>
      if Js.is_digit c
      then digits_value (acc * 10 + N.of_nat (Js.code c - 48))%N s'
      else None
  end.

(** [Some n] when [k] is the canonical decimal form of an array index. *)
Definition array_index (k : string) : option N :=
  match k with
  | EmptyString => None
  | String c rest =>
      if (Js.code c =? 48) && Js.truthy rest then None
      else match digits_value 0 k with
           | Some n => if (n <? 4294967295)%N then Some n else None
           | None => None
           end
  end.

Fixpoint insert_index {V} (n : N) (kv : string * V) (l : list (N * (string * V)))
  : list (N * (string * V)) :=
  match l with
  | [] => [(n, kv)]
  | (n', kv') :: l' =>
      if (n <? n')%N then (n, kv) :: l else (n', kv') :: insert_index n kv l'
  end.

Definition index_entries {V} (o : t V) : list (string * V) :=
  snd <$> foldr (λ kv acc, match array_index kv.1 with
                            | Some n => insert_index n kv acc
                            | None => acc
                            end) [] o.

Definition named_entries {V} (o : t V) : list (string * V) :=
  List.filter (λ kv, bool_decide (array_index kv.1 = None)) o.

(** [Object.entries(o)] and [Object.keys(o)]. *)
Definition entries {V} (o : t V) : list (string * V) :=
  index_entries o ++ named_entries o.
Definition keys {V} (o : t V) : list string := fst <$> entries o.

End JsObject.

(** ** Data model ([types.ts] is read off the response schemas of
    [geminiService.ts] and the uses in [App.tsx]) *)

Inductive DialoguePartType : Type := parenthetical | dialogue.

Global Instance DialoguePartType_eq_dec : EqDecision DialoguePartType.
Proof. solve_decision. Defined.

Record DialoguePart : Type := {
  part_type : DialoguePartType;
  part_content : string;
}.

(** A scene element is tagged by its [type]; [content] may be absent.  A
    dialogue block carries its character and its elements, as the casts to
    [DialogueBlock] in [App.tsx] take for granted: a script in which a block
    lacks one of them is not a value of this type, and what the handler
    does with such a script lies outside the model. *)
Inductive SceneElement : Type :=
| scene_heading (content : option string)
| action (content : option string)
| transition (content : option string)
| dialogue_block (character : string) (elements : list DialoguePart).

Record Script : Type := {
  source_file : option string;
  title : string;
  scene_elements : list SceneElement;
}.

(** [el.content]. *)
Definition element_content (el : SceneElement) : option string :=
  match el with
  | scene_heading c | action c | transition c => c
  | dialogue_block _ _ => None
  end.

Record StoryElements : Type := {
  se_characters : string;
  se_story : string;
  se_today : string;
}.

Record AnalyzedCharacter : Type := {
  ac_name : string;
  ac_gender : string;
  ac_race : option string;
  ac_voiceDescription : option string;
  ac_otherDescriptors : option string;
}.

(** [{ fileName, base64, mimeType }]. *)
Record CharacterImage : Type := {
  ci_fileName : string;
  ci_base64 : string;
  ci_mimeType : string;
}.

(** [{ base64, mimeType, prompt }]. *)
Record GeneratedCharacterPortrait : Type := {
  gp_base64 : string;
  gp_mimeType : string;
  gp_prompt : string;
}.

(** [{ name, base64, mimeType }]: an entry of [allAvailableCharacterImages]
    and a character reference of an image request. *)
Record NamedImage : Type := {
  ni_name : string;
  ni_base64 : string;
  ni_mimeType : string;
}.

(** [{ sceneIndex, imageUrl, base64, prompt }]. *)
Record GeneratedImage : Type := {
  gi_sceneIndex : nat;
  gi_imageUrl : string;
  gi_base64 : string;
  gi_prompt : string;
}.

(** An entry of the cohesive-prompt list.  A [sceneIndex] that is not an
    index of the script selects no element, like an index past the end. *)
Record CohesivePrompt : Type := {
  cp_sceneIndex : nat;
  cp_prompt : string;
  cp_characters : list string;
}.

Record Hs3000Line : Type := {
  hl_character : string;
  hl_dialogue : string;
}.

Record DialogueInput : Type := {
  di_character : string;
  di_originalDialogue : string;
  di_isDuplicate : bool;
}.

(** The message of the [TypeError] raised by reading [prop] of [undefined]. *)
Definition type_error_undefined (prop : string) : string :=
  "Cannot read properties of undefined (reading '" +:+ prop +:+ "')".

(** ** Dialogue association ([getDialogueForScene], App.tsx) *)

(** [{ character, dialogue, elementIndex }]. *)
Record DialogueMatch : Type := {
  dm_character : string;
  dm_dialogue : string;
  dm_elementIndex : nat;
}.

(** [dBlock.elements.find(e => e.type === 'dialogue')?.content]. *)
Definition spoken_text (elements : list DialoguePart) : option string :=
  part_content <$> List.find (λ e, bool_decide (part_type e = dialogue)) elements.

(** What one iteration of either loop does with the element at [j]. *)
Inductive ScanStep : Type :=
| Break
| Return (d : DialogueMatch)
| Continue.

Definition examine (el : SceneElement) (j : nat) : ScanStep :=
  match el with
  | scene_heading _ => Break
  | dialogue_block character elements =>
      match spoken_text elements with
      | Some spoken =>
          if Js.truthy spoken
          then Return {| dm_character := Js.toUpperCase character;
                         dm_dialogue := spoken;
                         dm_elementIndex := j |}
          else Continue
      | None => Continue
      end
  | _ => Continue
  end.

(** [for (j = sceneIndex + 1; j < length; j++)]: [els] are the elements from
    position [j] on. *)
Fixpoint scan_forward (els : list SceneElement) (j : nat) : option DialogueMatch :=
  match els with
  | [] => None
  | el :: rest =>
      match examine el j with
      | Break => None
      | Return d => Some d
      | Continue => scan_forward rest (S j)
      end
  end.

(** [for (j = n - 1; j >= 0; j--)]: reading [type] of an element past the
    end of the script raises a [TypeError]. *)
Fixpoint scan_backward (els : list SceneElement) (n : nat)
  : Result (option DialogueMatch) :=
  match n with
  | 0 => Ok None
  | S j =>
      match els !! j with
      | None => Throw (type_error_undefined "type")
      | Some el =>
          match examine el j with
          | Break => Ok None
          | Return d => Ok (Some d)
          | Continue => scan_backward els j
          end
      end
  end.

Definition getDialogueForScene (sceneIndex : nat) (script : Script)
  : Result (option DialogueMatch) :=
  match scan_forward (drop (S sceneIndex) (scene_elements script)) (S sceneIndex) with
  | Some d => Ok (Some d)
  | None => scan_backward (scene_elements script) sceneIndex
  end.

(** ** Character reference resolution (the [charName] loop of
    [handleGenerate], App.tsx) *)

(** [name.toLowerCase().replace(/[^a-z0-9]/g, '')]. *)
Definition normalizeForMatch (name : string) : string :=
  Js.filter_chars (λ c, Js.is_lower c || Js.is_digit c) (Js.toLowerCase name).

(** The specification's wording of the same normalisation: strip every
    character that is not alphanumeric, then lowercase. *)
Definition normalize_spec (name : string) : string :=
  Js.toLowerCase
    (Js.filter_chars (λ c, Js.is_lower c || Js.is_upper c || Js.is_digit c) name).

(** The variables of the search loop; [minDistance = None] is [Infinity].
    [distancesComputed] counts the calls of [levenshteinDistance]. *)
Record BestMatch : Type := {
  bestMatchKey : option string;
  minDistance : option nat;
  distancesComputed : nat;
}.

(** [distance < minDistance]. *)
Definition below (distance : nat) (minDistance : option nat) : bool :=
  match minDistance with
  | None => true
  | Some d => distance <? d
  end.

(** The body of [for (const key of Object.keys(allAvailableCharacterImages))]. *)
Definition best_step (normalizedCharName : string) (acc : BestMatch) (key : string)
  : BestMatch :=
  let normalizedKey := normalizeForMatch key in
  let distance := levenshteinDistance normalizedCharName normalizedKey in
  if below distance (minDistance acc)
  then {| bestMatchKey := Some key; minDistance := Some distance;
          distancesComputed := S (distancesComputed acc) |}
  else {| bestMatchKey := bestMatchKey acc; minDistance := minDistance acc;
          distancesComputed := S (distancesComputed acc) |}.

Definition findBestMatch (normalizedCharName : string) (keys : list string) : BestMatch :=
  foldl (best_step normalizedCharName)
        {| bestMatchKey := None; minDistance := None; distancesComputed := 0 |} keys.

(** [d / m < 0.5].  For naturals below 2^53 the quotient of the two doubles
    is below one half exactly when [2 * d < m]; a zero [m] gives [Infinity]
    or [NaN], which are not below one half either. *)
Definition ratio_below_half (d m : nat) : bool := 2 * d <? m.

(** The outcome of resolving one name: the accepted key with its distance,
    and the number of distances that were computed. *)
Record Resolution : Type := {
  resolved : option (string * nat);
  res_distances : nat;
}.

Definition resolveCharacter (keys : list string) (charName : string) : Resolution :=
  let normalizedCharName := normalizeForMatch charName in
  if negb (Js.truthy normalizedCharName) || (length keys =? 0)
  then {| resolved := None; res_distances := 0 |}
  else
    let best := findBestMatch normalizedCharName keys in
    {| resolved :=
         match bestMatchKey best, minDistance best with
         | Some key, Some d =>
             if Js.truthy key &&
                ratio_below_half d
                  (Nat.max (String.length normalizedCharName)
                           (String.length (normalizeForMatch key)))
             then Some (key, d) else None
         | _, _ => None
         end;
       res_distances := distancesComputed best |}.

(** ** The generative service ([geminiService.ts]) *)

(** What one call of [ai.models.generateContent] with a JSON response schema
    may do: fail (the message also stands for an exception raised while the
    answer is parsed), answer with no text, or answer with text that parses
    to [v]. *)
Inductive Raw (T : Type) : Type :=
| RawThrows (msg : string)
| RawEmpty
| RawJson (v : T).
Arguments RawThrows {T} msg.
Arguments RawEmpty {T}.
Arguments RawJson {T} v.

Definition authentication_failed : string :=
  "Authentication failed. Please ensure your API key is correct and has the necessary permissions. The server returned a PERMISSION_DENIED error.".

(** [errorMessage.includes('PERMISSION_DENIED') ||
     errorMessage.includes('API key not valid')]. *)
Definition is_auth_error (errorMessage : string) : bool :=
  Js.includes errorMessage "PERMISSION_DENIED" ||
  Js.includes errorMessage "API key not valid".

(** The [catch] block shared by the service functions that rethrow. *)
Definition rethrow {T} (details : string) (errorMessage : string) : Result T :=
  if is_auth_error errorMessage then Throw authentication_failed
  else Throw (details +:+ errorMessage).

Record TextFile : Type := {
  tf_name : string;
  tf_content : string;
}.

Definition analyzeStoryInputs (files : list TextFile) (raw : Raw StoryElements)
  : Result StoryElements :=
  if length files =? 0
  then Throw "No text or JSON files were provided to analyze for story elements."
  else
    let details :=
      "Could not analyze uploaded files. The model may have returned an invalid response or the content was insufficient. Details: " in
    match raw with
    | RawJson v => Ok v
    | RawEmpty => rethrow details "The model did not return an analysis."
    | RawThrows msg => rethrow details msg
    end.

Definition analyzeCharacterDescriptions (raw : Raw (option (list AnalyzedCharacter)))
  : Result (list AnalyzedCharacter) :=
  let details := "Could not analyze character descriptions. Details: " in
  match raw with
  | RawJson characters => Ok (default [] characters)
  | RawEmpty => rethrow details "The model did not return any character analysis."
  | RawThrows msg => rethrow details msg
  end.

Definition generateStory (raw : Raw Script) : Result Script :=
  let details := "Failed to generate script. Details: " in
  match raw with
  | RawJson script =>
      Ok (if Js.truthy_opt (source_file script) then script
          else {| source_file := Some "gemini-3-pro-preview";
                  title := title script;
                  scene_elements := scene_elements script |})
  | RawEmpty => rethrow details "The model did not return a script."
  | RawThrows msg => rethrow details msg
  end.

Definition generateCohesiveImagePrompts (raw : Raw (option (list CohesivePrompt)))
  : Result (list CohesivePrompt) :=
  let details := "Failed to generate cohesive image prompts. Details: " in
  match raw with
  | RawJson prompts => Ok (default [] prompts)
  | RawEmpty => rethrow details "The model did not return cohesive prompts."
  | RawThrows msg => rethrow details msg
  end.

(** The parts of an image request. *)
Inductive ContentPart : Type :=
| TextPart (text : string)
| InlineData (data mimeType : string).

(** [candidate.content.parts] of a candidate of the image answer.  The
    [content] of a candidate and the [parts] of a content are optional; a
    part is given by its [inlineData.data], when it has one. *)
Inductive CandidateContent : Type :=
| NoContent
| NoParts
| Parts (parts : list (option string)).

(** A candidate: its content, and whether some safety rating is [blocked]. *)
Record Candidate : Type := {
  cand_content : CandidateContent;
  cand_blocked : bool;
}.

(** The message of the [TypeError] raised by iterating over the [parts] of
    a content that has none. *)
Definition type_error_not_iterable : string :=
  "candidate.content.parts is not iterable".

Inductive RawImage : Type :=
| ImageThrows (msg : string)
| ImageResponse (candidates : list Candidate).

Record ImageGenResult : Type := {
  imageBase64 : option string;
  finalPrompt : string;
  wasRewritten : bool;
}.

Definition image_request_parts (finalPrompt : string)
    (characterImages : option (list NamedImage))
    (previousImageBase64 : option string) : list ContentPart :=
  [TextPart finalPrompt]
  ++ match characterImages with
     | Some (img :: imgs) =>
         TextPart (Js.nl +:+ Js.nl +:+
                   "[INSTRUCTIONS] Use the following provided images as a strong visual reference for the characters named: "
                   +:+ Js.join ", " (ni_name <$> (img :: imgs))
                   +:+ ". Maintain their appearance.")
         :: ((λ c, InlineData (ni_base64 c) (ni_mimeType c)) <$> (img :: imgs))
     | _ => []
     end
  ++ (if Js.truthy_opt previousImageBase64
      then [TextPart (Js.nl +:+ Js.nl +:+
                      "[INSTRUCTIONS] Use the following image as a reference for visual continuity from the previous scene.");
            InlineData (default EmptyString previousImageBase64) "image/png"]
      else []).

(** The [catch] block of [generateImage]. *)
Definition image_catch (finalPrompt errorMessage : string) : Result ImageGenResult :=
  if Js.includes errorMessage "SAFETY"
  then Ok {| imageBase64 := None; finalPrompt := finalPrompt; wasRewritten := true |}
  else rethrow "Failed to generate image. Details: " errorMessage.

(** [service parts aspectRatio] is the answer of the image model.  Reading
    the parts of a first candidate that has no content, or whose content
    has no parts, raises a [TypeError] inside the [try] block. *)
Definition generateImage (service : list ContentPart → string → RawImage)
    (prompt : string) (characterImages : option (list NamedImage))
    (previousImageBase64 : option string) (style : option string)
    (aspectRatio : option string) : Result ImageGenResult :=
  let finalPrompt :=
    "Style: " +:+ Js.or_else style "cinematic, photorealistic" +:+ ". " +:+ prompt in
  let parts := image_request_parts finalPrompt characterImages previousImageBase64 in
  match service parts (Js.or_else aspectRatio "1:1") with
  | ImageResponse (candidate :: _) =>
      match cand_content candidate with
      | Parts answered =>
          Ok {| imageBase64 := mjoin (List.find Js.truthy_opt answered);
                finalPrompt := finalPrompt;
                wasRewritten := cand_blocked candidate |}
      | NoContent => image_catch finalPrompt (type_error_undefined "parts")
      | NoParts => image_catch finalPrompt type_error_not_iterable
      end
  | ImageResponse [] =>
      Ok {| imageBase64 := None; finalPrompt := finalPrompt; wasRewritten := true |}
  | ImageThrows errorMessage => image_catch finalPrompt errorMessage
  end.

(** The local fallback of the dialogue rewrite. *)
Definition fallback_line (i : DialogueInput) : Hs3000Line :=
  {| hl_character := di_character i;
     hl_dialogue := Js.first_segment (di_originalDialogue i) +:+ "." |}.

Definition generateHS3000Dialogue (raw : Raw (option (list Hs3000Line)))
    (inputs : list DialogueInput) : list Hs3000Line :=
  match raw with
  | RawJson lines => default [] lines
  | RawEmpty | RawThrows _ => fallback_line <$> inputs
  end.

(** ** The orchestrator ([handleGenerate], App.tsx) *)

(** The React state that [handleGenerate] reads and writes
    ([isFileUploading] belongs to the upload handler).  The status line is
    transient: only its final reset is tracked. *)
Record AppState : Type := mkAppState {
  isGenerating : bool;
  statusMessage : string;
  error : option string;
  scriptData : option Script;
  stylePrompt : string;
  storyPrompt : string;
  generatedImages : list GeneratedImage;
  characterImages : JsObject.t CharacterImage;
  generatedCharacterPortraits : JsObject.t GeneratedCharacterPortrait;
  textFiles : list TextFile;
  generationReport : string;
  generationComplete : bool;
  isReadyForDownload : bool;
  hs3000Lines : list Hs3000Line;
}.

Definition setIsGenerating (v : bool) (s : AppState) : AppState :=
  mkAppState v (statusMessage s) (error s) (scriptData s) (stylePrompt s) (storyPrompt s)
    (generatedImages s) (characterImages s) (generatedCharacterPortraits s) (textFiles s)
    (generationReport s) (generationComplete s) (isReadyForDownload s) (hs3000Lines s).
Definition setStatusMessage (v : string) (s : AppState) : AppState :=
  mkAppState (isGenerating s) v (error s) (scriptData s) (stylePrompt s) (storyPrompt s)
    (generatedImages s) (characterImages s) (generatedCharacterPortraits s) (textFiles s)
    (generationReport s) (generationComplete s) (isReadyForDownload s) (hs3000Lines s).
Definition setError (v : option string) (s : AppState) : AppState :=
  mkAppState (isGenerating s) (statusMessage s) v (scriptData s) (stylePrompt s) (storyPrompt s)
    (generatedImages s) (characterImages s) (generatedCharacterPortraits s) (textFiles s)
    (generationReport s) (generationComplete s) (isReadyForDownload s) (hs3000Lines s).
Definition setScriptData (v : option Script) (s : AppState) : AppState :=
  mkAppState (isGenerating s) (statusMessage s) (error s) v (stylePrompt s) (storyPrompt s)
    (generatedImages s) (characterImages s) (generatedCharacterPortraits s) (textFiles s)
    (generationReport s) (generationComplete s) (isReadyForDownload s) (hs3000Lines s).
Definition setGeneratedImages (f : list GeneratedImage → list GeneratedImage)
    (s : AppState) : AppState :=
  mkAppState (isGenerating s) (statusMessage s) (error s) (scriptData s) (stylePrompt s)
    (storyPrompt s) (f (generatedImages s)) (characterImages s)
    (generatedCharacterPortraits s) (textFiles s)
    (generationReport s) (generationComplete s) (isReadyForDownload s) (hs3000Lines s).
Definition setGeneratedCharacterPortraits
    (f : JsObject.t GeneratedCharacterPortrait → JsObject.t GeneratedCharacterPortrait)
    (s : AppState) : AppState :=
  mkAppState (isGenerating s) (statusMessage s) (error s) (scriptData s) (stylePrompt s)
    (storyPrompt s) (generatedImages s) (characterImages s)
    (f (generatedCharacterPortraits s)) (textFiles s)
    (generationReport s) (generationComplete s) (isReadyForDownload s) (hs3000Lines s).
Definition setGenerationReport (f : string → string) (s : AppState) : AppState :=
  mkAppState (isGenerating s) (statusMessage s) (error s) (scriptData s) (stylePrompt s)
    (storyPrompt s) (generatedImages s) (characterImages s)
    (generatedCharacterPortraits s) (textFiles s)
    (f (generationReport s)) (generationComplete s) (isReadyForDownload s) (hs3000Lines s).
Definition setGenerationComplete (v : bool) (s : AppState) : AppState :=
  mkAppState (isGenerating s) (statusMessage s) (error s) (scriptData s) (stylePrompt s)
    (storyPrompt s) (generatedImages s) (characterImages s)
    (generatedCharacterPortraits s) (textFiles s)
    (generationReport s) v (isReadyForDownload s) (hs3000Lines s).
Definition setIsReadyForDownload (v : bool) (s : AppState) : AppState :=
  mkAppState (isGenerating s) (statusMessage s) (error s) (scriptData s) (stylePrompt s)
    (storyPrompt s) (generatedImages s) (characterImages s)
    (generatedCharacterPortraits s) (textFiles s)
    (generationReport s) (generationComplete s) v (hs3000Lines s).
Definition setHs3000Lines (v : list Hs3000Line) (s : AppState) : AppState :=
  mkAppState (isGenerating s) (statusMessage s) (error s) (scriptData s) (stylePrompt s)
    (storyPrompt s) (generatedImages s) (characterImages s)
    (generatedCharacterPortraits s) (textFiles s)
    (generationReport s) (generationComplete s) (isReadyForDownload s) v.

(** The answers of the outside world during one run.  Each text service is
    called at most once in a run, so its answer is one value; the image
    model is called many times and answers the [k]-th request from its
    number and its contents. *)
Record World : Type := {
  w_now : string;
  w_stringify : list AnalyzedCharacter → string;
  w_analyzeStoryInputs : Raw StoryElements;
  w_generateStory : Raw Script;
  w_analyzeCharacterDescriptions : Raw (option (list AnalyzedCharacter));
  w_generateCohesiveImagePrompts : Raw (option (list CohesivePrompt));
  w_image : nat → list ContentPart → string → RawImage;
  w_generateHS3000Dialogue : Raw (option (list Hs3000Line));
}.

(** The service calls of a run, in the order they are issued.  An image
    call records the place it is issued from, its arguments and what
    [generateImage] gave back. *)
Inductive CallSite : Type := PortraitSite | SceneSite.

Inductive Call : Type :=
| call_analyzeStoryInputs
| call_generateStory
| call_analyzeCharacterDescriptions
| call_generateCohesiveImagePrompts (scenes : list (nat * string))
| call_generateImage (site : CallSite) (prompt : string)
    (characterImages : option (list NamedImage))
    (previousImageBase64 : option string) (result : Result ImageGenResult)
| call_generateHS3000Dialogue (inputs : list DialogueInput).

(** A run in progress: the React state, the local [report], and the trace
    of service calls. *)
Record Run : Type := mkRun {
  st : AppState;
  report : string;
  calls : list Call;
  imageRequests : nat;
}.

(** Computations of the handler: they transform the run and return a value
    or throw. *)
Definition M (T : Type) : Type := Run → Result T * Run.

Definition ret {T} (v : T) : M T := λ r, (Ok v, r).
Definition throw {T} (msg : string) : M T := λ r, (Throw msg, r).
Definition bind {T U} (m : M T) (k : T → M U) : M U :=
  λ r, match m r with
       | (Ok v, r') => k v r'
       | (Throw msg, r') => (Throw msg, r')
       end.
Definition lift {T} (res : Result T) : M T := λ r, (res, r).

Declare Scope run_scope.
Delimit Scope run_scope with run.
Notation "'let*' x := m 'in' k" := (bind m (λ x, k))
  (at level 10, x pattern, m at level 100, k at level 200) : run_scope.
Notation "m >> k" := (bind m (λ _, k))
  (at level 100, k at level 200, right associativity) : run_scope.
Local Open Scope run_scope.

(** [try { body } catch (e) { handler(e.message) }]. *)
Definition try_catch {T} (body : M T) (handler : string → M T) : M T :=
  λ r, match body r with
       | (Ok v, r') => (Ok v, r')
       | (Throw msg, r') => handler msg r'
       end.

Definition update (f : AppState → AppState) : M unit :=
  λ r, (Ok tt, mkRun (f (st r)) (report r) (calls r) (imageRequests r)).
Definition append_report (text : string) : M unit :=
  λ r, (Ok tt, mkRun (st r) (report r +:+ text) (calls r) (imageRequests r)).
Definition current_report : M string := λ r, (Ok (report r), r).
Definition log (c : Call) : M unit :=
  λ r, (Ok tt, mkRun (st r) (report r) (calls r ++ [c]) (imageRequests r)).

(** [await generateImage(prompt, characterImages, previous, style, '16:9')]. *)
Definition callImage (w : World) (site : CallSite) (prompt : string)
    (characterImages : option (list NamedImage))
    (previousImageBase64 : option string) (style : string) : M ImageGenResult :=
  λ r,
    let result :=
      generateImage (w_image w (imageRequests r)) prompt characterImages
                    previousImageBase64 (Some style) (Some "16:9") in
    (result,
     mkRun (st r) (report r)
           (calls r ++ [call_generateImage site prompt characterImages
                                          previousImageBase64 result])
           (S (imageRequests r))).

Fixpoint foldM {T B} (body : B → T → M B) (acc : B) (l : list T) : M B :=
  match l with
  | [] => ret acc
  | x :: l' => let* acc' := body acc x in foldM body acc' l'
  end.

(** *** Character portraits *)

Definition portrait_prompt (char : AnalyzedCharacter) : string :=
  let descriptorString :=
    Js.join ", "
      (List.filter Js.truthy
         (omap id [ac_race char; Some (ac_gender char);
                   ac_voiceDescription char; ac_otherDescriptors char])) in
  "Photorealistic, cinematic, full body portrait of a character named "
  +:+ ac_name char +:+ ". Description: " +:+ descriptorString +:+ ".".

(** One element of [portraitPromises].  The requests are independent; the
    model runs them in the order of [charactersToGenerate]. *)
Definition portraitItem (w : World) (finalStylePrompt : string)
    (newPortraits : JsObject.t GeneratedCharacterPortrait)
    (ichar : nat * AnalyzedCharacter)
  : M (JsObject.t GeneratedCharacterPortrait) :=
  let '(i, char) := ichar in
  try_catch
    (let* imageGenResult :=
       callImage w PortraitSite (portrait_prompt char) None None finalStylePrompt in
     append_report ("[PORTRAIT " +:+ Js.of_nat (i + 1) +:+ "] Character: "
                    +:+ ac_name char +:+ Js.nl) >>
     append_report ("  - Prompt: " +:+ Js.dq +:+ finalPrompt imageGenResult
                    +:+ Js.dq +:+ Js.nl) >>
     append_report ("  - Status: "
                    +:+ (if Js.truthy_opt (imageBase64 imageGenResult)
                         then "Success" else "Failed") +:+ Js.nl +:+ Js.nl) >>
     match imageBase64 imageGenResult with
     | Some base64 =>
         if Js.truthy base64 then
           let newPortrait :=
             {| gp_base64 := base64; gp_mimeType := "image/png";
                gp_prompt := finalPrompt imageGenResult |} in
           update (setGeneratedCharacterPortraits
                     (λ prev, JsObject.set prev (ac_name char) newPortrait)) >>
           ret (JsObject.set newPortraits (ac_name char) newPortrait)
         else ret newPortraits
     | None => ret newPortraits
     end)
    (λ e,
       append_report ("[PORTRAIT " +:+ Js.of_nat (i + 1) +:+ "] Character: "
                      +:+ ac_name char +:+ " - GENERATION FAILED" +:+ Js.nl
                      +:+ "  - Error: " +:+ e +:+ Js.nl +:+ Js.nl) >>
       ret newPortraits).

Definition generatePortraits (w : World) (finalStylePrompt : string)
    (charactersToGenerate : list AnalyzedCharacter)
  : M (JsObject.t GeneratedCharacterPortrait) :=
  foldM (portraitItem w finalStylePrompt) [] (imap pair charactersToGenerate).

(** [allAvailableCharacterImages]: the uploaded images, then the new
    portraits, under lowercased keys. *)
Definition allAvailableCharacterImages
    (characterImages : JsObject.t CharacterImage)
    (newPortraits : JsObject.t GeneratedCharacterPortrait) : JsObject.t NamedImage :=
  let uploaded :=
    foldl (λ all kv, JsObject.set all (Js.toLowerCase kv.1)
                       {| ni_name := kv.1; ni_base64 := ci_base64 kv.2;
                          ni_mimeType := ci_mimeType kv.2 |})
          [] (JsObject.entries characterImages) in
  foldl (λ all kv, JsObject.set all (Js.toLowerCase kv.1)
                     {| ni_name := kv.1; ni_base64 := gp_base64 kv.2;
                        ni_mimeType := gp_mimeType kv.2 |})
        uploaded (JsObject.entries newPortraits).

(** *** Scene images *)

(** [scenesWithAction]: the action elements with content, with their index. *)
Definition scenesWithAction (script : Script) : list (nat * SceneElement) :=
  List.filter (λ ie, match ie.2 with
                     | action content => Js.truthy_opt content
                     | _ => false
                     end)
              (imap pair (scene_elements script)).

Definition scenesToGenerate (script : Script) : list (nat * SceneElement) :=
  take 20 (scenesWithAction script).

(** The [charName] loop: the references found for the names of one prompt,
    and the log line of each. *)
Definition resolveCharacters (available : JsObject.t NamedImage)
    (charactersInPrompt : list string) : list NamedImage * list string :=
  foldl (λ acc charName,
           match resolved (resolveCharacter (JsObject.keys available) charName) with
           | Some (bestMatchKey, minDistance) =>
               match JsObject.get available bestMatchKey with
               | Some matchedImage =>
                   (acc.1 ++ [{| ni_name := ni_name matchedImage;
                                 ni_base64 := ni_base64 matchedImage;
                                 ni_mimeType := ni_mimeType matchedImage |}],
                    acc.2 ++ [ni_name matchedImage +:+ " (Match for: " +:+ charName
                              +:+ ", dist: " +:+ Js.of_nat minDistance +:+ ")"])
               | None => acc
               end
           | None => acc
           end)
        ([], []) charactersInPrompt.

(** The variables the scene loop carries from one iteration to the next. *)
Record SceneLoop : Type := {
  previousImageBase64 : option string;
  finalGeneratedImages : list GeneratedImage;
}.

Definition image_report (i total sceneIndex : nat) (actionContent imagePromptText : string)
    (characterImagesUsedLog : list string) (previous : option string)
    (imageGenResult : ImageGenResult) : string :=
  "[IMAGE " +:+ Js.of_nat (i + 1) +:+ "/" +:+ Js.of_nat total +:+ "] Scene Index: "
    +:+ Js.of_nat sceneIndex +:+ Js.nl
  +:+ "  - Source Action: " +:+ Js.dq +:+ actionContent +:+ Js.dq +:+ Js.nl
  +:+ "  - Cohesive Prompt: " +:+ Js.dq +:+ imagePromptText +:+ Js.dq +:+ Js.nl
  +:+ "  - Character Images Used: "
    +:+ (if 0 <? length characterImagesUsedLog
         then Js.join ", " characterImagesUsedLog else "None") +:+ Js.nl
  +:+ "  - Previous Scene Used for Continuity: "
    +:+ (if Js.truthy_opt previous then "Yes" else "No") +:+ Js.nl
  +:+ "  - Final Prompt Sent: " +:+ Js.dq +:+ finalPrompt imageGenResult +:+ Js.dq +:+ Js.nl
  +:+ "  - Was Rewritten For Safety: "
    +:+ (if wasRewritten imageGenResult then "true" else "false") +:+ Js.nl
  +:+ "  - Generation Status: "
    +:+ (if Js.truthy_opt (imageBase64 imageGenResult) then "Success" else "Failed")
    +:+ Js.nl +:+ Js.nl.

(** One iteration of [for (let i = 0; i < cohesivePrompts.length; i++)]. *)
Definition sceneIteration (w : World) (script : Script)
    (available : JsObject.t NamedImage) (finalStylePrompt : string) (total : nat)
    (loop : SceneLoop) (icp : nat * CohesivePrompt) : M SceneLoop :=
  let '(i, cp) := icp in
  let sceneIndex := cp_sceneIndex cp in
  let imagePromptText := cp_prompt cp in
  let actionElement := scene_elements script !! sceneIndex in
  try_catch
    (match actionElement with
     | None => throw (type_error_undefined "content")
     | Some el =>
         let actionContent := Js.or_else (element_content el) EmptyString in
         let '(characterImagesForGen, characterImagesUsedLog) :=
           resolveCharacters available (cp_characters cp) in
         let* imageGenResult :=
           callImage w SceneSite imagePromptText (Some characterImagesForGen)
                     (previousImageBase64 loop) finalStylePrompt in
         let imageReport :=
           image_report i total sceneIndex actionContent imagePromptText
                        characterImagesUsedLog (previousImageBase64 loop)
                        imageGenResult in
         let* loop' :=
           match imageBase64 imageGenResult with
           | Some base64 =>
               if Js.truthy base64 then
                 let newImg :=
                   {| gi_sceneIndex := sceneIndex;
                      gi_imageUrl := "data:image/png;base64," +:+ base64;
                      gi_base64 := base64;
                      gi_prompt := finalPrompt imageGenResult |} in
                 update (setGeneratedImages (λ prev, prev ++ [newImg])) >>
                 ret {| previousImageBase64 := Some base64;
                        finalGeneratedImages := finalGeneratedImages loop ++ [newImg] |}
               else ret loop
           | None => ret loop
           end in
         append_report imageReport >> ret loop'
     end)
    (λ e,
       append_report ("[IMAGE " +:+ Js.of_nat (i + 1) +:+ "/" +:+ Js.of_nat total
                      +:+ "] Scene Index: " +:+ Js.of_nat sceneIndex
                      +:+ " - GENERATION FAILED" +:+ Js.nl
                      +:+ "  - Error: " +:+ e +:+ Js.nl +:+ Js.nl) >>
       ret loop).

Definition generateSceneImages (w : World) (script : Script)
    (available : JsObject.t NamedImage) (finalStylePrompt : string)
    (cohesivePrompts : list CohesivePrompt) : M SceneLoop :=
  foldM (sceneIteration w script available finalStylePrompt (length cohesivePrompts))
        {| previousImageBase64 := None; finalGeneratedImages := [] |}
        (imap pair cohesivePrompts).

(** *** Dialogue association and duplicate flags *)

(** The variables of [for (const img of finalGeneratedImages)]. *)
Record DialogueLoop : Type := {
  dialogueInputs : list DialogueInput;
  seenDialogueIndices : gset nat;
}.

Definition dialogueIteration (loop : DialogueLoop) (diag : option DialogueMatch)
  : DialogueLoop :=
  match diag with
  | Some diag =>
      let isDuplicate := bool_decide (dm_elementIndex diag ∈ seenDialogueIndices loop) in
      {| dialogueInputs :=
           dialogueInputs loop ++
           [{| di_character := dm_character diag;
               di_originalDialogue := dm_dialogue diag;
               di_isDuplicate := isDuplicate |}];
         seenDialogueIndices := {[dm_elementIndex diag]} ∪ seenDialogueIndices loop |}
  | None => loop
  end.

Fixpoint associateDialogue (script : Script) (loop : DialogueLoop)
    (images : list GeneratedImage) : Result DialogueLoop :=
  match images with
  | [] => Ok loop
  | img :: images' =>
      match getDialogueForScene (gi_sceneIndex img) script with
      | Throw msg => Throw msg
      | Ok diag => associateDialogue script (dialogueIteration loop diag) images'
      end
  end.

(** *** The handler *)

Definition default_story_prompt : string :=
  "A lone astronaut discovers a strange, glowing artifact on a desolate moon.".

Definition undetermined : string :=
  "To be determined by the writer based on the story prompt.".

(** The script-generation prompt. *)
Definition script_prompt (storyElements : StoryElements)
    (uploadedCharacterNames : list string) (finalStoryPrompt : string) : string :=
  Js.join Js.nl
    [ "You are a creative writer for a sci-fi comedy series. Your task is to write a new short movie script based on a series premise and a user-provided event.";
      EmptyString;
      "**Series Premise:**";
      "---";
      "**Characters:**";
      se_characters storyElements;
      EmptyString;
      "**Core Story:**";
      se_story storyElements;
      EmptyString;
      "**Daily Theme:**";
      se_today storyElements;
      "---";
      (if 0 <? length uploadedCharacterNames
       then Js.join Js.nl
              [ EmptyString;
                "**Mandatory Characters:**";
                "You MUST include characters named: "
                  +:+ Js.join ", " uploadedCharacterNames
                  +:+ ". These characters have visual references provided by the user. Integrate them naturally into the story.";
                "---" ]
       else EmptyString);
      EmptyString;
      "**Inspirational Event (Provided by User):**";
      "---";
      finalStoryPrompt;
      "---";
      EmptyString;
      "Weave the essence of this user-provided event into your story. It should serve as the central conflict or comedic situation for the episode. How would the characters from your Series Premise (and the mandatory characters, if any) react to or cause a situation like this?";
      EmptyString;
      "The final output must be a creative and engaging movie script. Return ONLY the JSON object conforming to the provided schema. Do not include any markdown formatting or any other text outside the JSON structure.";
      EmptyString ].

(** The body of the [try] block.  The four inputs are the values the
    callback closes over.  The prompts sent to the text services (the
    character-description source, the character list of the cohesive-prompt
    request) are not modelled beyond what the trace records: the answers
    are fields of the world. *)
Definition tryBody (w : World) (textFiles : list TextFile)
    (characterImages : JsObject.t CharacterImage)
    (stylePrompt storyPrompt : string) : M unit :=
  let noInputs :=
    (length textFiles =? 0) && negb (Js.truthy storyPrompt)
    && (length (JsObject.keys characterImages) =? 0) in
  let finalStoryPrompt := if noInputs then default_story_prompt else storyPrompt in
  (if noInputs
   then append_report ("NOTE: No inputs provided. Using a default story prompt to begin generation."
                       +:+ Js.nl +:+ Js.nl)
   else ret tt) >>
  let* storyElements :=
    (if 0 <? length textFiles then
       append_report ("--- SOURCE FILES ---" +:+ Js.nl) >>
       append_report (Js.join Js.nl ((λ f, " - " +:+ tf_name f) <$> textFiles)
                      +:+ Js.nl +:+ Js.nl) >>
       log call_analyzeStoryInputs >>
       lift (analyzeStoryInputs textFiles (w_analyzeStoryInputs w))
     else
       append_report ("--- SOURCE FILES ---" +:+ Js.nl) >>
       append_report ("No context files provided. Story elements will be inferred from the prompt."
                      +:+ Js.nl +:+ Js.nl) >>
       ret {| se_characters := undetermined; se_story := undetermined;
              se_today := undetermined |}) in
  let styleFile :=
    List.find (λ f, String.eqb (Js.toLowerCase (tf_name f)) "style.txt") textFiles in
  let finalStylePrompt :=
    match styleFile with Some f => tf_content f | None => stylePrompt end in
  (match styleFile with
   | Some f =>
       append_report ("NOTE: Using style.txt for style prompt." +:+ Js.nl +:+ "---" +:+ Js.nl
                      +:+ tf_content f +:+ Js.nl +:+ "---" +:+ Js.nl +:+ Js.nl)
   | None =>
       if Js.truthy stylePrompt
       then append_report ("--- STYLE PROMPT ---" +:+ Js.nl +:+ "Style: " +:+ Js.dq
                           +:+ stylePrompt +:+ Js.dq +:+ Js.nl +:+ Js.nl)
       else ret tt
   end) >>
  let uploadedCharacterNames := JsObject.keys characterImages in
  (if 0 <? length uploadedCharacterNames
   then append_report ("--- UPLOADED CHARACTERS ---" +:+ Js.nl) >>
        append_report ("The following characters were provided via image upload and must be included in the story: "
                       +:+ Js.join ", " uploadedCharacterNames +:+ Js.nl +:+ Js.nl)
   else ret tt) >>
  append_report ("--- STORY ANALYSIS ---" +:+ Js.nl) >>
  append_report ("Characters: " +:+ se_characters storyElements +:+ Js.nl) >>
  append_report ("Core Story: " +:+ se_story storyElements +:+ Js.nl) >>
  append_report ("Daily Theme: " +:+ se_today storyElements +:+ Js.nl) >>
  append_report ("Inspirational Event: " +:+ finalStoryPrompt +:+ Js.nl +:+ Js.nl) >>
  let finalPrompt := script_prompt storyElements uploadedCharacterNames finalStoryPrompt in
  append_report ("--- SCRIPT GENERATION PROMPT ---" +:+ Js.nl) >>
  append_report (finalPrompt +:+ Js.nl +:+ Js.nl) >>
  log call_generateStory >>
  let* script := lift (generateStory (w_generateStory w)) in
  update (setScriptData (Some script)) >>
  append_report ("--- SCRIPT GENERATED SUCCESSFULLY ---" +:+ Js.nl +:+ Js.nl) >>
  append_report ("--- LLM CHARACTER ANALYSIS ---" +:+ Js.nl) >>
  log call_analyzeCharacterDescriptions >>
  let* analyzedCharacters :=
    lift (analyzeCharacterDescriptions (w_analyzeCharacterDescriptions w)) in
  append_report ("LLM Analysis Result (JSON):" +:+ Js.nl
                 +:+ w_stringify w analyzedCharacters +:+ Js.nl +:+ Js.nl) >>
  append_report ("--- CHARACTER PORTRAIT GENERATION ---" +:+ Js.nl +:+ Js.nl) >>
  let charactersToGenerate :=
    List.filter
      (λ char, negb (JsObject.truthy_at characterImages
                       (Js.trim (Js.toLowerCase (ac_name char)))))
      analyzedCharacters in
  let* newPortraits := generatePortraits w finalStylePrompt charactersToGenerate in
  let available := allAvailableCharacterImages characterImages newPortraits in
  append_report ("--- SCENE ASSET GENERATION LOG ---" +:+ Js.nl +:+ Js.nl) >>
  (if 20 <? length (scenesWithAction script)
   then append_report ("NOTE: Found " +:+ Js.of_nat (length (scenesWithAction script))
                       +:+ " actions with content, but limiting image generation to the first 20 to manage processing time."
                       +:+ Js.nl +:+ Js.nl)
   else ret tt) >>
  log (call_generateCohesiveImagePrompts
         ((λ s, (s.1, Js.or_else (element_content s.2) EmptyString))
            <$> scenesToGenerate script)) >>
  let* cohesivePrompts :=
    lift (generateCohesiveImagePrompts (w_generateCohesiveImagePrompts w)) in
  let* sceneLoop :=
    generateSceneImages w script available finalStylePrompt cohesivePrompts in
  let* dialogueLoop :=
    lift (associateDialogue script
            {| dialogueInputs := []; seenDialogueIndices := ∅ |}
            (finalGeneratedImages sceneLoop)) in
  (if 0 <? length (dialogueInputs dialogueLoop) then
     log (call_generateHS3000Dialogue (dialogueInputs dialogueLoop)) >>
     let lines :=
       generateHS3000Dialogue (w_generateHS3000Dialogue w) (dialogueInputs dialogueLoop) in
     update (setHs3000Lines lines) >>
     append_report ("--- HS3000 DIALOGUE GENERATED ---" +:+ Js.nl) >>
     append_report (Js.join Js.nl
                      ((λ l, hl_character l +:+ ": " +:+ Js.dq +:+ hl_dialogue l +:+ Js.dq)
                         <$> lines)
                    +:+ Js.nl +:+ Js.nl)
   else ret tt) >>
  let* report := current_report in
  update (setGenerationReport (λ _, report)) >>
  update (setGenerationComplete true).

Definition generation_failed (errorMessage : string) : string :=
  "--- GENERATION FAILED ---" +:+ Js.nl +:+ Js.nl +:+ "Error: " +:+ errorMessage +:+ Js.nl.

(** The state resets at the start of the handler. *)
Definition resetForRun (s : AppState) : AppState :=
  setHs3000Lines []
    (setIsReadyForDownload false
       (setGenerationComplete false
          (setGenerationReport (λ _, EmptyString)
             (setGeneratedCharacterPortraits (λ _, [])
                (setGeneratedImages (λ _, [])
                   (setScriptData None
                      (setError None
                         (setIsGenerating true s)))))))).

(** [handleGenerate]: the resets, the [try] block, its [catch] and its
    [finally].  The result is the run when the handler has finished. *)
Definition handleGenerate (w : World) (s : AppState) : Run :=
  let r0 :=
    mkRun (resetForRun s)
          ("--- BOT THOTLE GENERATION REPORT ---" +:+ Js.nl +:+ Js.nl
           +:+ "Generation Date: " +:+ w_now w +:+ Js.nl +:+ Js.nl)
          [] 0 in
  let body :=
    try_catch
      (tryBody w (textFiles s) (characterImages s) (stylePrompt s) (storyPrompt s))
      (λ errorMessage,
         update (setError (Some errorMessage)) >>
         update (setGenerationReport (λ prev, prev +:+ generation_failed errorMessage))) in
  let finally :=
    update (setIsGenerating false) >>
    update (setStatusMessage EmptyString) >>
    update (setIsReadyForDownload true) in
  (finally (body r0).2).2.

(** ** The presentation player ([PresentationPlayer]) *)

(** An item handed to the player: a generated image or a generated audio
    clip, each with the index of its scene. *)
Inductive Media : Type :=
| ImageUrl (imageUrl : string)
| AudioBlob (audioBlob : string).

Record PlayerItem : Type := {
  pi_sceneIndex : nat;
  pi_media : Media;
}.

(** [{ ...item, sceneElement }]. *)
Record StoryboardItem : Type := {
  sb_item : PlayerItem;
  sb_sceneElement : option SceneElement;
}.

Definition sb_sceneIndex (x : StoryboardItem) : nat := pi_sceneIndex (sb_item x).

(** [array.sort((a, b) => a.sceneIndex - b.sceneIndex)].  The sort of the
    language is stable, so for this comparator its result is the one of a
    stable insertion sort. *)
Fixpoint sort_insert (x : StoryboardItem) (l : list StoryboardItem) : list StoryboardItem :=
  match l with
  | [] => [x]
  | y :: l' =>
      if sb_sceneIndex y <? sb_sceneIndex x then y :: sort_insert x l' else x :: l
  end.

Definition sort_by_sceneIndex (l : list StoryboardItem) : list StoryboardItem :=
  foldr sort_insert [] l.

Definition storyboardItems (initialItems : list PlayerItem) (script : Script)
  : list StoryboardItem :=
  sort_by_sceneIndex
    ((λ item, {| sb_item := item;
                 sb_sceneElement := scene_elements script !! pi_sceneIndex item |})
       <$> initialItems).

(** [goToNext]: [setCurrentIndex(prev => Math.min(prev + 1, length))]. *)
Definition goToNext (items : list StoryboardItem) (currentIndex : nat) : nat :=
  Nat.min (currentIndex + 1) (length items).

(** The item on screen: [storyboardItems[currentIndex]]. *)
Definition currentItem (items : list StoryboardItem) (currentIndex : nat)
  : option StoryboardItem := items !! currentIndex.

(** The items shown while the player advances [steps] times from the start. *)
Fixpoint playback (items : list StoryboardItem) (currentIndex steps : nat)
  : list StoryboardItem :=
  match steps with
  | 0 => []
  | S steps' =>
      match currentItem items currentIndex with
      | Some item => item :: playback items (goToNext items currentIndex) steps'
      | None => []
      end
  end.

(** * Specification vocabulary

    The predicates and functions in which the properties are stated. *)

(** ** Edit distance *)

(** The cost of aligning two characters. *)
Definition subst_cost {A} `{EqDecision A} (x y : A) : nat :=
  if decide (x = y) then 0 else 1.

(** The distance between the prefixes of length [i] of [a] and [j] of [b]. *)
Definition prefix_lev {A} `{EqDecision A} (a b : list A) (i j : nat) : nat :=
  lev (reverse (take i a)) (reverse (take j b)).

(** The table of [a] and [b] keeps its dimensions. *)
Definition table_shape {A} (a b : list A) (m : Matrix) : Prop :=
  length m = S (length b) ∧
  ∀ j row, m !! j = Some row → length row = S (length a).

(** Every cell of [known] holds the distance of its two prefixes. *)
Definition table_inv {A} `{EqDecision A} (a b : list A)
    (known : nat → nat → Prop) (m : Matrix) : Prop :=
  table_shape a b m ∧
  ∀ j i, j ≤ length b → i ≤ length a → known j i →
         cell m j i = Some (prefix_lev a b i j).

(** The code units of a string. *)
Definition chars (s : string) : list ascii := String.list_ascii_of_string s.

(** ** Player order *)

(** The order of the player: ascending scene index. *)
Definition by_sceneIndex (x y : StoryboardItem) : Prop := sb_sceneIndex x ≤ sb_sceneIndex y.

(** ** Dialogue association *)

(** [utters el character text]: [el] is a dialogue block of [character]
    whose first [dialogue]-typed part has the non-empty content [text]. *)
Definition utters (el : SceneElement) (character text : string) : Prop :=
  ∃ elements before part after,
    el = dialogue_block character elements ∧
    elements = before ++ part :: after ∧
    Forall (λ p, part_type p ≠ dialogue) before ∧
    part_type part = dialogue ∧
    part_content part = text ∧ text ≠ EmptyString.

(** [el] is a scene heading. *)
Definition is_heading (el : SceneElement) : Prop := ∃ content, el = scene_heading content.

(** The association that a block at position [j] yields. *)
Definition matches_at (el : SceneElement) (j : nat) (d : DialogueMatch) : Prop :=
  ∃ character text,
    utters el character text ∧
    d = {| dm_character := Js.toUpperCase character; dm_dialogue := text;
           dm_elementIndex := j |}.

(** The scan moves past [el]: neither a boundary nor a match. *)
Definition passed (el : SceneElement) : Prop :=
  ¬ is_heading el ∧ ∀ character text, ¬ utters el character text.

(** The scan moves past position [k] of the script. *)
Definition passed_at (script : Script) (k : nat) : Prop :=
  ∃ el, scene_elements script !! k = Some el ∧ passed el.

(** The forward scan from [i + 1] finds [d] at the first stop. *)
Definition forward_match (script : Script) (i : nat) (d : DialogueMatch) : Prop :=
  ∃ j el, i < j ∧ scene_elements script !! j = Some el ∧ matches_at el j d ∧
          ∀ k, i < k < j → passed_at script k.

(** The forward scan ends without a match: at a heading or past the end. *)
Definition forward_none (script : Script) (i : nat) : Prop :=
  ∃ j, i < j ∧
       (scene_elements script !! j = None ∨
        ∃ el, scene_elements script !! j = Some el ∧ is_heading el) ∧
       ∀ k, i < k < j → passed_at script k.

(** The backward scan from [i - 1] finds [d] at the first stop. *)
Definition backward_match (script : Script) (i : nat) (d : DialogueMatch) : Prop :=
  ∃ j el, j < i ∧ scene_elements script !! j = Some el ∧ matches_at el j d ∧
          ∀ k, j < k < i → passed_at script k.

(** The backward scan ends without a match: at a heading or before the
    first element. *)
Definition backward_none (script : Script) (i : nat) : Prop :=
  (∀ k, k < i → passed_at script k) ∨
  ∃ j el, j < i ∧ scene_elements script !! j = Some el ∧ is_heading el ∧
          ∀ k, j < k < i → passed_at script k.

(** The script of the specification's example:
    action, dialogue block of A, scene heading, action. *)
Definition example_script : Script :=
  {| source_file := None; title := "Example";
     scene_elements :=
       [ action (Some "A enters.");
         dialogue_block "a" [ {| part_type := parenthetical; part_content := "softly" |};
                              {| part_type := dialogue; part_content := "Hello there." |} ];
         scene_heading (Some "INT. KITCHEN");
         action (Some "The room is empty.") ] |}.

(** A script whose first dialogue block has an empty dialogue part: read
    literally, the first block with a dialogue part is A's, at index 1; the
    code passes over it and returns B's block at index 2. *)
Definition empty_line_script : Script :=
  {| source_file := None; title := "Empty line";
     scene_elements :=
       [ action (Some "A stares.");
         dialogue_block "a" [ {| part_type := dialogue; part_content := EmptyString |} ];
         dialogue_block "b" [ {| part_type := dialogue; part_content := "Well?" |} ] ] |}.

(** ** Duplicate flags *)

(** The association of a generated image, when there is one. *)
Definition association (script : Script) (img : GeneratedImage) : option DialogueMatch :=
  match getDialogueForScene (gi_sceneIndex img) script with
  | Ok (Some d) => Some d
  | _ => None
  end.

(** The associations of a run, in the order of the generated images. *)
Definition associations (script : Script) (images : list GeneratedImage)
  : list DialogueMatch := omap (association script) images.

(** The loop variables before the first image. *)
Definition initial_dialogue_loop : DialogueLoop :=
  {| dialogueInputs := []; seenDialogueIndices := ∅ |}.

(** The input made from [d] when the indices [seen] were consumed before. *)
Definition flagged (seen : list nat) (d : DialogueMatch) : DialogueInput :=
  {| di_character := dm_character d;
     di_originalDialogue := dm_dialogue d;
     di_isDuplicate := bool_decide (dm_elementIndex d ∈ seen) |}.

(** ** Character reference resolution *)

(** The distance from the normalised query to a normalised candidate key. *)
Definition key_distance (normalizedQuery key : string) : nat :=
  levenshteinDistance normalizedQuery (normalizeForMatch key).

(** [first_minimum f l n k]: [k] is the element at position [n] of [l], no
    element has a smaller [f], and every earlier element has a larger one. *)
Definition first_minimum (f : string → nat) (l : list string) (n : nat) (k : string) : Prop :=
  l !! n = Some k ∧
  (∀ m k', l !! m = Some k' → f k ≤ f k') ∧
  (∀ m k', m < n → l !! m = Some k' → f k < f k').

(** ** Runs of the handler *)

(** [wp m r Q]: running [m] from [r] ends in a result and a run that
    satisfy [Q]. *)
Definition wp {T} (m : M T) (r : Run) (Q : Result T → Run → Prop) : Prop :=
  Q (m r).1 (m r).2.

(** [r] with the local report replaced. *)
Definition with_report (rep : string) (r : Run) : Run :=
  mkRun (st r) rep (calls r) (imageRequests r).

(** A step that only extends the local report. *)
Definition report_only (m : M unit) : Prop :=
  ∀ r, ∃ rep, m r = (Ok tt, with_report rep r).

(** A request for a portrait: no character image, no continuity reference. *)
Definition portrait_call (c : Call) : Prop :=
  ∃ prompt result, c = call_generateImage PortraitSite prompt None None result.

(** The image a call produced, when its generation succeeded. *)
Definition success_of (c : Call) : option string :=
  match c with
  | call_generateImage _ _ _ _ (Ok res) =>
      if Js.truthy_opt (imageBase64 res) then imageBase64 res else None
  | _ => None
  end.

(** The continuity reference after the call [c], when it was [prev] before. *)
Definition carry (prev : option string) (c : Call) : option string :=
  match success_of c with
  | Some img => Some img
  | None => prev
  end.

(** The continuity reference a call was issued with. *)
Definition reference_of (c : Call) : option string :=
  match c with
  | call_generateImage _ _ _ previousImageBase64 _ => previousImageBase64
  | _ => None
  end.

(** A request for a scene image. *)
Definition scene_call (c : Call) : Prop :=
  ∃ prompt characterImages previous result,
    c = call_generateImage SceneSite prompt (Some characterImages) previous result.

(** Every call of [cs] is a scene call issued with the reference carried
    from [prev] through the calls before it. *)
Fixpoint chained (prev : option string) (cs : list Call) : Prop :=
  match cs with
  | [] => True
  | c :: cs' => scene_call c ∧ reference_of c = prev ∧ chained (carry prev c) cs'
  end.

(** The image belongs to an element of the script. *)
Definition in_script (script : Script) (img : GeneratedImage) : Prop :=
  gi_sceneIndex img < length (scene_elements script).

(** The story elements used when no text file was uploaded. *)
Definition default_story_elements : StoryElements :=
  {| se_characters := undetermined; se_story := undetermined; se_today := undetermined |}.

(** The story elements of a run: analysed from the text files when there
    are some. *)
Definition storyElementsOf (w : World) (textFiles : list TextFile) : Result StoryElements :=
  if 0 <? length textFiles
  then analyzeStoryInputs textFiles (w_analyzeStoryInputs w)
  else Ok default_story_elements.

(** The story-analysis call of a run, made when there are text files. *)
Definition analysis_calls (textFiles : list TextFile) : list Call :=
  if 0 <? length textFiles then [call_analyzeStoryInputs] else [].

(** The rewrite call of a run, made when there is at least one input. *)
Definition hs_calls (inputs : list DialogueInput) : list Call :=
  if 0 <? length inputs then [call_generateHS3000Dialogue inputs] else [].

(** The lines stored by that call. *)
Definition hs_update (w : World) (inputs : list DialogueInput) (s : AppState) : AppState :=
  if 0 <? length inputs
  then setHs3000Lines (generateHS3000Dialogue (w_generateHS3000Dialogue w) inputs) s
  else s.

(** The scenes submitted to the prompt service. *)
Definition requested_scenes (script : Script) : list (nat * string) :=
  (λ s, (s.1, Js.or_else (element_content s.2) EmptyString)) <$> scenesToGenerate script.

(** The style of a run: the content of [style.txt] when it was uploaded,
    else the style prompt. *)
Definition finalStyleOf (textFiles : list TextFile) (stylePrompt : string) : string :=
  match List.find (λ f, String.eqb (Js.toLowerCase (tf_name f)) "style.txt") textFiles with
  | Some f => tf_content f
  | None => stylePrompt
  end.

(** The characters for which a run requests a portrait: the analysed ones
    for which the lookup of their lowercased, trimmed name among the
    uploaded images finds nothing. *)
Definition charactersToGenerate (characterImages : JsObject.t CharacterImage)
    (analyzedCharacters : list AnalyzedCharacter) : list AnalyzedCharacter :=
  List.filter
    (λ char, negb (JsObject.truthy_at characterImages
                     (Js.trim (Js.toLowerCase (ac_name char)))))
    analyzedCharacters.

(** What [generateImage] gives back for the request number [k] of a run
    (the requests of a run are numbered from 0 in the order they are
    issued). *)
Definition image_answer (w : World) (style : string) (k : nat) (prompt : string)
    (characterImages : option (list NamedImage)) (previous : option string)
  : Result ImageGenResult :=
  generateImage (w_image w k) prompt characterImages previous (Some style) (Some "16:9").

(** The prompt of an image request. *)
Definition prompt_of (c : Call) : option string :=
  match c with
  | call_generateImage _ prompt _ _ _ => Some prompt
  | _ => None
  end.

(** The request for the portrait of [char], as request number [k]. *)
Definition portrait_request (w : World) (style : string) (k : nat)
    (char : AnalyzedCharacter) : Call :=
  call_generateImage PortraitSite (portrait_prompt char) None None
    (image_answer w style k (portrait_prompt char) None None).

(** The requests for the portraits of [chars], numbered from [k]. *)
Definition portrait_requests (w : World) (style : string) (k : nat)
    (chars : list AnalyzedCharacter) : list Call :=
  imap (λ i char, portrait_request w style (k + i) char) chars.

(** The portrait made from what a request gave back, when it carries an
    image. *)
Definition portrait_from (result : Result ImageGenResult)
  : option GeneratedCharacterPortrait :=
  match result with
  | Ok res =>
      match imageBase64 res with
      | Some base64 =>
          if Js.truthy base64
          then Some {| gp_base64 := base64; gp_mimeType := "image/png";
                       gp_prompt := finalPrompt res |}
          else None
      | None => None
      end
  | Throw _ => None
  end.

(** The portrait of [char] when its request is number [k]. *)
Definition portrait_answer (w : World) (style : string) (k : nat)
    (char : AnalyzedCharacter) : option GeneratedCharacterPortrait :=
  portrait_from (image_answer w style k (portrait_prompt char) None None).

(** The portraits after the request number [k], for [char]. *)
Definition store_portrait (w : World) (style : string)
    (portraits : JsObject.t GeneratedCharacterPortrait) (k : nat)
    (char : AnalyzedCharacter) : JsObject.t GeneratedCharacterPortrait :=
  match portrait_answer w style k char with
  | Some portrait => JsObject.set portraits (ac_name char) portrait
  | None => portraits
  end.

(** The portraits after the requests for [chars], numbered from [k]. *)
Fixpoint store_portraits (w : World) (style : string)
    (portraits : JsObject.t GeneratedCharacterPortrait) (k : nat)
    (chars : list AnalyzedCharacter) : JsObject.t GeneratedCharacterPortrait :=
  match chars with
  | [] => portraits
  | char :: chars' =>
      store_portraits w style (store_portrait w style portraits k char) (S k) chars'
  end.

(** The scene index of the prompt selects an element of the script. *)
Definition selects (script : Script) (cp : CohesivePrompt) : bool :=
  match scene_elements script !! cp_sceneIndex cp with
  | Some _ => true
  | None => false
  end.

(** The prompts for which the scene loop issues a request: those whose
    scene index selects an element of the script. *)
Definition prompts_in_script (script : Script) (cps : list CohesivePrompt)
  : list CohesivePrompt := List.filter (selects script) cps.

(** The request for the scene of [cp], as request number [k], with the
    continuity reference [prev]. *)
Definition scene_request (w : World) (available : JsObject.t NamedImage) (style : string)
    (k : nat) (prev : option string) (cp : CohesivePrompt) : Call :=
  let characterImagesForGen := (resolveCharacters available (cp_characters cp)).1 in
  call_generateImage SceneSite (cp_prompt cp) (Some characterImagesForGen) prev
    (image_answer w style k (cp_prompt cp) (Some characterImagesForGen) prev).

(** The requests for the scenes of [cps], numbered from [k], the first with
    the continuity reference [prev]. *)
Fixpoint scene_requests (w : World) (available : JsObject.t NamedImage) (style : string)
    (k : nat) (prev : option string) (cps : list CohesivePrompt) : list Call :=
  match cps with
  | [] => []
  | cp :: cps' =>
      let c := scene_request w available style k prev cp in
      c :: scene_requests w available style (S k) (carry prev c) cps'
  end.

(** The generated image of a request for the scene [sceneIndex], when the
    request gave back an image. *)
Definition image_from (sceneIndex : nat) (c : Call) : option GeneratedImage :=
  match c with
  | call_generateImage _ _ _ _ (Ok res) =>
      match imageBase64 res with
      | Some base64 =>
          if Js.truthy base64
          then Some {| gi_sceneIndex := sceneIndex;
                       gi_imageUrl := "data:image/png;base64," +:+ base64;
                       gi_base64 := base64;
                       gi_prompt := finalPrompt res |}
          else None
      | None => None
      end
  | _ => None
  end.

(** The generated images of the requests [cs] issued for the prompts
    [cps], in order. *)
Definition images_from (cps : list CohesivePrompt) (cs : list Call) : list GeneratedImage :=
  omap (λ pc, image_from (cp_sceneIndex pc.1) pc.2) (zip cps cs).

(** How the [try] block of a run from [r0] can end. *)
Inductive Outcome (w : World) (textFiles : list TextFile)
    (characterImages : JsObject.t CharacterImage) (stylePrompt : string) (r0 : Run)
  : Result unit → Run → Prop :=
| failed_analysis msg rep :
    storyElementsOf w textFiles = Throw msg →
    Outcome w textFiles characterImages stylePrompt r0 (Throw msg)
      (mkRun (st r0) rep (calls r0 ++ analysis_calls textFiles) (imageRequests r0))
| failed_story se msg rep :
    storyElementsOf w textFiles = Ok se →
    generateStory (w_generateStory w) = Throw msg →
    Outcome w textFiles characterImages stylePrompt r0 (Throw msg)
      (mkRun (st r0) rep
             (calls r0 ++ analysis_calls textFiles ++ [call_generateStory])
             (imageRequests r0))
| failed_characters se script msg rep :
    storyElementsOf w textFiles = Ok se →
    generateStory (w_generateStory w) = Ok script →
    analyzeCharacterDescriptions (w_analyzeCharacterDescriptions w) = Throw msg →
    Outcome w textFiles characterImages stylePrompt r0 (Throw msg)
      (mkRun (setScriptData (Some script) (st r0)) rep
             (calls r0 ++ analysis_calls textFiles
                ++ [call_generateStory; call_analyzeCharacterDescriptions])
             (imageRequests r0))
| failed_prompts se script characters f pcs msg rep n :
    storyElementsOf w textFiles = Ok se →
    generateStory (w_generateStory w) = Ok script →
    analyzeCharacterDescriptions (w_analyzeCharacterDescriptions w) = Ok characters →
    Forall portrait_call pcs → length pcs ≤ length characters →
    generateCohesiveImagePrompts (w_generateCohesiveImagePrompts w) = Throw msg →
    pcs = portrait_requests w (finalStyleOf textFiles stylePrompt) (imageRequests r0)
            (charactersToGenerate characterImages characters) →
    (∀ prev, f prev = store_portraits w (finalStyleOf textFiles stylePrompt) prev
                        (imageRequests r0)
                        (charactersToGenerate characterImages characters)) →
    Outcome w textFiles characterImages stylePrompt r0 (Throw msg)
      (mkRun (setGeneratedCharacterPortraits f (setScriptData (Some script) (st r0))) rep
             (calls r0 ++ analysis_calls textFiles
                ++ [call_generateStory; call_analyzeCharacterDescriptions] ++ pcs
                ++ [call_generateCohesiveImagePrompts (requested_scenes script)])
             n)
| completed se script characters f pcs cps imgs scs dl rep n :
    storyElementsOf w textFiles = Ok se →
    generateStory (w_generateStory w) = Ok script →
    analyzeCharacterDescriptions (w_analyzeCharacterDescriptions w) = Ok characters →
    Forall portrait_call pcs → length pcs ≤ length characters →
    generateCohesiveImagePrompts (w_generateCohesiveImagePrompts w) = Ok cps →
    chained None scs → length scs ≤ length cps →
    sublist (gi_sceneIndex <$> imgs) (cp_sceneIndex <$> cps) →
    Forall (in_script script) imgs →
    gi_base64 <$> imgs = omap success_of scs →
    associateDialogue script initial_dialogue_loop imgs = Ok dl →
    pcs = portrait_requests w (finalStyleOf textFiles stylePrompt) (imageRequests r0)
            (charactersToGenerate characterImages characters) →
    (∀ prev, f prev = store_portraits w (finalStyleOf textFiles stylePrompt) prev
                        (imageRequests r0)
                        (charactersToGenerate characterImages characters)) →
    scs = scene_requests w
            (allAvailableCharacterImages characterImages
               (store_portraits w (finalStyleOf textFiles stylePrompt) []
                  (imageRequests r0) (charactersToGenerate characterImages characters)))
            (finalStyleOf textFiles stylePrompt)
            (imageRequests r0 + length (charactersToGenerate characterImages characters))
            None (prompts_in_script script cps) →
    imgs = images_from (prompts_in_script script cps) scs →
    Outcome w textFiles characterImages stylePrompt r0 (Ok tt)
      (mkRun (setGenerationComplete true
                (setGenerationReport (λ _, rep)
                   (hs_update w (dialogueInputs dl)
                      (setGeneratedImages (λ prev, prev ++ imgs)
                         (setGeneratedCharacterPortraits f
                            (setScriptData (Some script) (st r0)))))))
             rep
             (calls r0 ++ analysis_calls textFiles
                ++ [call_generateStory; call_analyzeCharacterDescriptions] ++ pcs
                ++ [call_generateCohesiveImagePrompts (requested_scenes script)]
                ++ scs ++ hs_calls (dialogueInputs dl))
             n).

(** The run at the start of the [try] block. *)
Definition initial_run (w : World) (s : AppState) : Run :=
  mkRun (resetForRun s)
        ("--- BOT THOTLE GENERATION REPORT ---" +:+ Js.nl +:+ Js.nl
         +:+ "Generation Date: " +:+ w_now w +:+ Js.nl +:+ Js.nl)
        [] 0.

(** The [catch] and [finally] blocks, applied to the end of the [try] block. *)
Definition settle (res : Result unit) (r : Run) : Run :=
  let caught :=
    match res with
    | Ok _ => st r
    | Throw errorMessage =>
        setGenerationReport (λ prev, prev +:+ generation_failed errorMessage)
          (setError (Some errorMessage) (st r))
    end in
  mkRun (setIsReadyForDownload true
           (setStatusMessage EmptyString (setIsGenerating false caught)))
        (report r) (calls r) (imageRequests r).

(** The fatal stages, in the order they run. *)
Inductive Stage : Type :=
| AnalyzeStory | GenerateScript | AnalyzeCharacters | GenerateCohesivePrompts.

(** The first fatal stage that fails in a run, with the error it throws. *)
Definition fatal_failure (w : World) (textFiles : list TextFile) : option (Stage * string) :=
  match storyElementsOf w textFiles with
  | Throw msg => Some (AnalyzeStory, msg)
  | Ok _ =>
      match generateStory (w_generateStory w) with
      | Throw msg => Some (GenerateScript, msg)
      | Ok _ =>
          match analyzeCharacterDescriptions (w_analyzeCharacterDescriptions w) with
          | Throw msg => Some (AnalyzeCharacters, msg)
          | Ok _ =>
              match generateCohesiveImagePrompts (w_generateCohesiveImagePrompts w) with
              | Throw msg => Some (GenerateCohesivePrompts, msg)
              | Ok _ => None
              end
          end
      end
  end.

(** ** Calls of a run *)

Definition scene_site_call (c : Call) : bool :=
  match c with
  | call_generateImage SceneSite _ _ _ _ => true
  | _ => false
  end.

(** The scene-image requests of a run, in the order they were issued. *)
Definition scene_calls (r : Run) : list Call := List.filter scene_site_call (calls r).

Definition portrait_site_call (c : Call) : bool :=
  match c with
  | call_generateImage PortraitSite _ _ _ _ => true
  | _ => false
  end.

(** The portrait requests of a run, in the order they were issued. *)
Definition portrait_calls (r : Run) : list Call := List.filter portrait_site_call (calls r).

(** The prompts a run iterates over. *)
Definition cohesivePromptsOf (w : World) : list CohesivePrompt :=
  match generateCohesiveImagePrompts (w_generateCohesiveImagePrompts w) with
  | Ok prompts => prompts
  | Throw _ => []
  end.

(** The rewrite call failed entirely: it threw (or its answer could not be
    parsed), or it answered with no text. *)
Definition rewrite_failed {T} (raw : Raw T) : bool :=
  match raw with
  | RawJson _ => false
  | RawEmpty | RawThrows _ => true
  end.

(** Some character of [s] is a sentence terminator. *)
Fixpoint has_terminator (s : string) : bool :=
  match s with
  | EmptyString => false
  | String c s' => Js.is_terminator c || has_terminator s'
  end.

(** The message of a call that threw. *)
Definition raw_failure {T} (raw : Raw T) : option string :=
  match raw with
  | RawThrows msg => Some msg
  | _ => None
  end.

(** The message with which the service refused the call of a fatal stage. *)
Definition stage_raw_failure (w : World) (stage : Stage) : option string :=
  match stage with
  | AnalyzeStory => raw_failure (w_analyzeStoryInputs w)
  | GenerateScript => raw_failure (w_generateStory w)
  | AnalyzeCharacters => raw_failure (w_analyzeCharacterDescriptions w)
  | GenerateCohesivePrompts => raw_failure (w_generateCohesiveImagePrompts w)
  end.

(** The call that [stage] makes. *)
Definition is_stage_call (stage : Stage) (c : Call) : bool :=
  match stage, c with
  | AnalyzeStory, call_analyzeStoryInputs
  | GenerateScript, call_generateStory
  | AnalyzeCharacters, call_analyzeCharacterDescriptions
  | GenerateCohesivePrompts, call_generateCohesiveImagePrompts _ => true
  | _, _ => false
  end.

Definition is_image_call (c : Call) : bool :=
  match c with
  | call_generateImage _ _ _ _ _ => true
  | _ => false
  end.

Definition is_rewrite_call (c : Call) : bool :=
  match c with
  | call_generateHS3000Dialogue _ => true
  | _ => false
  end.

(** The characters a run analysed. *)
Definition charactersOf (w : World) : list AnalyzedCharacter :=
  match analyzeCharacterDescriptions (w_analyzeCharacterDescriptions w) with
  | Ok characters => characters
  | Throw _ => []
  end.

(** The number of calls of a run that satisfy [p]. *)
Definition count_calls (p : Call → bool) (r : Run) : nat := length (List.filter p (calls r)).

(** The style, the characters to portray and the character images
    available to the scene loop in the run of [w] from [s]. *)
Definition styleOf (s : AppState) : string := finalStyleOf (textFiles s) (stylePrompt s).

Definition charactersToPortray (w : World) (s : AppState) : list AnalyzedCharacter :=
  charactersToGenerate (characterImages s) (charactersOf w).

Definition availableImages (w : World) (s : AppState) : JsObject.t NamedImage :=
  allAvailableCharacterImages (characterImages s)
    (store_portraits w (styleOf s) [] 0 (charactersToPortray w s)).

(** The message the service layer throws when a fatal stage is answered
    with no text. *)
Definition no_answer (stage : Stage) : string :=
  match stage with
  | AnalyzeStory => "The model did not return an analysis."
  | GenerateScript => "The model did not return a script."
  | AnalyzeCharacters => "The model did not return any character analysis."
  | GenerateCohesivePrompts => "The model did not return cohesive prompts."
  end.

(** ** Example runs *)

(** Two action lines around one line of dialogue: both are associated with
    the block at index 1. *)
Definition shared_line_script : Script :=
  {| source_file := None; title := "Shared line";
     scene_elements :=
       [ action (Some "A looks up.");
         dialogue_block "a" [ {| part_type := dialogue; part_content := "Who is there?" |} ];
         action (Some "Nobody answers.") ] |}.

Definition image_at (sceneIndex : nat) : GeneratedImage :=
  {| gi_sceneIndex := sceneIndex; gi_imageUrl := "data:image/png;base64,IMG";
     gi_base64 := "IMG"; gi_prompt := "A medium shot." |}.

(** Three action lines. *)
Definition three_scene_script : Script :=
  {| source_file := None; title := "Three scenes";
     scene_elements :=
       [ action (Some "A door opens."); action (Some "A cat walks in.");
         action (Some "The cat sits.") ] |}.

Definition prompt_for (sceneIndex : nat) : CohesivePrompt :=
  {| cp_sceneIndex := sceneIndex; cp_prompt := "A medium shot."; cp_characters := [] |}.

(** An image answer with one candidate that carries [data]. *)
Definition image_of (data : string) : RawImage :=
  ImageResponse [ {| cand_content := Parts [Some data]; cand_blocked := false |} ].

Definition zed : AnalyzedCharacter :=
  {| ac_name := "Zed"; ac_gender := "male"; ac_race := None;
     ac_voiceDescription := None; ac_otherDescriptors := None |}.

(** A character whose lowercased name is a property that every object
    inherits. *)
Definition constructor_character : AnalyzedCharacter :=
  {| ac_name := "Constructor"; ac_gender := "unknown"; ac_race := None;
     ac_voiceDescription := None; ac_otherDescriptors := None |}.

(** A world in which every service answers: the script, the characters and
    the prompts are given, every image request succeeds, and the dialogue
    rewrite returns [lines]. *)
Definition world_of (script : Raw Script) (characters : list AnalyzedCharacter)
    (prompts : Raw (option (list CohesivePrompt)))
    (image : nat → RawImage) (lines : Raw (option (list Hs3000Line))) : World :=
  {| w_now := "2026-01-01T00:00:00.000Z";
     w_stringify := λ _, "[]";
     w_analyzeStoryInputs := RawEmpty;
     w_generateStory := script;
     w_analyzeCharacterDescriptions := RawJson (Some characters);
     w_generateCohesiveImagePrompts := prompts;
     w_image := λ k _ _, image k;
     w_generateHS3000Dialogue := lines |}.

(** The state before a run started from a story prompt alone. *)
Definition prompt_only_state : AppState :=
  {| isGenerating := false; statusMessage := EmptyString; error := None;
     scriptData := None; stylePrompt := EmptyString;
     storyPrompt := "A cat takes over the ship.";
     generatedImages := []; characterImages := [];
     generatedCharacterPortraits := []; textFiles := [];
     generationReport := EmptyString; generationComplete := false;
     isReadyForDownload := false; hs3000Lines := [] |}.

(** Script generation fails. *)
Definition world_script_fails : World :=
  world_of (RawThrows "network down") [] (RawJson (Some [])) (λ _, image_of "IMG")
           (RawJson (Some [])).

(** Script generation is refused for the credentials. *)
Definition world_script_denied : World :=
  world_of (RawThrows "403 PERMISSION_DENIED") [] (RawJson (Some []))
           (λ _, image_of "IMG") (RawJson (Some [])).

(** One portrait is generated, then the cohesive-prompt stage fails. *)
Definition world_prompts_fail : World :=
  world_of (RawJson three_scene_script) [zed] (RawThrows "quota exceeded")
           (λ _, image_of "PORTRAIT") (RawJson (Some [])).

(** Three scenes; the second image request fails. *)
Definition world_middle_scene_fails : World :=
  world_of (RawJson three_scene_script) []
           (RawJson (Some [prompt_for 0; prompt_for 1; prompt_for 2]))
           (λ k, match k with
                 | 0 => image_of "IMG0"
                 | 1 => ImageThrows "model overloaded"
                 | _ => image_of "IMG2"
                 end)
           (RawJson (Some [])).

(** The prompt service answers with the scenes out of order. *)
Definition world_prompts_unordered : World :=
  world_of (RawJson three_scene_script) []
           (RawJson (Some [prompt_for 2; prompt_for 0]))
           (λ k, match k with 0 => image_of "IMG-A" | _ => image_of "IMG-B" end)
           (RawJson (Some [])).

(** The portrait request and the dialogue rewrite are both refused for the
    credentials; the scene image is generated. *)
Definition world_items_denied : World :=
  world_of (RawJson example_script) [zed] (RawJson (Some [prompt_for 0]))
           (λ k, match k with
                 | 0 => ImageThrows "PERMISSION_DENIED"
                 | _ => image_of "IMG"
                 end)
           (RawThrows "PERMISSION_DENIED").

(** The dialogue rewrite answers with an empty list of lines. *)
Definition world_no_lines : World :=
  world_of (RawJson example_script) [] (RawJson (Some [prompt_for 0]))
           (λ _, image_of "IMG") (RawJson (Some [])).

(** The dialogue rewrite answers with two lines for one input. *)
Definition world_two_lines : World :=
  world_of (RawJson example_script) [] (RawJson (Some [prompt_for 0]))
           (λ _, image_of "IMG")
           (RawJson (Some [ {| hl_character := "A"; hl_dialogue := "Hello." |};
                            {| hl_character := "A"; hl_dialogue := "There." |} ])).

(** The dialogue rewrite is unavailable. *)
Definition world_rewrite_down : World :=
  world_of (RawJson example_script) [] (RawJson (Some [prompt_for 0]))
           (λ _, image_of "IMG") (RawThrows "503 Service Unavailable").

(** Scenes 0 and 2 of the shared-line script are both generated. *)
Definition world_shared_line : World :=
  world_of (RawJson shared_line_script) []
           (RawJson (Some [prompt_for 0; prompt_for 2]))
           (λ _, image_of "IMG") (RawJson (Some [])).

(** The character analysis returns Zed and Constructor. *)
Definition world_constructor : World :=
  world_of (RawJson three_scene_script) [zed; constructor_character]
           (RawJson (Some [prompt_for 0])) (λ _, image_of "IMG") (RawJson (Some [])).

(** * The code around the orchestrator

    The text helpers, the upload naming rules, the download, the views and
    the state of the presentation player. *)

(** ** More JavaScript string primitives *)

Module JsText.

(** The first segment of [s] and the segments after it. *)
Fixpoint segments (sep : ascii) (s : string) : string * list string :=
  match s with
  | EmptyString => (EmptyString, [])
  | String c s' =>
      let '(seg, segs) := segments sep s' in
      if Ascii.eqb c sep then (EmptyString, seg :: segs) else (String c seg, segs)
  end.

(** [s.split(sep)] for a separator of one character. *)
Definition split (sep : ascii) (s : string) : list string :=
  let '(seg, segs) := segments sep s in seg :: segs.

Fixpoint repeat_char (n : nat) (c : ascii) : string :=
  match n with
  | 0 => EmptyString
  | S n' => String c (repeat_char n' c)
  end.

(** [s.padStart(targetLength, pad)] for a pad of one character. *)
Definition padStart (targetLength : nat) (pad : ascii) (s : string) : string :=
  repeat_char (targetLength - String.length s) pad +:+ s.

(** A value in a template literal: an absent one reads [undefined]. *)
Definition template (o : option string) : string := default "undefined" o.

(** [list.includes(x)]. *)
Definition mem (x : string) (l : list string) : bool := existsb (String.eqb x) l.

Fixpoint all_chars (p : ascii → bool) (s : string) : bool :=
  match s with
  | EmptyString => true
  | String c s' => p c && all_chars p s'
  end.

Definition is_alnum (c : ascii) : bool :=
  Js.is_lower c || Js.is_upper c || Js.is_digit c.

(** [s.replace(/[^a-z0-9]/gi, '_')]. *)
Definition replace_non_alnum (s : string) : string :=
  Js.map_chars (λ c, if is_alnum c then c else "_"%char) s.

(** [t] matches [[^/.]+$]: it is not empty and has neither a slash nor a
    dot. *)
Definition is_extension (t : string) : bool :=
  Js.truthy t &&
  all_chars (λ c, negb (Ascii.eqb c "/"%char || Ascii.eqb c "."%char)) t.

(** [s.replace(/\.[^/.]+$/, EMPTY)]: the leftmost match runs to the end
    of the string, so what is left is the text before it. *)
Fixpoint strip_extension (s : string) : string :=
  match s with
  | EmptyString => EmptyString
  | String c s' =>
      if Ascii.eqb c "."%char && is_extension s' then EmptyString
      else String c (strip_extension s')
  end.

Definition tab : string := String (Ascii.ascii_of_nat 9) EmptyString.

End JsText.

(** ** Upload naming rules ([handleFilesUpload], App.tsx)

    The reads of the files are outside the model; what is embedded is how
    the handler names and sorts what it read. *)

Module Upload.

Definition imageExtensions : list string := ["png"; "jpg"; "jpeg"; "webp"; "gif"; "bmp"].
Definition textExtensions : list string := ["txt"; "json"; "md"].

(** [lowerName.split('.').pop() || EMPTY]. *)
Definition extension (lowerName : string) : string :=
  Js.or_else (last (JsText.split "."%char lowerName)) EmptyString.

(** The branch taken for a zip entry, or for a file that is not itself a
    zip archive, with that extension. *)
Inductive Kind : Type := Image | Text | Ignored.

Definition kind (extension : string) : Kind :=
  if JsText.mem extension imageExtensions then Image
  else if JsText.mem extension textExtensions then Text
  else Ignored.

(** The key of an uploaded image file:
    [file.name.replace(/\.[^/.]+$/, EMPTY).toLowerCase()]. *)
Definition charName (name : string) : string :=
  Js.toLowerCase (JsText.strip_extension name).

(** The key of an image inside a zip archive: the same, on the last
    segment of the path of the entry. *)
Definition entryCharName (entryName : string) : string :=
  charName (default EmptyString (last (JsText.split "/"%char entryName))).

End Upload.

(** ** The download ([generateHs3000Content], [scriptToText],
    [handleDownloadZip] and the effect that starts it, App.tsx) *)

(** [lines.map(line => `${line.character} "${line.dialogue}"`).join('\n')]. *)
Definition generateHs3000Content (lines : list Hs3000Line) : string :=
  Js.join Js.nl
    ((λ line, hl_character line +:+ " " +:+ Js.dq +:+ hl_dialogue line +:+ Js.dq) <$> lines).

(** The body of [forEach] in [scriptToText]: [text] after the element. *)
Definition appendElement (text : string) (el : SceneElement) : string :=
  match el with
  | scene_heading content | action content | transition content =>
      text +:+ JsText.template content +:+ Js.nl +:+ Js.nl
  | dialogue_block character elements =>
      foldl (λ text diag,
               text +:+
               match part_type diag with
               | parenthetical => JsText.tab +:+ "(" +:+ part_content diag +:+ ")" +:+ Js.nl
               | dialogue => JsText.tab +:+ part_content diag +:+ Js.nl
               end)
            (text +:+ JsText.tab +:+ Js.toUpperCase character +:+ Js.nl) elements
      +:+ Js.nl
  end.

Definition scriptToText (script : option Script) : string :=
  match script with
  | None => EmptyString
  | Some script =>
      foldl appendElement ("Title: " +:+ title script +:+ Js.nl +:+ Js.nl)
            (scene_elements script)
  end.

(** [title.replace(/[^a-z0-9]/gi, '_').toLowerCase()]. *)
Definition safeTitle (title : string) : string :=
  Js.toLowerCase (JsText.replace_non_alnum title).

(** [name.replace(/[^a-z0-9]/gi, '_').toLowerCase()]. *)
Definition safeName (name : string) : string :=
  Js.toLowerCase (JsText.replace_non_alnum name).

(** [`scene_${String(sceneIndex).padStart(4, '0')}`]. *)
Definition sceneFileStem (sceneIndex : nat) : string :=
  "scene_" +:+ JsText.padStart 4 "0"%char (Js.of_nat sceneIndex).

(** The archive under construction (JSZip): the entries by full path.
    [file] adds an entry or replaces the one with that path; [folder] adds
    the directory if it is not there and gives the root of what is filed
    under it.  Data filed as base64 may be absent. *)
Module Zip.

Inductive Data : Type :=
| Text (content : string)
| Base64 (data : option string)
| Folder.

Abbreviation t := (JsObject.t Data).

Definition file (root : string) (zip : t) (name : string) (data : Data) : t :=
  JsObject.set zip (root +:+ name) data.

Definition folder (root : string) (zip : t) (name : string) : t * string :=
  let path := root +:+ name +:+ "/" in
  (match JsObject.get zip path with
   | Some _ => zip
   | None => JsObject.set zip path Folder
   end, path).

End Zip.

(** What the download reads from outside the state: the clock, the JSON
    rendering of the script and the outcome of packing the archive (the
    blob, or the message of the error). *)
Record DownloadWorld : Type := {
  dw_fullYear : nat;
  dw_month : nat;
  dw_date : nat;
  dw_hours : nat;
  dw_minutes : nat;
  dw_stringify : Script → string;
  dw_generateAsync : Zip.t → Result string;
}.

(** The link that is clicked: its [download] name, the archive that was
    packed and the blob behind its [href]. *)
Record Download : Type := {
  dl_download : string;
  dl_archive : Zip.t;
  dl_blob : string;
}.

Definition pad2 (n : nat) : string := JsText.padStart 2 "0"%char (Js.of_nat n).

Definition timeStr (dw : DownloadWorld) : string :=
  Js.of_nat (dw_fullYear dw) +:+ pad2 (dw_month dw + 1) +:+ pad2 (dw_date dw)
  +:+ "_" +:+ pad2 (dw_hours dw) +:+ pad2 (dw_minutes dw).

Definition hs3000Filename (dw : DownloadWorld) (title : string) : string :=
  "0hs3000_" +:+ safeTitle title +:+ "_" +:+ timeStr dw +:+ ".txt".

(** The body of [for (let i = 0; i < generatedImages.length; i++)]. *)
Definition fileSceneImage (imageFolder : string) (hs3000Lines : list Hs3000Line)
    (zip : Zip.t) (iimg : nat * GeneratedImage) : Zip.t :=
  let '(i, img) := iimg in
  let fileName := sceneFileStem (gi_sceneIndex img) +:+ ".png" in
  let txtFileName := sceneFileStem (gi_sceneIndex img) +:+ ".txt" in
  let dialogueText :=
    match hs3000Lines !! i with
    | Some diag => hl_character diag +:+ ": " +:+ hl_dialogue diag
    | None => EmptyString
    end in
  let fileContent :=
    if Js.truthy dialogueText
    then gi_prompt img +:+ Js.nl +:+ Js.nl +:+ dialogueText
    else gi_prompt img in
  let zip :=
    Zip.file imageFolder zip fileName
             (Zip.Base64 (JsText.split ","%char (gi_imageUrl img) !! 1)) in
  Zip.file imageFolder zip txtFileName (Zip.Text fileContent).

(** The body of [for (const [name, image] of Object.entries(...))]. *)
Definition filePortrait (charFolder : string) (zip : Zip.t)
    (entry : string * GeneratedCharacterPortrait) : Zip.t :=
  let '(name, image) := entry in
  let zip :=
    Zip.file charFolder zip (safeName name +:+ ".png") (Zip.Base64 (Some (gp_base64 image))) in
  Zip.file charFolder zip (safeName name +:+ ".txt") (Zip.Text (gp_prompt image)).

(** The archive that [handleDownloadZip] builds from the state. *)
Definition buildZip (dw : DownloadWorld) (scriptData : Script) (s : AppState) : Zip.t :=
  let zip := Zip.file EmptyString [] "script.json" (Zip.Text (dw_stringify dw scriptData)) in
  let zip := Zip.file EmptyString zip "story.txt" (Zip.Text (scriptToText (Some scriptData))) in
  let zip := Zip.file EmptyString zip "generation_report.txt" (Zip.Text (generationReport s)) in
  let zip :=
    Zip.file EmptyString zip (hs3000Filename dw (title scriptData))
             (Zip.Text (generateHs3000Content (hs3000Lines s))) in
  let '(zip, imageFolder) := Zip.folder EmptyString zip "images" in
  let zip :=
    foldl (fileSceneImage imageFolder (hs3000Lines s)) zip (imap pair (generatedImages s)) in
  let '(zip, charFolder) := Zip.folder imageFolder zip "characters" in
  foldl (filePortrait charFolder) zip (JsObject.entries (generatedCharacterPortraits s)).

(** [handleDownloadZip]: the state afterwards, and the download when one
    was started. *)
Definition handleDownloadZip (dw : DownloadWorld) (s : AppState)
  : AppState * option Download :=
  match scriptData s with
  | None => (s, None)
  | Some script =>
      let s := setError None s in
      let zip := buildZip dw script s in
      match dw_generateAsync dw zip with
      | Ok blob =>
          (s, Some {| dl_download := safeTitle (title script) +:+ "_assets.zip";
                      dl_archive := zip; dl_blob := blob |})
      | Throw errorMessage =>
          (setError (Some ("Failed to create zip file: " +:+ errorMessage)) s, None)
      end
  end.

(** The effect on [generationComplete], [isReadyForDownload] and
    [handleDownloadZip]. *)
Definition downloadEffect (dw : DownloadWorld) (s : AppState) : AppState * option Download :=
  if generationComplete s && isReadyForDownload s
  then let '(s', started) := handleDownloadZip dw s in
       (setGenerationComplete false s', started)
  else (s, None).

(** ** The views ([renderContent], App.tsx) *)

Inductive View : Type := Processing | Results | InitialForm.

Definition renderContent (s : AppState) : View :=
  if isGenerating s then Processing
  else match scriptData s with
       | Some _ => Results
       | None => InitialForm
       end.

(** ** The state of the presentation player *)

Module Player.

Record State : Type := mkState {
  currentIndex : nat;
  currentImage : option string;
  isPlaying : bool;
  currentMusicIndex : nat;
}.

Definition setCurrentIndex (v : nat) (s : State) : State :=
  mkState v (currentImage s) (isPlaying s) (currentMusicIndex s).
Definition setCurrentImage (v : option string) (s : State) : State :=
  mkState (currentIndex s) v (isPlaying s) (currentMusicIndex s).
Definition setIsPlaying (v : bool) (s : State) : State :=
  mkState (currentIndex s) (currentImage s) v (currentMusicIndex s).
Definition setCurrentMusicIndex (v : nat) (s : State) : State :=
  mkState (currentIndex s) (currentImage s) (isPlaying s) v.

(** The values of [useState] at the first render. *)
Definition initial : State := mkState 0 None true 0.

(** [item.imageUrl] when ['imageUrl' in item]. *)
Definition imageUrlOf (item : StoryboardItem) : option string :=
  match pi_media (sb_item item) with
  | ImageUrl imageUrl => Some imageUrl
  | AudioBlob _ => None
  end.

(** The effect that shows the first image. *)
Definition firstImageEffect (items : list StoryboardItem) (s : State) : State :=
  match List.find (λ item, bool_decide (is_Some (imageUrlOf item))) items with
  | Some firstImage => setCurrentImage (imageUrlOf firstImage) s
  | None => s
  end.

(** The playback effect: at the end it stops; while playing it shows the
    image of the current item.  (What it schedules, the timer of an image
    slide or the audio of an audio slide, comes back as [Advance].) *)
Definition playbackEffect (items : list StoryboardItem) (s : State) : State :=
  if negb (isPlaying s) || (length items <=? currentIndex s)
  then if length items <=? currentIndex s then setIsPlaying false s else s
  else match currentItem items (currentIndex s) with
       | Some item =>
           match imageUrlOf item with
           | Some imageUrl => setCurrentImage (Some imageUrl) s
           | None => s
           end
       | None => s
       end.

(** [goToPrev]: [setCurrentIndex(prev => Math.max(prev - 1, 0))]. *)
Definition goToPrev (currentIndex : nat) : nat := Nat.max (currentIndex - 1) 0.

(** [playNextMusicTrack]. *)
Definition playNextMusicTrack (backgroundMusic : list string) (prevIndex : nat) : nat :=
  if 0 <? length backgroundMusic
  then (prevIndex + 1) mod length backgroundMusic
  else prevIndex.

(** [togglePlayPause]. *)
Definition togglePlayPause (items : list StoryboardItem) (s : State) : State :=
  let newIsPlaying := negb (isPlaying s) in
  let s :=
    if newIsPlaying && (length items <=? currentIndex s)
    then setCurrentIndex 0 s else s in
  setIsPlaying newIsPlaying s.

(** What happens to a mounted player: a slide ends (its timer fires or
    its audio ends) or a button is pressed, or a music track ends. *)
Inductive Event : Type := Advance | PressNext | PressPrev | PressToggle | MusicEnded.

(** The first render followed by its effects. *)
Definition mount (items : list StoryboardItem) : State :=
  playbackEffect items (firstImageEffect items initial).

(** The handler of an event followed by the effect it triggers. *)
Definition step (items : list StoryboardItem) (backgroundMusic : list string)
    (s : State) (e : Event) : State :=
  match e with
  | Advance | PressNext =>
      playbackEffect items (setCurrentIndex (goToNext items (currentIndex s)) s)
  | PressPrev =>
      playbackEffect items (setCurrentIndex (goToPrev (currentIndex s)) s)
  | PressToggle => playbackEffect items (togglePlayPause items s)
  | MusicEnded =>
      setCurrentMusicIndex (playNextMusicTrack backgroundMusic (currentMusicIndex s)) s
  end.

(** [displayText] and [characterText] of the item on screen. *)
Definition texts (currentItem : option StoryboardItem) : string * string :=
  match currentItem with
  | Some item =>
      match sb_sceneElement item with
      | Some (action content) => (Js.or_else content EmptyString, EmptyString)
      | Some (dialogue_block character elements) =>
          (Js.or_else (spoken_text elements) EmptyString, Js.toUpperCase character)
      | _ => (EmptyString, EmptyString)
      end
  | None => (EmptyString, EmptyString)
  end.

End Player.

(** ** Vocabulary of the properties of this part *)

(** The text that one element adds in [scriptToText]. *)
Definition elementText (el : SceneElement) : string := appendElement EmptyString el.

(** A generated image as the scene loop makes it: a data URL of its
    non-empty base64 text. *)
Definition data_url_image (img : GeneratedImage) : Prop :=
  gi_imageUrl img = "data:image/png;base64," +:+ gi_base64 img ∧
  gi_base64 img ≠ EmptyString.

(** No comma in [s]. *)
Definition comma_free (s : string) : bool :=
  JsText.all_chars (λ c, negb (Ascii.eqb c ","%char)) s.

(** No line feed in [s]. *)
Definition single_line (s : string) : bool :=
  JsText.all_chars (λ c, negb (Ascii.eqb c (Ascii.ascii_of_nat 10))) s.

(** The image that the latest image slide among the first [k + 1] items
    shows, and before any, the first image slide of the whole list. *)
Definition image_on_screen (items : list StoryboardItem) (k : nat) : option string :=
  match last (omap Player.imageUrlOf (take (S k) items)) with
  | Some imageUrl => Some imageUrl
  | None => head (omap Player.imageUrlOf items)
  end.

(** The number that a decimal numeral denotes. *)
Definition numeral_value (s : string) : option nat :=
  Nat.of_uint <$> NilEmpty.uint_of_string s.

(** The script of a run, when its generation is reached and succeeds. *)
Definition scriptOf (w : World) (textFiles : list TextFile) : option Script :=
  match storyElementsOf w textFiles with
  | Ok _ =>
      match generateStory (w_generateStory w) with
      | Ok script => Some script
      | Throw _ => None
      end
  | Throw _ => None
  end.

(** The text that the service layer puts in front of the message of a
    failed call of a fatal stage. *)
Definition stage_details (stage : Stage) : string :=
  match stage with
  | AnalyzeStory =>
      "Could not analyze uploaded files. The model may have returned an invalid response or the content was insufficient. Details: "
  | GenerateScript => "Failed to generate script. Details: "
  | AnalyzeCharacters => "Could not analyze character descriptions. Details: "
  | GenerateCohesivePrompts => "Failed to generate cohesive image prompts. Details: "
  end.

(** A download world for the examples. *)
Definition world_download : DownloadWorld :=
  {| dw_fullYear := 2026; dw_month := 0; dw_date := 1; dw_hours := 9; dw_minutes := 5;
     dw_stringify := λ _, "{}"; dw_generateAsync := λ _, Ok "blob" |}.

(** [m] keeps the invariant [I] of the state and the trace. *)
Definition preserves {T} (I : AppState → list Call → Prop) (m : M T) : Prop :=
  ∀ r, I (st r) (calls r) → I (st (m r).2) (calls (m r).2).

(** A portrait as the portrait loop makes it for one of [characters]. *)
Definition portrait_of (characters : list AnalyzedCharacter) (name : string)
    (portrait : GeneratedCharacterPortrait) : Prop :=
  gp_mimeType portrait = "image/png" ∧
  gp_base64 portrait ≠ EmptyString ∧
  ∃ char, char ∈ characters ∧ ac_name char = name.

(** A portrait request as the portrait loop issues it for one of
    [characters]: no reference image of any kind. *)
Definition portrait_request_of (characters : list AnalyzedCharacter) (c : Call) : Prop :=
  match c with
  | call_generateImage PortraitSite prompt characterImages previous _ =>
      characterImages = None ∧ previous = None ∧
      ∃ char, char ∈ characters ∧ prompt = portrait_prompt char
  | _ => True
  end.

(** The assets of a run are sound: every generated image is a data URL of
    its non-empty base64 text, every generated portrait and every portrait
    request belongs to one of [characters]. *)
Definition sound_assets (characters : list AnalyzedCharacter)
    (s : AppState) (cs : list Call) : Prop :=
  Forall data_url_image (generatedImages s) ∧
  (∀ name portrait,
     JsObject.get (generatedCharacterPortraits s) name = Some portrait →
     portrait_of characters name portrait) ∧
  Forall (portrait_request_of characters) cs.

(** Two image slides around an audio slide, for the script of three scenes. *)
Definition example_items : list StoryboardItem :=
  storyboardItems
    [ {| pi_sceneIndex := 2; pi_media := ImageUrl "data:image/png;base64,TWO" |};
      {| pi_sceneIndex := 0; pi_media := ImageUrl "data:image/png;base64,ZERO" |};
      {| pi_sceneIndex := 1; pi_media := AudioBlob "voice" |} ]
    three_scene_script.

(* ==================================================================== *)
(** * Properties *)

Example levenshtein_kitten_sitting : levenshteinDistance "kitten" "sitting" = 3.
Proof. vm_compute. reflexivity. Qed.

(** ** The recurrence [lev] is the minimal number of edits *)

Section LevenshteinFacts.
Context {A : Type} `{EqDecision A}.
Implicit Types a b c : list A.

Lemma lev_nil_l b : lev [] b = length b.
Proof. by destruct b. Qed.

Lemma lev_nil_r a : lev a [] = length a.
Proof. by destruct a. Qed.

Lemma lev_cons x a y b :
  lev (x :: a) (y :: b) =
  min3 (lev a (y :: b) + 1) (lev (x :: a) b + 1) (lev a b + subst_cost x y).
Proof. reflexivity. Qed.

Lemma subst_cost_le (x y : A) : subst_cost x y ≤ 1.
Proof. unfold subst_cost. case_decide; lia. Qed.

Lemma subst_cost_refl (x : A) : subst_cost x x = 0.
Proof. unfold subst_cost. by case_decide. Qed.

Lemma lev_refl a : lev a a = 0.
Proof.
  induction a as [|x a IH]; [done|].
  rewrite lev_cons, IH, subst_cost_refl. unfold min3. lia.
Qed.

Lemma lev_insert_r a x b : lev a (x :: b) ≤ lev a b + 1.
Proof.
  destruct a as [|y a]; [rewrite !lev_nil_l; simpl; lia|].
  rewrite lev_cons. unfold min3. lia.
Qed.

Lemma lev_insert_l x a b : lev (x :: a) b ≤ lev a b + 1.
Proof.
  destruct b as [|y b]; [rewrite !lev_nil_r; simpl; lia|].
  rewrite lev_cons. unfold min3. lia.
Qed.

Lemma lev_delete_r a x b : lev a b ≤ lev a (x :: b) + 1.
Proof.
  induction a as [|y a IH]; [rewrite !lev_nil_l; simpl; lia|].
  rewrite lev_cons. unfold min3.
  pose proof (lev_insert_l y a b). pose proof (subst_cost_le y x). lia.
Qed.

Lemma lev_substitute_r a x y b : lev a (y :: b) ≤ lev a (x :: b) + 1.
Proof.
  induction a as [|z a IH]; [rewrite !lev_nil_l; simpl; lia|].
  rewrite !lev_cons. unfold min3.
  pose proof (subst_cost_le z y). lia.
Qed.

(** A bound between two right arguments survives a common head. *)
Lemma lev_cons_mono b c z k :
  (∀ a, lev a c ≤ lev a b + k) → ∀ a, lev a (z :: c) ≤ lev a (z :: b) + k.
Proof.
  intros Hbc a. induction a as [|y a IH].
  - rewrite !lev_nil_l. specialize (Hbc []). rewrite !lev_nil_l in Hbc. simpl. lia.
  - rewrite !lev_cons. unfold min3.
    pose proof (Hbc (y :: a)). pose proof (Hbc a). lia.
Qed.

Lemma lev_app_mono l b c k :
  (∀ a, lev a c ≤ lev a b + k) → ∀ a, lev a (l ++ c) ≤ lev a (l ++ b) + k.
Proof. intros Hbc. induction l as [|z l IH]; [done|]. simpl. by apply lev_cons_mono. Qed.

(** One edit of the target moves the distance by at most one. *)
Lemma lev_edit1 b c : edit1 b c → ∀ a, lev a c ≤ lev a b + 1.
Proof.
  destruct 1 as [l1 x l2|l1 x l2|l1 x y l2]; apply lev_app_mono; intros a.
  - apply lev_insert_r.
  - apply lev_delete_r.
  - apply lev_substitute_r.
Qed.

(** No sequence of edits is shorter than [lev]. *)
Lemma lev_lower_bound n a b : edits n a b → lev a b ≤ n.
Proof.
  induction 1 as [a|n a b c _ IH Hbc]; [by rewrite lev_refl|].
  pose proof (lev_edit1 _ _ Hbc a). lia.
Qed.

Lemma edit1_cons x a b : edit1 a b → edit1 (x :: a) (x :: b).
Proof.
  destruct 1 as [l1 y l2|l1 y l2|l1 y z l2].
  - apply (edit1_insert (x :: l1)).
  - apply (edit1_delete (x :: l1)).
  - apply (edit1_substitute (x :: l1)).
Qed.

Lemma edits_cons x n a b : edits n a b → edits n (x :: a) (x :: b).
Proof. induction 1; econstructor; eauto using edit1_cons. Qed.

Lemma edits_trans n m a b c : edits n a b → edits m b c → edits (m + n) a c.
Proof. intros Hab. induction 1; simpl; [done|]. econstructor; eauto. Qed.

Lemma edits_one a b : edit1 a b → edits 1 a b.
Proof. intros. econstructor; [constructor|done]. Qed.

Lemma edits_weaken n m a b : n = m → edits n a b → edits m a b.
Proof. by intros ->. Qed.

Lemma edits_from_nil b : edits (length b) [] b.
Proof.
  induction b as [|y b IH]; [constructor|]. simpl.
  eapply edits_step; [exact IH|]. apply (edit1_insert []).
Qed.

Lemma edits_to_nil a : edits (length a) a [].
Proof.
  induction a as [|x a IH]; [constructor|]. simpl.
  eapply (edits_weaken (length a + 1)); [lia|].
  eapply edits_trans; [|exact IH]. apply edits_one, (edit1_delete []).
Qed.

(** [lev a b] edits do transform [a] into [b]. *)
Lemma lev_realised a b : edits (lev a b) a b.
Proof.
  revert b. induction a as [|x a IHa]; intros b.
  { rewrite lev_nil_l. apply edits_from_nil. }
  induction b as [|y b IHb].
  { rewrite lev_nil_r. apply edits_to_nil. }
  rewrite lev_cons. unfold min3.
  destruct (Nat.min_spec (lev a (y :: b) + 1) (lev (x :: a) b + 1)) as [[_ ->]|[_ ->]];
    match goal with |- context [Nat.min ?u ?v] =>
      destruct (Nat.min_spec u v) as [[_ ->]|[_ ->]] end.
  - eapply edits_trans; [|apply IHa]. apply edits_one, (edit1_delete []).
  - unfold subst_cost. case_decide as Hxy.
    + subst y. rewrite Nat.add_0_r. apply edits_cons, IHa.
    + eapply (edits_weaken (1 + lev a b)); [lia|].
      eapply edits_trans; [apply edits_cons, IHa|].
      apply edits_one, (edit1_substitute []).
  - eapply (edits_weaken (1 + lev (x :: a) b)); [lia|].
    eapply edits_trans; [apply IHb|]. apply edits_one, (edit1_insert []).
  - unfold subst_cost. case_decide as Hxy.
    + subst y. rewrite Nat.add_0_r. apply edits_cons, IHa.
    + eapply (edits_weaken (1 + lev a b)); [lia|].
      eapply edits_trans; [apply edits_cons, IHa|].
      apply edits_one, (edit1_substitute []).
Qed.

Lemma edit1_sym a b : edit1 a b → edit1 b a.
Proof. destruct 1; constructor. Qed.

Lemma edits_sym n a b : edits n a b → edits n b a.
Proof.
  induction 1 as [a|n a b c _ IH Hbc]; [constructor|].
  eapply (edits_weaken (n + 1)); [lia|].
  eapply edits_trans; [|exact IH]. by apply edits_one, edit1_sym.
Qed.

Lemma edit1_reverse a b : edit1 a b → edit1 (reverse a) (reverse b).
Proof.
  destruct 1 as [l1 x l2|l1 x l2|l1 x y l2];
    rewrite ?reverse_app, ?reverse_cons, <-?(assoc_L (++)); simpl; constructor.
Qed.

Lemma edits_reverse n a b : edits n a b → edits n (reverse a) (reverse b).
Proof. induction 1; econstructor; eauto using edit1_reverse. Qed.

Lemma lev_sym a b : lev a b = lev b a.
Proof.
  apply Nat.le_antisymm; apply lev_lower_bound, edits_sym, lev_realised.
Qed.

Lemma lev_triangle a b c : lev a c ≤ lev a b + lev b c.
Proof.
  apply lev_lower_bound. rewrite Nat.add_comm.
  eapply edits_trans; apply lev_realised.
Qed.

Lemma lev_reverse a b : lev (reverse a) (reverse b) = lev a b.
Proof.
  apply Nat.le_antisymm.
  - apply lev_lower_bound, edits_reverse, lev_realised.
  - rewrite <-(reverse_involutive a), <-(reverse_involutive b) at 1.
    apply lev_lower_bound, edits_reverse, lev_realised.
Qed.

End LevenshteinFacts.

(** ** The table of [levenshteinDistance] computes the recurrence *)

Lemma foldl_seq_invariant {St : Type} (P : nat → St → Prop) (f : St → nat → St) len :
  ∀ start s,
    P start s →
    (∀ k s', start ≤ k < start + len → P k s' → P (k + 1) (f s' k)) →
    P (start + len) (foldl f s (seq start len)).
Proof.
  induction len as [|len IH]; intros start s Hs Hstep; simpl.
  - by rewrite Nat.add_0_r.
  - replace (start + S len) with (S start + len) by lia.
    apply IH.
    + replace (S start) with (start + 1) by lia. apply Hstep; [lia|done].
    + intros k s' Hk. apply Hstep. lia.
Qed.

Section LevenshteinTable.
Context {A : Type} `{EqDecision A}.
Variables a b : list A.

Lemma prefix_lev_0_l j : j ≤ length b → prefix_lev a b 0 j = j.
Proof.
  intros Hj. unfold prefix_lev. rewrite take_0, reverse_nil, lev_nil_l, length_reverse.
  by apply length_take_le.
Qed.

Lemma prefix_lev_0_r i : i ≤ length a → prefix_lev a b i 0 = i.
Proof.
  intros Hi. unfold prefix_lev. rewrite take_0, reverse_nil, lev_nil_r, length_reverse.
  by apply length_take_le.
Qed.

Lemma prefix_lev_S i j x y :
  a !! i = Some x → b !! j = Some y →
  prefix_lev a b (S i) (S j) =
  min3 (prefix_lev a b i (S j) + 1) (prefix_lev a b (S i) j + 1)
       (prefix_lev a b i j + subst_cost x y).
Proof.
  intros Hx Hy. unfold prefix_lev.
  rewrite (take_S_r a i x Hx), (take_S_r b j y Hy), !reverse_snoc.
  apply lev_cons.
Qed.

Lemma prefix_lev_full : prefix_lev a b (length a) (length b) = lev a b.
Proof. unfold prefix_lev. rewrite !take_ge by lia. apply lev_reverse. Qed.

Lemma new_matrix_shape : table_shape a b (new_matrix (length b + 1) (length a + 1)).
Proof.
  split.
  - unfold new_matrix. rewrite length_replicate. lia.
  - intros j row [-> _]%lookup_replicate. rewrite length_replicate. lia.
Qed.

Lemma set_cell_shape m j i v : table_shape a b m → table_shape a b (set_cell m j i v).
Proof.
  intros [Hlen Hrows]. split; unfold set_cell.
  - by rewrite length_alter.
  - intros j' row. rewrite list_lookup_alter. case_decide as Hj.
    + intros (row' & Hrow & ->)%fmap_Some. rewrite length_insert. eauto.
    + eauto.
Qed.

Lemma cell_set_cell m j i v j' i' :
  table_shape a b m → j ≤ length b → i ≤ length a →
  cell (set_cell m j i v) j' i' =
  if decide (j' = j ∧ i' = i) then Some v else cell m j' i'.
Proof.
  intros [Hlen Hrows] Hj Hi. unfold cell, set_cell.
  rewrite list_lookup_alter.
  destruct (decide (j = j')) as [<-|Hne]; [|by rewrite decide_False by (intros [? _]; congruence)].
  destruct (lookup_lt_is_Some_2 m j) as [row Hrow]; [lia|].
  rewrite Hrow. simpl. pose proof (Hrows _ _ Hrow) as Hrowlen.
  destruct (decide (i' = i)) as [->|Hi'].
  - rewrite decide_True by done. by rewrite list_lookup_insert_eq by lia.
  - rewrite decide_False by (intros [_ ?]; congruence). by rewrite list_lookup_insert_ne.
Qed.

(** Writing the right value into one more cell extends the invariant. *)
Lemma table_inv_set (known known' : nat → nat → Prop) m j i v :
  table_inv a b known m → j ≤ length b → i ≤ length a →
  v = prefix_lev a b i j →
  (∀ j' i', known' j' i' → known j' i' ∨ (j' = j ∧ i' = i)) →
  table_inv a b known' (set_cell m j i v).
Proof.
  intros [Hshape Hcells] Hj Hi -> Hknown. split; [by apply set_cell_shape|].
  intros j' i' Hj' Hi' Hk. rewrite cell_set_cell by done.
  case_decide as Heq; [by destruct Heq as [-> ->]|].
  destruct (Hknown _ _ Hk); [by apply Hcells|done].
Qed.

Lemma fill_first_row_inv :
  table_inv a b (λ j i, j = 0)
    (fill_first_row (length a) (new_matrix (length b + 1) (length a + 1))).
Proof.
  unfold fill_first_row.
  pose (P := λ (k : nat) m, table_inv a b (λ j i, j = 0 ∧ i < k) m).
  assert (P (0 + S (length a))
            (foldl (λ m i, set_cell m 0 i i)
                   (new_matrix (length b + 1) (length a + 1)) (seq 0 (S (length a)))))
    as [Hshape Hcells].
  { apply foldl_seq_invariant; unfold P.
    - split; [apply new_matrix_shape|]. intros ?? _ _ [_ ?]. lia.
    - intros k m Hk Hinv. eapply table_inv_set; [exact Hinv|lia|lia| |].
      + rewrite prefix_lev_0_r; [done|lia].
      + intros j' i' [-> Hi']. destruct (decide (i' = k)); [by right|left; split; [done|lia]]. }
  split; [done|]. intros j i Hj Hi ->. apply Hcells; [done..|]. split; [done|lia].
Qed.

Lemma fill_first_col_inv :
  table_inv a b (λ j i, j = 0 ∨ i = 0)
    (fill_first_col (length b)
       (fill_first_row (length a) (new_matrix (length b + 1) (length a + 1)))).
Proof.
  unfold fill_first_col.
  pose (P := λ (k : nat) m, table_inv a b (λ j i, j = 0 ∨ (i = 0 ∧ j < k)) m).
  match goal with |- table_inv a b _ ?t =>
    assert (P (0 + S (length b)) t) as [Hshape Hcells] end.
  { apply foldl_seq_invariant; unfold P.
    - destruct fill_first_row_inv as [Hshape Hcells]. split; [done|].
      intros j i Hj Hi [->|[_ ?]]; [by apply Hcells|lia].
    - intros k m Hk Hinv. eapply table_inv_set; [exact Hinv|lia|lia| |].
      + rewrite prefix_lev_0_l; [done|lia].
      + intros j' i' [->|[-> Hj']]; [by left; left|].
        destruct (decide (j' = k)); [by right|left; right; split; [done|lia]]. }
  split; [done|]. intros j i Hj Hi [-> | ->]; apply Hcells; try done; [by left|].
  right. split; [done|lia].
Qed.

(** One iteration of the inner loop. *)
Lemma fill_cell_inv m j i :
  1 ≤ j ≤ length b → 1 ≤ i ≤ length a →
  table_inv a b (λ j' i', j' < j ∨ i' = 0 ∨ (j' = j ∧ i' < i)) m →
  table_inv a b (λ j' i', j' < j ∨ i' = 0 ∨ (j' = j ∧ i' < i + 1)) (fill_cell a b j m i).
Proof.
  intros Hj Hi Hinv. unfold fill_cell.
  eapply table_inv_set; [exact Hinv|lia|lia| |].
  - destruct Hinv as [_ Hcells].
    rewrite !Hcells by (try lia; auto with lia). simpl.
    destruct i as [|i']; [lia|]. destruct j as [|j']; [lia|].
    replace (S i' - 1) with i' by lia. replace (S j' - 1) with j' by lia.
    destruct (lookup_lt_is_Some_2 a i') as [x Hx]; [lia|].
    destruct (lookup_lt_is_Some_2 b j') as [y Hy]; [lia|].
    rewrite (prefix_lev_S _ _ x y Hx Hy), Hx, Hy.
    do 2 f_equal. unfold subst_cost.
    destruct (decide (x = y)) as [->|Hne]; [by rewrite decide_True|].
    rewrite decide_False; [done|]. by intros [= ?].
  - intros j' i' [?|[?|[-> ?]]]; [by left; left|by left; right; left|].
    destruct (decide (i' = i)); [by right|left; right; right; split; [done|lia]].
Qed.

Lemma fill_row_inv m j :
  1 ≤ j ≤ length b →
  table_inv a b (λ j' i', j' < j ∨ i' = 0) m →
  table_inv a b (λ j' i', j' < j + 1 ∨ i' = 0) (fill_row a b m j).
Proof.
  intros Hj [Hshape Hcells]. unfold fill_row.
  pose (P := λ (i : nat) m, table_inv a b (λ j' i', j' < j ∨ i' = 0 ∨ (j' = j ∧ i' < i)) m).
  assert (P (1 + length a) (foldl (fill_cell a b j) m (seq 1 (length a))))
    as [Hshape' Hcells'].
  { apply foldl_seq_invariant; unfold P.
    - split; [done|]. intros j' i' Hj' Hi' [?|[?|[_ ?]]]; apply Hcells; auto with lia.
    - intros i m' Hi Hinv. apply fill_cell_inv; [done|lia|done]. }
  split; [done|]. intros j' i' Hj' Hi' [?|?]; apply Hcells'; try done; [|by right; left].
  destruct (decide (j' = j)); [right; right; split; [done|lia]|left; lia].
Qed.

Lemma levenshtein_table_inv :
  table_inv a b (λ _ _, True) (levenshtein_table a b).
Proof.
  unfold levenshtein_table, fill_table.
  pose (P := λ (j : nat) m, table_inv a b (λ j' i', j' < j ∨ i' = 0) m).
  match goal with |- table_inv a b _ ?t =>
    assert (P (1 + length b) t) as [Hshape Hcells] end.
  { apply foldl_seq_invariant; unfold P.
    - destruct fill_first_col_inv as [Hshape Hcells]. split; [done|].
      intros j' i' Hj' Hi' [?|?]; apply Hcells; try done; [left; lia|by right].
    - intros j m Hj Hinv. apply fill_row_inv; [lia|done]. }
  split; [done|]. intros j i Hj Hi _. apply Hcells; [done..|]. left; lia.
Qed.

(** The value returned by the table is the recurrence on the whole strings. *)
Lemma levenshtein_units_lev : levenshtein_units a b = lev a b.
Proof.
  unfold levenshtein_units.
  case_decide as Ha.
  { apply nil_length_inv in Ha. rewrite Ha. by rewrite lev_nil_l. }
  case_decide as Hb.
  { apply nil_length_inv in Hb. rewrite Hb. by rewrite lev_nil_r. }
  destruct levenshtein_table_inv as [_ Hcells].
  rewrite Hcells by done. simpl. apply prefix_lev_full.
Qed.

End LevenshteinTable.

(** ** Edit distance of strings *)

Lemma levenshteinDistance_lev a b : levenshteinDistance a b = lev (chars a) (chars b).
Proof. apply levenshtein_units_lev. Qed.

(** C7: [levenshteinDistance a b] is the minimum number of single-character
    insertions, deletions and substitutions that transform [a] into [b]:
    that many edits do it and no sequence of edits is shorter.  The distance
    is symmetric, zero from a string to itself, obeys the triangle
    inequality, and is 3 between kitten and sitting. *)
Theorem levenshteinDistance_minimal_edits (a b : string) :
  edits (levenshteinDistance a b) (chars a) (chars b) ∧
  (∀ n, edits n (chars a) (chars b) → levenshteinDistance a b ≤ n) ∧
  levenshteinDistance a b = levenshteinDistance b a ∧
  levenshteinDistance a a = 0 ∧
  (∀ c, levenshteinDistance a c ≤ levenshteinDistance a b + levenshteinDistance b c) ∧
  levenshteinDistance "kitten" "sitting" = 3.
Proof.
  rewrite !levenshteinDistance_lev.
  split; [|split; [|split; [|split; [|split]]]].
  - apply lev_realised.
  - intros n. apply lev_lower_bound.
  - apply lev_sym.
  - apply lev_refl.
  - intros c. rewrite !levenshteinDistance_lev. apply lev_triangle.
  - vm_compute. reflexivity.
Qed.

(** Three edits turn kitten into sitting, so the distance is at most 3. *)
Lemma levenshteinDistance_minimal_edits_witness :
  levenshteinDistance "kitten" "sitting" ≤ 3.
Proof.
  apply (proj1 (proj2 (levenshteinDistance_minimal_edits "kitten" "sitting"))).
  eapply edits_step; [eapply edits_step; [eapply edits_step; [apply edits_done|]|]|].
  - apply (edit1_substitute [] "k"%char "s"%char (chars "itten")).
  - apply (edit1_substitute (chars "sitt") "e"%char "i"%char (chars "n")).
  - apply (edit1_insert (chars "sittin") "g"%char []).
Defined.

(** ** The presentation player *)

Lemma sort_insert_Permutation x l : sort_insert x l ≡ₚ x :: l.
Proof.
  induction l as [|y l IH]; simpl; [done|].
  case_match; [|done]. rewrite IH. apply Permutation_swap.
Qed.

Lemma sort_by_sceneIndex_Permutation l : sort_by_sceneIndex l ≡ₚ l.
Proof.
  induction l as [|x l IH]; simpl; [done|].
  rewrite sort_insert_Permutation. by rewrite IH.
Qed.

Lemma sort_insert_StronglySorted x l :
  StronglySorted by_sceneIndex l → StronglySorted by_sceneIndex (sort_insert x l).
Proof.
  induction 1 as [|y l Hl IH Hy]; simpl; [repeat constructor|].
  destruct (sb_sceneIndex y <? sb_sceneIndex x) eqn:Hlt.
  - apply Nat.ltb_lt in Hlt. constructor; [done|].
    rewrite sort_insert_Permutation. constructor; [unfold by_sceneIndex; lia|done].
  - apply Nat.ltb_ge in Hlt. constructor; [by constructor|].
    constructor; [done|].
    eapply Forall_impl; [exact Hy|]. unfold by_sceneIndex. intros; simpl in *; lia.
Qed.

Lemma sort_by_sceneIndex_StronglySorted l :
  StronglySorted by_sceneIndex (sort_by_sceneIndex l).
Proof.
  induction l as [|x l IH]; simpl; [constructor|]. by apply sort_insert_StronglySorted.
Qed.

(** The sort is stable: items of one scene keep their order. *)
Lemma sort_insert_stable k x l :
  StronglySorted by_sceneIndex l →
  List.filter (λ y, sb_sceneIndex y =? k) (sort_insert x l) =
  List.filter (λ y, sb_sceneIndex y =? k) (x :: l).
Proof.
  induction 1 as [|y l Hl IH Hy]; [done|]. cbn [sort_insert].
  destruct (sb_sceneIndex y <? sb_sceneIndex x) eqn:Hlt; [|done].
  apply Nat.ltb_lt in Hlt. cbn [List.filter] in *. rewrite IH.
  destruct (sb_sceneIndex y =? k) eqn:Hyk, (sb_sceneIndex x =? k) eqn:Hxk; try done.
  apply Nat.eqb_eq in Hyk, Hxk. lia.
Qed.

Lemma sort_by_sceneIndex_stable k l :
  List.filter (λ y, sb_sceneIndex y =? k) (sort_by_sceneIndex l) =
  List.filter (λ y, sb_sceneIndex y =? k) l.
Proof.
  induction l as [|x l IH]; [done|]. cbn [sort_by_sceneIndex foldr].
  rewrite sort_insert_stable by apply sort_by_sceneIndex_StronglySorted.
  cbn [List.filter]. fold (sort_by_sceneIndex l). by rewrite IH.
Qed.

Lemma playback_from items : ∀ k,
  playback items k (length items - k) = drop k items.
Proof.
  intros k. remember (length items - k) as n eqn:Hn.
  revert k Hn. induction n as [|n IH]; intros k Hn; simpl.
  - by rewrite drop_ge by lia.
  - unfold currentItem, goToNext.
    destruct (lookup_lt_is_Some_2 items k) as [x Hx]; [lia|].
    rewrite Hx. rewrite (drop_S _ _ _ Hx). f_equal.
    replace (Nat.min (k + 1) (length items)) with (S k) by lia.
    apply IH. lia.
Qed.

(** C10: the player's [storyboardItems] is a permutation of the items it is
    given, in ascending order of [sceneIndex], each paired with the script
    element at its index; playing from the start shows the items in that
    order, and the order of the scene indices does not depend on the order
    in which the items were supplied. *)
Theorem storyboardItems_sorted_permutation
    (initialItems : list PlayerItem) (script : Script) :
  let items := storyboardItems initialItems script in
  sb_item <$> items ≡ₚ initialItems ∧
  StronglySorted by_sceneIndex items ∧
  (∀ x, x ∈ items → sb_sceneElement x = scene_elements script !! sb_sceneIndex x) ∧
  playback items 0 (length items) = items ∧
  (∀ supplied, supplied ≡ₚ initialItems →
     sb_sceneIndex <$> storyboardItems supplied script = sb_sceneIndex <$> items).
Proof.
  cbn zeta. unfold storyboardItems.
  set (pairing := λ item, {| sb_item := item;
                             sb_sceneElement := scene_elements script !! pi_sceneIndex item |}).
  repeat split.
  - rewrite sort_by_sceneIndex_Permutation, <-list_fmap_compose.
    by rewrite (list_fmap_ext (sb_item ∘ pairing) id initialItems), list_fmap_id.
  - apply sort_by_sceneIndex_StronglySorted.
  - intros x Hx. rewrite sort_by_sceneIndex_Permutation in Hx.
    apply list_elem_of_fmap in Hx as (item & -> & _). done.
  - pose proof (playback_from (sort_by_sceneIndex (pairing <$> initialItems)) 0) as Hp.
    by rewrite Nat.sub_0_r in Hp.
  - intros supplied Hperm.
    apply (StronglySorted_unique le).
    + apply (StronglySorted_fmap sb_sceneIndex by_sceneIndex le); [done|].
      apply sort_by_sceneIndex_StronglySorted.
    + apply (StronglySorted_fmap sb_sceneIndex by_sceneIndex le); [done|].
      apply sort_by_sceneIndex_StronglySorted.
    + by rewrite !sort_by_sceneIndex_Permutation, Hperm.
Qed.

(** Two items of scenes 2 and 0, supplied in that order, are played as
    scene 0 and then scene 2. *)
Lemma storyboardItems_sorted_permutation_witness :
  sb_sceneIndex <$>
    storyboardItems [ {| pi_sceneIndex := 0; pi_media := ImageUrl "b" |};
                      {| pi_sceneIndex := 2; pi_media := ImageUrl "a" |} ]
                    {| source_file := None; title := "t"; scene_elements := [] |}
  = [0; 2].
Proof.
  rewrite (proj2 (proj2 (proj2 (proj2
            (storyboardItems_sorted_permutation
               [ {| pi_sceneIndex := 2; pi_media := ImageUrl "a" |};
                 {| pi_sceneIndex := 0; pi_media := ImageUrl "b" |} ]
               {| source_file := None; title := "t"; scene_elements := [] |}))))).
  - reflexivity.
  - apply Permutation_swap.
Defined.

(** ** Dialogue association *)

Lemma find_Some_split {T} (p : T → bool) (l : list T) x :
  List.find p l = Some x ↔
  ∃ before after, l = before ++ x :: after ∧ Forall (λ y, p y = false) before ∧ p x = true.
Proof.
  induction l as [|y l IH]; simpl.
  - split; [done|]. intros ([|??] & ? & ? & _); done.
  - destruct (p y) eqn:Hy.
    + split.
      * intros [= ->]. by exists [], l.
      * intros ([|z before] & after & Heq & Hall & Hx); simplify_eq/=; [done|].
        apply Forall_cons in Hall as [? _]. congruence.
    + rewrite IH. split.
      * intros (before & after & -> & ? & ?). exists (y :: before), after.
        split_and!; [done|by constructor|done].
      * intros ([|z before] & after & Heq & Hall & Hx); simplify_eq/=; [congruence|].
        apply Forall_cons in Hall as [_ ?]. eauto.
Qed.

Lemma find_None_Forall {T} (p : T → bool) (l : list T) :
  List.find p l = None ↔ Forall (λ y, p y = false) l.
Proof.
  induction l as [|y l IH]; simpl; [by split|].
  destruct (p y) eqn:Hy.
  - split; [done|]. intros [? _]%Forall_cons. congruence.
  - rewrite IH. split; [by constructor|by intros [_ ?]%Forall_cons].
Qed.

Lemma utters_functional el c1 t1 c2 t2 :
  utters el c1 t1 → utters el c2 t2 → c1 = c2 ∧ t1 = t2.
Proof.
  intros (els1 & b1 & p1 & a1 & -> & -> & Hb1 & Hp1 & <- & _)
         (els2 & b2 & p2 & a2 & [= <- <-] & Heq & Hb2 & Hp2 & <- & _).
  split; [done|].
  assert (List.find (λ e, bool_decide (part_type e = dialogue)) (b1 ++ p1 :: a1) = Some p1)
    as H1.
  { apply find_Some_split. exists b1, a1. split_and!; [done| |by apply bool_decide_eq_true].
    eapply Forall_impl; [exact Hb1|]. intros. by apply bool_decide_eq_false. }
  assert (List.find (λ e, bool_decide (part_type e = dialogue)) (b1 ++ p1 :: a1) = Some p2)
    as H2.
  { apply find_Some_split. exists b2, a2. split_and!; [done| |by apply bool_decide_eq_true].
    eapply Forall_impl; [exact Hb2|]. intros. by apply bool_decide_eq_false. }
  congruence.
Qed.

Lemma truthy_nonempty s : Js.truthy s = true ↔ s ≠ EmptyString.
Proof. destruct s; simpl; split; done. Qed.

(** What [examine] decides, in the terms above. *)
Lemma examine_Break el j : examine el j = Break ↔ is_heading el.
Proof.
  unfold is_heading. destruct el; simpl; try (split; [done|by intros [??]]).
  - split; eauto.
  - repeat case_match; split; try done; by intros [??].
Qed.

Lemma examine_Return el j d : examine el j = Return d ↔ matches_at el j d.
Proof.
  unfold matches_at. split.
  - destruct el as [| | |character elements]; simpl; try done.
    unfold spoken_text. destruct (List.find _ elements) as [part|] eqn:Hfind; simpl; [|done].
    destruct (Js.truthy (part_content part)) eqn:Htruthy; [|done].
    intros [= <-]. exists character, (part_content part). split; [|done].
    apply find_Some_split in Hfind as (before & after & -> & Hbefore & Hpart).
    exists (before ++ part :: after), before, part, after.
    split_and!; try done.
    + eapply Forall_impl; [exact Hbefore|]. intros ?. by apply bool_decide_eq_false.
    + by apply bool_decide_eq_true in Hpart.
    + by apply truthy_nonempty.
  - intros (character & text & (elements & before & part & after & -> & -> & Hb & Hp & <- & Hne) & ->).
    simpl. unfold spoken_text.
    assert (List.find (λ e, bool_decide (part_type e = dialogue)) (before ++ part :: after)
            = Some part) as ->.
    { apply find_Some_split. exists before, after.
      split_and!; [done| |by apply bool_decide_eq_true].
      eapply Forall_impl; [exact Hb|]. intros. by apply bool_decide_eq_false. }
    simpl. by rewrite (proj2 (truthy_nonempty _) Hne).
Qed.

Lemma examine_Continue el j : examine el j = Continue ↔ passed el.
Proof.
  unfold passed. split.
  - intros Hc. split.
    + intros Hh%(examine_Break _ j). congruence.
    + intros character text Hu.
      assert (examine el j = Return {| dm_character := Js.toUpperCase character;
                                       dm_dialogue := text; dm_elementIndex := j |}) as Hr.
      { apply examine_Return. by exists character, text. }
      congruence.
  - intros [Hnh Hnu]. destruct (examine el j) as [|d|] eqn:He; [| |done].
    + by apply examine_Break in He.
    + apply examine_Return in He as (c & t & Hu & _). by destruct (Hnu c t).
Qed.

(** The first stop of a scan is unique. *)
Lemma passed_not_match el j d : passed el → matches_at el j d → False.
Proof. intros [_ Hnu] (c & t & Hu & _). by apply (Hnu c t). Qed.

Lemma passed_not_heading el : passed el → is_heading el → False.
Proof. by intros [Hnh _]. Qed.

Lemma matches_at_functional el j d1 d2 : matches_at el j d1 → matches_at el j d2 → d1 = d2.
Proof.
  intros (c1 & t1 & Hu1 & ->) (c2 & t2 & Hu2 & ->).
  by destruct (utters_functional _ _ _ _ _ Hu1 Hu2) as [-> ->].
Qed.

Lemma match_not_heading el j d : matches_at el j d → is_heading el → False.
Proof. intros (c & t & (? & ? & ? & ? & -> & _) & _) [? [=]]. Qed.

(** The forward loop. *)
Lemma scan_forward_spec script i : ∀ els j,
  i < j → drop j (scene_elements script) = els →
  (∀ k, i < k < j → passed_at script k) →
  match scan_forward els j with
  | Some d => forward_match script i d
  | None => forward_none script i
  end.
Proof.
  intros els. induction els as [|el els IH]; intros j Hij Hdrop Hpassed; simpl.
  - exists j. split_and!; [done| |done]. left.
    apply lookup_ge_None. apply drop_nil_inv in Hdrop. lia.
  - assert (scene_elements script !! j = Some el) as Hj.
    { rewrite <-(Nat.add_0_r j), <-lookup_drop, Hdrop. done. }
    destruct (examine el j) as [|d|] eqn:He.
    + apply examine_Break in He. exists j. split_and!; [done| |done]. right. eauto.
    + apply examine_Return in He. exists j, el. by split_and!.
    + apply examine_Continue in He. apply IH; [lia| |].
      * rewrite (drop_S _ _ _ Hj) in Hdrop. congruence.
      * intros k Hk. destruct (decide (k = j)) as [->|]; [by exists el|]. apply Hpassed. lia.
Qed.

(** The backward loop, inside the script. *)
Lemma scan_backward_spec script i : ∀ n,
  n ≤ i → n ≤ length (scene_elements script) →
  (∀ k, n ≤ k < i → passed_at script k) →
  ∃ r, scan_backward (scene_elements script) n = Ok r ∧
       match r with
       | Some d => backward_match script i d
       | None => backward_none script i
       end.
Proof.
  induction n as [|j IH]; intros Hn Hlen Hpassed; simpl.
  - exists None. split; [done|]. left. intros k Hk. apply Hpassed. lia.
  - destruct (lookup_lt_is_Some_2 (scene_elements script) j) as [el Hj]; [lia|].
    rewrite Hj. destruct (examine el j) as [|d|] eqn:He.
    + apply examine_Break in He. exists None. split; [done|]. right.
      exists j, el. split_and!; [lia|done|done|]. intros k Hk. apply Hpassed. lia.
    + apply examine_Return in He. exists (Some d). split; [done|].
      exists j, el. split_and!; [lia|done|done|]. intros k Hk. apply Hpassed. lia.
    + apply examine_Continue in He. apply IH; [lia|lia|].
      intros k Hk. destruct (decide (k = j)) as [->|]; [by exists el|]. apply Hpassed. lia.
Qed.

(** The outcomes of a scan exclude one another. *)
Lemma forward_first_stop script i j1 j2 :
  (∀ k, i < k < j1 → passed_at script k) →
  (∀ k, i < k < j2 → passed_at script k) →
  i < j1 → i < j2 → ¬ passed_at script j1 → ¬ passed_at script j2 → j1 = j2.
Proof.
  intros H1 H2 ?? Hn1 Hn2.
  destruct (Nat.lt_trichotomy j1 j2) as [?|[?|?]]; [|done|].
  - destruct Hn1. apply H2. lia.
  - destruct Hn2. apply H1. lia.
Qed.

Lemma backward_first_stop script i j1 j2 :
  (∀ k, j1 < k < i → passed_at script k) →
  (∀ k, j2 < k < i → passed_at script k) →
  j1 < i → j2 < i → ¬ passed_at script j1 → ¬ passed_at script j2 → j1 = j2.
Proof.
  intros H1 H2 ?? Hn1 Hn2.
  destruct (Nat.lt_trichotomy j1 j2) as [?|[?|?]]; [|done|].
  - destruct Hn2. apply H1. lia.
  - destruct Hn1. apply H2. lia.
Qed.

Lemma match_not_passed script j el d :
  scene_elements script !! j = Some el → matches_at el j d → ¬ passed_at script j.
Proof. intros Hj Hm (el' & Hj' & Hp). simplify_eq. eauto using passed_not_match. Qed.

Lemma heading_not_passed script j el :
  scene_elements script !! j = Some el → is_heading el → ¬ passed_at script j.
Proof. intros Hj Hh (el' & Hj' & Hp). simplify_eq. eauto using passed_not_heading. Qed.

Lemma end_not_passed script j :
  scene_elements script !! j = None → ¬ passed_at script j.
Proof. intros Hj (el' & Hj' & Hp). congruence. Qed.

Lemma forward_match_functional script i d1 d2 :
  forward_match script i d1 → forward_match script i d2 → d1 = d2.
Proof.
  intros (j1 & el1 & ? & Hj1 & Hm1 & Hp1) (j2 & el2 & ? & Hj2 & Hm2 & Hp2).
  assert (j1 = j2) as ->
    by eauto using forward_first_stop, match_not_passed.
  simplify_eq. eauto using matches_at_functional.
Qed.

Lemma forward_match_none script i d :
  forward_match script i d → forward_none script i → False.
Proof.
  intros (j1 & el1 & ? & Hj1 & Hm1 & Hp1) (j2 & ? & Hstop & Hp2).
  assert (j1 = j2) as ->.
  { eapply forward_first_stop; eauto using match_not_passed.
    destruct Hstop as [?|(? & ? & ?)]; eauto using end_not_passed, heading_not_passed. }
  destruct Hstop as [?|(el2 & ? & ?)]; simplify_eq. eauto using match_not_heading.
Qed.

Lemma backward_match_functional script i d1 d2 :
  backward_match script i d1 → backward_match script i d2 → d1 = d2.
Proof.
  intros (j1 & el1 & ? & Hj1 & Hm1 & Hp1) (j2 & el2 & ? & Hj2 & Hm2 & Hp2).
  assert (j1 = j2) as ->
    by eauto using backward_first_stop, match_not_passed.
  simplify_eq. eauto using matches_at_functional.
Qed.

Lemma backward_match_none script i d :
  backward_match script i d → backward_none script i → False.
Proof.
  intros (j1 & el1 & ? & Hj1 & Hm1 & Hp1) [Hall|(j2 & el2 & ? & Hj2 & Hh & Hp2)].
  - eapply match_not_passed; eauto.
  - assert (j1 = j2) as ->
      by eauto using backward_first_stop, match_not_passed, heading_not_passed.
    simplify_eq. eauto using match_not_heading.
Qed.

(** C4 (amended): for the index [i] of an action element,
    [getDialogueForScene] returns without error; it returns the association
    [d] exactly when the forward scan from [i + 1] meets, before any scene
    heading, a first dialogue block whose first dialogue part has non-empty
    text ([d] holds the uppercased character, that text and the position of
    the block), or when the forward scan ends without a match and the
    backward scan from [i - 1] meets such a block before any scene heading;
    it returns no association exactly when both scans end without a match.
    A block without a dialogue part, or whose first dialogue part is empty,
    is passed over.  In the example script, scene 0 is associated with A's
    line at index 1 and scene 3 with nothing. *)
Theorem getDialogueForScene_spec (script : Script) (i : nat) (content : option string) :
  scene_elements script !! i = Some (action content) →
  (∃ r, getDialogueForScene i script = Ok r) ∧
  (∀ d, getDialogueForScene i script = Ok (Some d) ↔
        forward_match script i d ∨ (forward_none script i ∧ backward_match script i d)) ∧
  (getDialogueForScene i script = Ok None ↔
        forward_none script i ∧ backward_none script i) ∧
  getDialogueForScene 0 example_script =
    Ok (Some {| dm_character := "A"; dm_dialogue := "Hello there."; dm_elementIndex := 1 |}) ∧
  getDialogueForScene 3 example_script = Ok None.
Proof.
  intros Hi. apply lookup_lt_Some in Hi as Hlen.
  pose proof (scan_forward_spec script i (drop (S i) (scene_elements script)) (S i)) as Hf.
  destruct (scan_backward_spec script i i) as (rb & Hb & Hrb); [lia|lia|lia|].
  unfold getDialogueForScene. rewrite Hb.
  destruct (scan_forward _ _) as [df|] eqn:Hscan.
  - assert (forward_match script i df) as Hfm by (apply Hf; [lia|done|lia]).
    split_and!; [eauto| | |done..].
    + intros d. split.
      * intros [= <-]. by left.
      * intros [Hd|[Hn _]]; [|by destruct (forward_match_none _ _ _ Hfm Hn)].
        by rewrite (forward_match_functional _ _ _ _ Hfm Hd).
    + split; [done|]. intros [Hn _]. by destruct (forward_match_none _ _ _ Hfm Hn).
  - assert (forward_none script i) as Hfn by (apply Hf; [lia|done|lia]).
    split_and!; [eauto| | |done..].
    + intros d. split.
      * intros [= ->]. by right.
      * intros [Hd|[_ Hd]]; [by destruct (forward_match_none _ _ _ Hd Hfn)|].
        destruct rb as [d'|]; [|by destruct (backward_match_none _ _ _ Hd Hrb)].
        by rewrite (backward_match_functional _ _ _ _ Hrb Hd).
    + split.
      * intros [= ->]. done.
      * intros [_ Hn]. destruct rb as [d'|]; [|done].
        by destruct (backward_match_none _ _ _ Hrb Hn).
Qed.

(** Scene 0 of the example script is an action element. *)
Lemma getDialogueForScene_spec_witness :
  ∃ r, getDialogueForScene 0 example_script = Ok r.
Proof.
  apply (proj1 (getDialogueForScene_spec example_script 0 (Some "A enters.") eq_refl)).
Defined.

Lemma getDialogueForScene_empty_line_counterexample :
  scene_elements empty_line_script !! 1 =
    Some (dialogue_block "a" [ {| part_type := dialogue; part_content := EmptyString |} ]) ∧
  getDialogueForScene 0 empty_line_script ≠
    Ok (Some {| dm_character := "A"; dm_dialogue := EmptyString; dm_elementIndex := 1 |}) ∧
  getDialogueForScene 0 empty_line_script =
    Ok (Some {| dm_character := "B"; dm_dialogue := "Well?"; dm_elementIndex := 2 |}).
Proof. split_and!; [reflexivity|by vm_compute|reflexivity]. Qed.

(** ** Duplicate flags *)

Lemma scan_backward_in_range els : ∀ n,
  n ≤ length els → ∃ r, scan_backward els n = Ok r.
Proof.
  induction n as [|j IH]; intros Hn; simpl; [eauto|].
  destruct (lookup_lt_is_Some_2 els j) as [el ->]; [lia|].
  destruct (examine el j); eauto with lia.
Qed.

Lemma getDialogueForScene_in_range script i :
  i ≤ length (scene_elements script) → ∃ r, getDialogueForScene i script = Ok r.
Proof.
  intros Hi. unfold getDialogueForScene.
  destruct (scan_forward _ _); [eauto|]. by apply scan_backward_in_range.
Qed.

Lemma associations_cons script img images :
  associations script (img :: images) =
  match association script img with
  | Some d => d :: associations script images
  | None => associations script images
  end.
Proof. reflexivity. Qed.

Lemma associateDialogue_run script : ∀ images loop seen,
  Forall (λ img, gi_sceneIndex img ≤ length (scene_elements script)) images →
  seenDialogueIndices loop = list_to_set seen →
  ∃ loop',
    associateDialogue script loop images = Ok loop' ∧
    dialogueInputs loop' =
      dialogueInputs loop ++
      imap (λ k d, flagged (seen ++ (dm_elementIndex <$> take k (associations script images))) d)
           (associations script images) ∧
    seenDialogueIndices loop' =
      list_to_set (seen ++ (dm_elementIndex <$> associations script images)).
Proof.
  induction images as [|img images IH]; intros loop seen Hvalid Hseen.
  - exists loop. simpl. by rewrite !app_nil_r.
  - apply Forall_cons in Hvalid as [Hi Hvalid]. cbn [associateDialogue].
    destruct (getDialogueForScene_in_range script (gi_sceneIndex img) Hi) as [r Hr].
    assert (association script img = r) as Hassoc
      by (unfold association; rewrite Hr; by destruct r).
    rewrite Hr, associations_cons, Hassoc. destruct r as [d|]; [|by apply IH].
    destruct (IH (dialogueIteration loop (Some d)) (seen ++ [dm_elementIndex d]) Hvalid)
      as (loop' & -> & Hinputs & Hseen').
    { simpl. rewrite Hseen, list_to_set_app_L. simpl. set_solver. }
    exists loop'. split; [done|]. split.
    + rewrite Hinputs. simpl. rewrite <-(assoc_L (++)). f_equal. simpl.
      unfold flagged at 2. rewrite app_nil_r, Hseen.
      f_equal; [f_equal; apply bool_decide_ext; set_solver|].
      apply imap_ext. intros k d' _. simpl. by rewrite <-(assoc_L (++)).
    + rewrite Hseen'. simpl. by rewrite <-(assoc_L (++)).
Qed.

Lemma associateDialogue_length script images :
  Forall (λ img, gi_sceneIndex img ≤ length (scene_elements script)) images →
  ∃ loop,
    associateDialogue script initial_dialogue_loop images = Ok loop ∧
    length (dialogueInputs loop) = length (associations script images).
Proof.
  intros Hvalid.
  destruct (associateDialogue_run script images initial_dialogue_loop [] Hvalid)
    as (loop & Hrun & Hinputs & _); [done|].
  exists loop. split; [done|]. simpl in Hinputs. by rewrite Hinputs, length_imap.
Qed.

(** The flags of the loop over the generated images. *)
Lemma associateDialogue_flags (script : Script) (images : list GeneratedImage) :
  Forall (λ img, gi_sceneIndex img ≤ length (scene_elements script)) images →
  ∃ loop,
    associateDialogue script initial_dialogue_loop images = Ok loop ∧
    let ds := associations script images in
    length (dialogueInputs loop) = length ds ∧
    (∀ k d, ds !! k = Some d →
       ∃ input, dialogueInputs loop !! k = Some input ∧
                di_character input = dm_character d ∧
                di_originalDialogue input = dm_dialogue d ∧
                (di_isDuplicate input = true ↔
                 ∃ k' d', k' < k ∧ ds !! k' = Some d' ∧
                          dm_elementIndex d' = dm_elementIndex d)) ∧
    (∀ n, n ∈ seenDialogueIndices loop ↔ ∃ k d, ds !! k = Some d ∧ dm_elementIndex d = n).
Proof.
  intros Hvalid.
  destruct (associateDialogue_run script images initial_dialogue_loop [] Hvalid)
    as (loop & Hrun & Hinputs & Hseen); [done|].
  exists loop. split; [done|]. cbn zeta. simpl in Hinputs, Hseen.
  split_and!.
  - by rewrite Hinputs, length_imap.
  - intros k d Hk. exists (flagged (dm_elementIndex <$> take k (associations script images)) d).
    split_and!; [|done..|].
    + rewrite Hinputs, list_lookup_imap, Hk. done.
    + simpl. rewrite bool_decide_eq_true, list_elem_of_fmap. split.
      * intros (d' & Heq & (k' & Hk')%list_elem_of_lookup).
        apply lookup_take_Some in Hk' as [Hk' ?]. eauto 6.
      * intros (k' & d' & ? & Hk' & Heq). exists d'. split; [done|].
        apply list_elem_of_lookup. exists k'. by rewrite lookup_take_lt.
  - intros n. rewrite Hseen, elem_of_list_to_set, list_elem_of_fmap. split.
    + intros (d & -> & (k & Hk)%list_elem_of_lookup). eauto.
    + intros (k & d & Hk & <-). exists d. split; [done|]. by eapply list_elem_of_lookup_2.
Qed.

(** ** Character reference resolution *)

Lemma lower_char_not_upper c : Js.is_upper (Js.lower_char c) = false.
Proof. by destruct c as [[] [] [] [] [] [] [] []]. Qed.

Lemma lower_char_alnum c :
  Js.is_lower (Js.lower_char c) || Js.is_digit (Js.lower_char c) =
  Js.is_lower c || Js.is_upper c || Js.is_digit c.
Proof. by destruct c as [[] [] [] [] [] [] [] []]. Qed.

(** The normalisation of the code is the one of the specification. *)
Lemma normalizeForMatch_spec name : normalizeForMatch name = normalize_spec name.
Proof.
  unfold normalizeForMatch, normalize_spec, Js.toLowerCase.
  induction name as [|c name IH]; [done|]. cbn [Js.map_chars Js.filter_chars].
  rewrite lower_char_alnum. case_match; cbn [Js.map_chars]; by rewrite IH.
Qed.

Lemma findBestMatch_snoc q keys key :
  findBestMatch q (keys ++ [key]) = best_step q (findBestMatch q keys) key.
Proof. unfold findBestMatch. by rewrite foldl_app. Qed.

(** The search loop ends on the first key of minimal distance. *)
Lemma findBestMatch_first_minimum q keys :
  keys ≠ [] →
  ∃ n key,
    first_minimum (key_distance q) keys n key ∧
    bestMatchKey (findBestMatch q keys) = Some key ∧
    minDistance (findBestMatch q keys) = Some (key_distance q key) ∧
    distancesComputed (findBestMatch q keys) = length keys.
Proof.
  induction keys as [|key keys IH] using rev_ind; [done|]. intros _.
  rewrite findBestMatch_snoc. unfold best_step.
  destruct (decide (keys = [])) as [->|Hne].
  { simpl. exists 0, key. split; [|done]. split; [done|]. split.
    - intros [|m] k' [=]. by subst.
    - intros m k' Hm. lia. }
  destruct (IH Hne) as (n & best & (Hn & Hmin & Hfirst) & -> & -> & ->).
  fold (key_distance q key). simpl.
  destruct (key_distance q key <? key_distance q best) eqn:Hlt; simpl.
  - apply Nat.ltb_lt in Hlt. exists (length keys), key.
    split; [|split; [done|split; [done|rewrite length_app; simpl; lia]]]. split_and!.
    + by rewrite lookup_app_r, Nat.sub_diag.
    + intros m k' Hm. apply lookup_app_Some in Hm as [Hm|[_ Hm]].
      * specialize (Hmin _ _ Hm). lia.
      * destruct (m - length keys); simplify_eq/=; lia.
    + intros m k' Hm Hk'. rewrite lookup_app_l in Hk' by done.
      specialize (Hmin _ _ Hk'). lia.
  - apply Nat.ltb_ge in Hlt. exists n, best.
    split; [|split; [done|split; [done|rewrite length_app; simpl; lia]]]. split_and!.
    + by apply lookup_app_l_Some.
    + intros m k' Hm. apply lookup_app_Some in Hm as [Hm|[_ Hm]]; [eauto|].
      destruct (m - length keys); simplify_eq/=; lia.
    + intros m k' Hm Hk'. apply lookup_lt_Some in Hn.
      rewrite lookup_app_l in Hk' by lia. eauto.
Qed.

Lemma first_minimum_unique f l n1 k1 n2 k2 :
  first_minimum f l n1 k1 → first_minimum f l n2 k2 → n1 = n2 ∧ k1 = k2.
Proof.
  intros (H1 & Hmin1 & Hfirst1) (H2 & Hmin2 & Hfirst2).
  assert (n1 = n2) as ->; [|split; congruence].
  destruct (Nat.lt_trichotomy n1 n2) as [?|[?|?]]; [|done|].
  - specialize (Hfirst2 _ _ H H1). specialize (Hmin1 _ _ H2). lia.
  - specialize (Hfirst1 _ _ H H2). specialize (Hmin2 _ _ H1). lia.
Qed.

(** The acceptance test on rationals, for a positive denominator. *)
Lemma ratio_below_half_rational d m :
  0 < m →
  ratio_below_half d m = true ↔
  (Qlt (Qmake (Z.of_nat d) (Pos.of_nat m)) (Qmake 1 2)).
Proof.
  intros Hm. unfold ratio_below_half, Qlt. simpl.
  rewrite Nat.ltb_lt. rewrite Z.mul_1_l.
  replace (Z.pos (Pos.of_nat m)) with (Z.of_nat m) by (destruct m; [lia|]; lia).
  lia.
Qed.

Lemma chars_length s : length (chars s) = String.length s.
Proof. induction s; simpl; by f_equal. Qed.

Lemma levenshteinDistance_empty_r q : levenshteinDistance q EmptyString = String.length q.
Proof. rewrite levenshteinDistance_lev. simpl. by rewrite lev_nil_r, chars_length. Qed.

(** An empty key is never accepted, whatever the truthiness test says. *)
Lemma empty_key_rejected q :
  ratio_below_half (key_distance q EmptyString)
    (Nat.max (String.length q) (String.length (normalizeForMatch EmptyString))) = false.
Proof.
  unfold key_distance. simpl. rewrite levenshteinDistance_empty_r.
  unfold ratio_below_half. apply Nat.ltb_ge. lia.
Qed.

(** C6: the query and every candidate key are normalised by the same
    function, which strips the characters that are not alphanumeric and
    lowercases; an empty candidate set or a query that normalises to the
    empty string is unresolved without any distance being computed;
    otherwise one distance is computed per candidate, the candidate selected
    is the first one of minimal edit distance to the normalised query, and
    it is accepted exactly when its distance divided by the larger of the
    two normalised lengths is below one half.  With the candidates jane and
    john, Jane resolves to jane and Xyzzy is unresolved. *)
Theorem resolveCharacter_spec (keys : list string) (charName : string) :
  let q := normalizeForMatch charName in
  (∀ name, normalizeForMatch name = normalize_spec name) ∧
  (q = EmptyString ∨ keys = [] →
     resolved (resolveCharacter keys charName) = None ∧
     res_distances (resolveCharacter keys charName) = 0) ∧
  (q ≠ EmptyString → keys ≠ [] →
     ∃ n key,
       first_minimum (key_distance q) keys n key ∧
       res_distances (resolveCharacter keys charName) = length keys ∧
       let d := key_distance q key in
       let longest := Nat.max (String.length q) (String.length (normalizeForMatch key)) in
       0 < longest ∧
       (Qlt (Qmake (Z.of_nat d) (Pos.of_nat longest)) (Qmake 1 2) →
          resolved (resolveCharacter keys charName) = Some (key, d)) ∧
       (¬ Qlt (Qmake (Z.of_nat d) (Pos.of_nat longest)) (Qmake 1 2) →
          resolved (resolveCharacter keys charName) = None)) ∧
  resolved (resolveCharacter ["jane"; "john"] "Jane") = Some ("jane", 0) ∧
  resolved (resolveCharacter ["jane"; "john"] "Xyzzy") = None.
Proof.
  cbn zeta. split_and!.
  - apply normalizeForMatch_spec.
  - intros Hshort. unfold resolveCharacter.
    destruct Hshort as [-> | ->]; [done|]. simpl. by rewrite orb_true_r.
  - intros Hq Hkeys. unfold resolveCharacter.
    apply truthy_nonempty in Hq as Htruthy. rewrite Htruthy. simpl.
    destruct keys as [|key0 keys']; [done|]. cbn [length Nat.eqb].
    destruct (findBestMatch_first_minimum (normalizeForMatch charName) (key0 :: keys') Hkeys)
      as (n & key & Hfirst & Hbest & Hmin & Hcount).
    exists n, key. cbn [resolved res_distances]. rewrite Hbest, Hmin, Hcount.
    assert (0 < Nat.max (String.length (normalizeForMatch charName))
                        (String.length (normalizeForMatch key))) as Hpos.
    { destruct (normalizeForMatch charName); [done|]. simpl. lia. }
    split_and!; [done..| |].
    + intros Hlt%ratio_below_half_rational; [|done]. rewrite Hlt.
      destruct key; [by rewrite empty_key_rejected in Hlt|done].
    + intros Hge. rewrite <-ratio_below_half_rational in Hge by done.
      apply not_true_is_false in Hge. rewrite Hge. by rewrite andb_false_r.
  - by vm_compute.
  - by vm_compute.
Qed.

(** The query Jane against jane and john: jane is at distance 0, ratio 0. *)
Lemma resolveCharacter_spec_witness :
  ∃ n key, first_minimum (key_distance "jane") ["jane"; "john"] n key.
Proof.
  destruct (proj1 (proj2 (proj2 (resolveCharacter_spec ["jane"; "john"] "Jane"))))
    as (n & key & Hfirst & _); [done|done|].
  exists n, key. exact Hfirst.
Defined.

(** ** Objects used as maps *)

Lemma get_set {V} (o : JsObject.t V) k v k' :
  JsObject.get (JsObject.set o k v) k' =
  if String.eqb k k' then Some v else JsObject.get o k'.
Proof.
  induction o as [|[k0 v0] o IH].
  - unfold JsObject.get. cbn. by destruct (String.eqb k k').
  - cbn [JsObject.set]. destruct (String.eqb k0 k) eqn:Hk0.
    + apply String.eqb_eq in Hk0 as ->. unfold JsObject.get. cbn.
      by destruct (String.eqb k k').
    + unfold JsObject.get in *. cbn [find fst]. destruct (String.eqb k0 k') eqn:Hk0'.
      * apply String.eqb_eq in Hk0' as ->. by rewrite String.eqb_sym, Hk0.
      * apply IH.
Qed.

Lemma get_set_eq {V} (o : JsObject.t V) k v : JsObject.get (JsObject.set o k v) k = Some v.
Proof. by rewrite get_set, String.eqb_refl. Qed.

Lemma get_set_ne {V} (o : JsObject.t V) k v k' :
  k ≠ k' → JsObject.get (JsObject.set o k v) k' = JsObject.get o k'.
Proof. intros Hne. rewrite get_set. by apply String.eqb_neq in Hne as ->. Qed.

(** ** Reasoning about runs *)

Local Open Scope run_scope.

#[local] Arguments Js.of_nat : simpl never.
#[local] Arguments Js.join : simpl never.
#[local] Arguments generateImage : simpl never.
#[local] Arguments resolveCharacters : simpl never.
#[local] Arguments image_report : simpl never.
#[local] Arguments portrait_prompt : simpl never.
#[local] Arguments type_error_undefined : simpl never.

Lemma wp_bind {T U} (m : M T) (k : T → M U) r Q :
  wp m r (λ res r', match res with
                    | Ok v => wp (k v) r' Q
                    | Throw msg => Q (Throw msg) r'
                    end) →
  wp (bind m k) r Q.
Proof. unfold wp, bind. by destruct (m r) as [[v|msg] r']. Qed.

Lemma wp_ret {T} (v : T) r (Q : Result T → Run → Prop) : Q (Ok v) r → wp (ret v) r Q.
Proof. done. Qed.

Lemma wp_lift {T} (res : Result T) r (Q : Result T → Run → Prop) :
  Q res r → wp (lift res) r Q.
Proof. done. Qed.

Lemma wp_update f r (Q : Result unit → Run → Prop) :
  Q (Ok tt) (mkRun (f (st r)) (report r) (calls r) (imageRequests r)) → wp (update f) r Q.
Proof. done. Qed.

Lemma wp_log c r (Q : Result unit → Run → Prop) :
  Q (Ok tt) (mkRun (st r) (report r) (calls r ++ [c]) (imageRequests r)) → wp (log c) r Q.
Proof. done. Qed.

Lemma wp_conseq {T} (m : M T) r (Q Q' : Result T → Run → Prop) :
  wp m r Q → (∀ res r', Q res r' → Q' res r') → wp m r Q'.
Proof. unfold wp. eauto. Qed.

Lemma report_only_append text : report_only (append_report text).
Proof. intros r. by eexists. Qed.

Lemma report_only_ret : report_only (ret tt).
Proof. intros [????]. by eexists. Qed.

Lemma report_only_seq m1 m2 : report_only m1 → report_only m2 → report_only (m1 >> m2).
Proof.
  intros H1 H2 r. unfold bind. destruct (H1 r) as [rep1 ->].
  destruct (H2 (with_report rep1 r)) as [rep2 ->]. by exists rep2.
Qed.

Lemma report_only_if (c : bool) m1 m2 :
  report_only m1 → report_only m2 → report_only (if c then m1 else m2).
Proof. by destruct c. Qed.

Create HintDb report_only.
#[local] Hint Resolve report_only_append report_only_ret report_only_seq report_only_if
  : report_only.

Lemma wp_report_only {U} m (k : M U) r Q :
  report_only m → (∀ rep, wp k (with_report rep r) Q) → wp (m >> k) r Q.
Proof.
  intros Hm Hk. unfold wp, bind. destruct (Hm r) as [rep ->]. apply Hk.
Qed.

Lemma imap_pair_snd {T} (l : list T) : (λ ix, ix.2) <$> imap pair l = l.
Proof.
  rewrite fmap_imap. unfold compose. simpl.
  generalize 0. induction l as [|x l IH]; intros n; [done|]. simpl. f_equal.
  rewrite <-(IH (S n)) at 2. by apply imap_ext.
Qed.

(** *** The portrait stage never throws *)

Lemma setGeneratedCharacterPortraits_id s : setGeneratedCharacterPortraits (λ prev, prev) s = s.
Proof. by destruct s. Qed.

Lemma setGeneratedCharacterPortraits_compose f g s :
  setGeneratedCharacterPortraits g (setGeneratedCharacterPortraits f s) =
  setGeneratedCharacterPortraits (λ prev, g (f prev)) s.
Proof. by destruct s. Qed.

Lemma portrait_requests_cons w style k char chars :
  portrait_requests w style k (char :: chars) =
  portrait_request w style k char :: portrait_requests w style (S k) chars.
Proof.
  unfold portrait_requests. cbn [imap]. rewrite Nat.add_0_r. f_equal.
  apply imap_ext. intros i c _. unfold compose. f_equal. lia.
Qed.

Lemma portrait_requests_calls w style chars : ∀ k,
  Forall portrait_call (portrait_requests w style k chars) ∧
  length (portrait_requests w style k chars) = length chars.
Proof.
  induction chars as [|char chars IH]; intros k; [done|].
  rewrite portrait_requests_cons. destruct (IH (S k)) as [Hcalls Hlen].
  split; [|cbn [length]; by rewrite Hlen]. constructor; [by eexists _, _|done].
Qed.

(** One portrait item issues one request and stores its portrait, if any. *)
Lemma portraitItem_run w style np ichar r :
  ∃ rep,
    portraitItem w style np ichar r =
      (Ok (store_portrait w style np (imageRequests r) ichar.2),
       mkRun (setGeneratedCharacterPortraits
                (λ prev, store_portrait w style prev (imageRequests r) ichar.2) (st r))
             rep
             (calls r ++ [portrait_request w style (imageRequests r) ichar.2])
             (S (imageRequests r))).
Proof.
  destruct ichar as [i char]. cbn [snd].
  unfold portraitItem, try_catch, bind, callImage, store_portrait, portrait_answer,
    portrait_request, portrait_from, image_answer.
  destruct (generateImage _ _ _ _ _ _) as [res|msg] eqn:Hgen.
  - destruct (imageBase64 res) as [base64|]; [destruct (Js.truthy base64)|]; simpl.
    + by eexists.
    + rewrite setGeneratedCharacterPortraits_id. by eexists.
    + rewrite setGeneratedCharacterPortraits_id. by eexists.
  - simpl. rewrite setGeneratedCharacterPortraits_id. by eexists.
Qed.

Lemma foldM_portraits_run w style : ∀ ichars np r,
  ∃ rep,
    foldM (portraitItem w style) np ichars r =
      (Ok (store_portraits w style np (imageRequests r) ichars.*2),
       mkRun (setGeneratedCharacterPortraits
                (λ prev, store_portraits w style prev (imageRequests r) ichars.*2) (st r))
             rep
             (calls r ++ portrait_requests w style (imageRequests r) ichars.*2)
             (imageRequests r + length ichars)).
Proof.
  induction ichars as [|ichar ichars IH]; intros np r; simpl.
  - exists (report r). rewrite setGeneratedCharacterPortraits_id, app_nil_r, Nat.add_0_r.
    by destruct r.
  - unfold bind. destruct (portraitItem_run w style np ichar r) as (rep1 & ->).
    match goal with |- context [foldM _ ?np1 ichars ?r1] =>
      destruct (IH np1 r1) as (rep & ->) end.
    exists rep. cbn [st calls imageRequests].
    rewrite setGeneratedCharacterPortraits_compose, portrait_requests_cons,
      <-(assoc_L (++)).
    do 2 f_equal. lia.
Qed.

Lemma generatePortraits_run w style chars r :
  ∃ rep,
    generatePortraits w style chars r =
      (Ok (store_portraits w style [] (imageRequests r) chars),
       mkRun (setGeneratedCharacterPortraits
                (λ prev, store_portraits w style prev (imageRequests r) chars) (st r))
             rep
             (calls r ++ portrait_requests w style (imageRequests r) chars)
             (imageRequests r + length chars)).
Proof.
  destruct (foldM_portraits_run w style (imap pair chars) [] r) as (rep & Hrun).
  rewrite length_imap in Hrun.
  replace ((imap pair chars).*2) with chars in Hrun by (symmetry; apply imap_pair_snd).
  by exists rep.
Qed.

Lemma generatePortraits_outcome w style chars r :
  ∃ np f pcs rep n,
    generatePortraits w style chars r =
      (Ok np, mkRun (setGeneratedCharacterPortraits f (st r)) rep (calls r ++ pcs) n) ∧
    Forall portrait_call pcs ∧ length pcs = length chars ∧
    np = store_portraits w style [] (imageRequests r) chars ∧
    pcs = portrait_requests w style (imageRequests r) chars ∧
    (∀ prev, f prev = store_portraits w style prev (imageRequests r) chars) ∧
    n = imageRequests r + length chars.
Proof.
  destruct (generatePortraits_run w style chars r) as (rep & ->).
  destruct (portrait_requests_calls w style chars (imageRequests r)) as [Hcalls Hlen].
  eexists _, _, _, _, _. split; [reflexivity|]. by split_and!.
Qed.

(** *** The scene loop never throws and chains its requests *)

Lemma chained_app prev cs1 cs2 :
  chained prev (cs1 ++ cs2) ↔ chained prev cs1 ∧ chained (foldl carry prev cs1) cs2.
Proof.
  revert prev. induction cs1 as [|c cs1 IH]; intros prev; simpl; [naive_solver|].
  rewrite IH. naive_solver.
Qed.

Lemma setGeneratedImages_nil s : setGeneratedImages (λ prev, prev ++ []) s = s.
Proof. destruct s. unfold setGeneratedImages. simpl. by rewrite app_nil_r. Qed.

Lemma setGeneratedImages_app a b s :
  setGeneratedImages (λ prev, prev ++ b) (setGeneratedImages (λ prev, prev ++ a) s) =
  setGeneratedImages (λ prev, prev ++ (a ++ b)) s.
Proof. destruct s. unfold setGeneratedImages. simpl. by rewrite (assoc_L (++)). Qed.

Section SceneLoop.
Variables (w : World) (script : Script) (available : JsObject.t NamedImage)
          (style : string) (total : nat).

Lemma prompts_in_script_one cp :
  prompts_in_script script [cp] = if selects script cp then [cp] else [].
Proof. unfold prompts_in_script. simpl. by destruct (selects script cp). Qed.

Lemma prompts_in_script_cons cp cps :
  prompts_in_script script (cp :: cps) =
  prompts_in_script script [cp] ++ prompts_in_script script cps.
Proof. unfold prompts_in_script. simpl. by destruct (selects script cp). Qed.

Lemma scene_requests_app : ∀ cps1 cps2 k prev,
  scene_requests w available style k prev (cps1 ++ cps2) =
  scene_requests w available style k prev cps1 ++
  scene_requests w available style (k + length cps1)
    (foldl carry prev (scene_requests w available style k prev cps1)) cps2.
Proof.
  induction cps1 as [|cp cps1 IH]; intros cps2 k prev; simpl.
  - by rewrite Nat.add_0_r.
  - rewrite IH. do 3 f_equal. lia.
Qed.

Lemma scene_requests_length : ∀ cps k prev,
  length (scene_requests w available style k prev cps) = length cps.
Proof. induction cps as [|cp cps IH]; intros k prev; simpl; [done|]. by rewrite IH. Qed.

Lemma images_from_app cps1 cps2 cs1 cs2 :
  length cs1 = length cps1 →
  images_from (cps1 ++ cps2) (cs1 ++ cs2) = images_from cps1 cs1 ++ images_from cps2 cs2.
Proof.
  intros Hlen. unfold images_from. rewrite zip_with_app by done. apply omap_app.
Qed.

(** One iteration issues the request of its prompt, when the scene index
    selects an element, and appends the image the request gave back. *)
Lemma sceneIteration_run loop icp r :
  ∃ loop' rep cs n new,
    sceneIteration w script available style total loop icp r =
      (Ok loop', mkRun (setGeneratedImages (λ prev, prev ++ new) (st r)) rep
                       (calls r ++ cs) n) ∧
    finalGeneratedImages loop' = finalGeneratedImages loop ++ new ∧
    chained (previousImageBase64 loop) cs ∧
    previousImageBase64 loop' = foldl carry (previousImageBase64 loop) cs ∧
    sublist (gi_sceneIndex <$> new) [cp_sceneIndex icp.2] ∧
    Forall (in_script script) new ∧
    gi_base64 <$> new = omap success_of cs ∧
    length cs ≤ 1 ∧
    cs = scene_requests w available style (imageRequests r) (previousImageBase64 loop)
           (prompts_in_script script [icp.2]) ∧
    new = images_from (prompts_in_script script [icp.2]) cs ∧
    n = imageRequests r + length cs.
Proof.
  destruct icp as [i cp]. cbn [snd]. rewrite prompts_in_script_one.
  unfold sceneIteration, try_catch, selects, images_from.
  destruct (scene_elements script !! cp_sceneIndex cp) as [el|] eqn:Hel; simpl.
  - unfold scene_request, image_answer.
    destruct (resolveCharacters available (cp_characters cp)) as [forGen usedLog].
    unfold bind, callImage. cbn [fst].
    destruct (generateImage _ _ _ _ _ _) as [res|msg] eqn:Hgen; simpl.
    + destruct (imageBase64 res) as [base64|] eqn:Himg;
        [destruct (Js.truthy base64) eqn:Htruthy|]; simpl.
      * eexists _, _, (cons _ nil), _, (cons _ nil). split; [reflexivity|]. simpl.
        unfold carry. simpl. rewrite Himg. simpl. rewrite Htruthy.
        split_and!; try done; [by eexists _, _, _, _| |lia].
        repeat constructor. by apply lookup_lt_Some in Hel.
      * eexists _, _, (cons _ nil), _, nil. rewrite setGeneratedImages_nil, app_nil_r.
        split; [reflexivity|]. simpl.
        unfold carry. simpl. rewrite Himg. simpl. rewrite Htruthy.
        split_and!; try done; [by eexists _, _, _, _|apply sublist_nil_l|lia].
      * eexists _, _, (cons _ nil), _, nil. rewrite setGeneratedImages_nil, app_nil_r.
        split; [reflexivity|]. simpl.
        unfold carry. simpl. rewrite Himg. simpl.
        split_and!; try done; [by eexists _, _, _, _|apply sublist_nil_l|lia].
    + eexists _, _, (cons _ nil), _, nil. rewrite setGeneratedImages_nil, app_nil_r.
      split; [reflexivity|]. simpl.
      split_and!; try done; [by eexists _, _, _, _|apply sublist_nil_l|lia].
  - eexists _, _, nil, _, nil. rewrite setGeneratedImages_nil, !app_nil_r.
    split; [reflexivity|]. simpl. split_and!; try done; [apply sublist_nil_l|lia].
Qed.

#[local] Arguments prompts_in_script : simpl never.
#[local] Arguments images_from : simpl never.
#[local] Arguments scene_requests : simpl never.

Lemma foldM_scenes_run : ∀ icps loop r,
  ∃ loop' rep cs n new,
    foldM (sceneIteration w script available style total) loop icps r =
      (Ok loop', mkRun (setGeneratedImages (λ prev, prev ++ new) (st r)) rep
                       (calls r ++ cs) n) ∧
    finalGeneratedImages loop' = finalGeneratedImages loop ++ new ∧
    chained (previousImageBase64 loop) cs ∧
    previousImageBase64 loop' = foldl carry (previousImageBase64 loop) cs ∧
    sublist (gi_sceneIndex <$> new) ((λ icp, cp_sceneIndex icp.2) <$> icps) ∧
    Forall (in_script script) new ∧
    gi_base64 <$> new = omap success_of cs ∧
    length cs ≤ length icps ∧
    cs = scene_requests w available style (imageRequests r) (previousImageBase64 loop)
           (prompts_in_script script icps.*2) ∧
    new = images_from (prompts_in_script script icps.*2) cs ∧
    n = imageRequests r + length cs.
Proof.
  induction icps as [|icp icps IH]; intros loop r; simpl.
  - eexists loop, (report r), [], (imageRequests r), [].
    rewrite setGeneratedImages_nil, !app_nil_r. destruct r.
    split_and!; try done; simpl; lia.
  - unfold bind.
    destruct (sceneIteration_run loop icp r)
      as (loop1 & rep1 & cs1 & n1 & new1 & -> & Himgs1 & Hch1 & Hprev1 & Hsub1 & Hin1 & Hok1
            & Hlen1 & Hcs1 & Hnew1 & Hn1).
    destruct (IH loop1 (mkRun (setGeneratedImages (λ prev, prev ++ new1) (st r)) rep1
                              (calls r ++ cs1) n1))
      as (loop' & rep & cs & n & new & -> & Himgs & Hch & Hprev & Hsub & Hin & Hok & Hlen
            & Hcs & Hnew & Hn).
    exists loop', rep, (cs1 ++ cs), n, (new1 ++ new). simpl.
    rewrite setGeneratedImages_app, <-(assoc_L (++)). split; [done|].
    cbn [imageRequests] in Hcs, Hn.
    assert (length cs1 = length (prompts_in_script script [icp.2])) as Hcs1len.
    { rewrite Hcs1 at 1. apply scene_requests_length. }
    split_and!.
    + by rewrite Himgs, Himgs1, <-(assoc_L (++)).
    + apply chained_app. by rewrite <-Hprev1.
    + by rewrite foldl_app, <-Hprev1.
    + rewrite fmap_app. by apply (sublist_app _ [_]).
    + by apply Forall_app.
    + by rewrite fmap_app, omap_app, Hok1, Hok.
    + rewrite length_app. lia.
    + rewrite prompts_in_script_cons, scene_requests_app, <-Hcs1, <-Hprev1.
      f_equal. rewrite Hcs. f_equal. lia.
    + rewrite prompts_in_script_cons, images_from_app by done.
      f_equal; [exact Hnew1|exact Hnew].
    + rewrite length_app. lia.
Qed.

End SceneLoop.

(** *** The outcomes of the [try] block *)

Lemma wp_log_seq {U} c (k : M U) r Q :
  wp k (mkRun (st r) (report r) (calls r ++ [c]) (imageRequests r)) Q → wp (log c >> k) r Q.
Proof. done. Qed.

Lemma wp_update_seq {U} f (k : M U) r Q :
  wp k (mkRun (f (st r)) (report r) (calls r) (imageRequests r)) Q → wp (update f >> k) r Q.
Proof. done. Qed.

Lemma wp_lift_bind {T U} (res : Result T) (k : T → M U) r Q :
  match res with
  | Ok v => wp (k v) r Q
  | Throw msg => Q (Throw msg) r
  end →
  wp (bind (lift res) k) r Q.
Proof. by destruct res. Qed.

Lemma wp_bind_assoc {T U V} (m : M T) (k1 : T → M U) (k2 : U → M V) r Q :
  wp (bind m (λ x, bind (k1 x) k2)) r Q → wp (bind (bind m k1) k2) r Q.
Proof. unfold wp, bind. by destruct (m r) as [[v|msg] r']. Qed.

Ltac report_only_tac :=
  repeat first
    [ apply report_only_append
    | apply report_only_ret
    | apply report_only_seq
    | match goal with |- report_only (match ?x with _ => _ end) => destruct x end ].

Ltac run_simpl :=
  cbn [st report calls imageRequests fst snd]; rewrite <-?(assoc_L (++)); cbn [app].

Ltac wp_skip :=
  apply wp_report_only;
  [by report_only_tac|intros ?rep; unfold with_report; cbn [st report calls imageRequests]].

Lemma imap_pair_snd_cp (cps : list CohesivePrompt) :
  (λ icp : nat * CohesivePrompt, cp_sceneIndex icp.2) <$> imap pair cps = cp_sceneIndex <$> cps.
Proof.
  rewrite <-(imap_pair_snd cps) at 2. by rewrite <-list_fmap_compose.
Qed.

Lemma tryBody_outcome w textFiles characterImages stylePrompt storyPrompt r0 :
  wp (tryBody w textFiles characterImages stylePrompt storyPrompt) r0
     (Outcome w textFiles characterImages stylePrompt r0).
Proof.
  unfold tryBody. wp_skip.
  apply wp_bind.
  assert (wp (if 0 <? length textFiles
              then append_report ("--- SOURCE FILES ---" +:+ Js.nl) >>
                   append_report (Js.join Js.nl ((λ f, " - " +:+ tf_name f) <$> textFiles)
                                  +:+ Js.nl +:+ Js.nl) >>
                   log call_analyzeStoryInputs >>
                   lift (analyzeStoryInputs textFiles (w_analyzeStoryInputs w))
              else append_report ("--- SOURCE FILES ---" +:+ Js.nl) >>
                   append_report ("No context files provided. Story elements will be inferred from the prompt."
                                  +:+ Js.nl +:+ Js.nl) >>
                   ret default_story_elements)
             (mkRun (st r0) rep (calls r0) (imageRequests r0))
             (λ res r', ∃ rep', r' = mkRun (st r0) rep' (calls r0 ++ analysis_calls textFiles)
                                           (imageRequests r0) ∧
                        res = storyElementsOf w textFiles)) as Hstory.
  { unfold storyElementsOf, analysis_calls. destruct (0 <? length textFiles).
    - do 2 wp_skip. apply wp_log_seq. apply wp_lift. by eexists.
    - do 2 wp_skip. apply wp_ret. rewrite app_nil_r. by eexists. }
  eapply wp_conseq; [exact Hstory|]. clear Hstory rep.
  intros res r' (rep & -> & ->).
  destruct (storyElementsOf w textFiles) as [se|msg] eqn:Hse; [|by constructor].
  do 9 wp_skip.
  apply wp_log_seq. apply wp_lift_bind.
  destruct (generateStory (w_generateStory w)) as [script|msg] eqn:Hscript;
    [|run_simpl; by econstructor].
  apply wp_update_seq. do 2 wp_skip. apply wp_log_seq. apply wp_lift_bind.
  destruct (analyzeCharacterDescriptions _) as [characters|msg] eqn:Hchars;
    [|run_simpl; by econstructor].
  do 2 wp_skip. apply wp_bind. unfold wp at 1.
  match goal with |- context [generatePortraits ?w ?style ?cs ?r] =>
    destruct (generatePortraits_outcome w style cs r)
      as (np & f & pcs & rep' & n & -> & Hpcs & Hplen & Hnp & Hpcseq & Hf & Hn) end.
  match type of Hplen with _ = length (List.filter ?p ?l) =>
    pose proof (List.filter_length_le p l) as Hfilter end.
  cbn [fst snd st report calls imageRequests].
  do 2 wp_skip. apply wp_log_seq. apply wp_lift_bind.
  destruct (generateCohesiveImagePrompts _) as [cps|msg] eqn:Hcps.
  2:{ run_simpl. econstructor; eauto with lia. }
  apply wp_bind. unfold wp at 1. unfold generateSceneImages.
  match goal with |- context [foldM (sceneIteration ?w ?sc ?av ?style ?tot) ?loop ?l ?r] =>
    destruct (foldM_scenes_run w sc av style tot l loop r)
      as (loop' & rep'' & scs & n' & imgs & -> & Himgs & Hch & _ & Hsub & Hin & Hok & Hslen
            & Hscs & Hnew & _)
  end.
  rewrite length_imap in Hslen.
  replace ((imap pair cps).*2) with cps in Hscs, Hnew by (symmetry; apply imap_pair_snd).
  cbn [fst snd st report calls imageRequests] in *.
  rewrite Hnp, Hn in Hscs.
  rewrite imap_pair_snd_cp in Hsub. simpl in Himgs. rewrite Himgs.
  destruct (associateDialogue_run script imgs initial_dialogue_loop [])
    as (dl & Hdl & _); [|done|].
  { eapply Forall_impl; [exact Hin|]. unfold in_script. intros; simpl in *; lia. }
  apply wp_lift_bind. pose proof Hdl as Hdl'. unfold initial_dialogue_loop in Hdl'.
  rewrite Hdl'. clear Hdl'.
  assert (∀ rep n,
    Outcome w textFiles characterImages stylePrompt r0 (Ok tt)
      (mkRun (setGenerationComplete true
                (setGenerationReport (λ _, rep)
                   (hs_update w (dialogueInputs dl)
                      (setGeneratedImages (λ prev, prev ++ imgs)
                         (setGeneratedCharacterPortraits f
                            (setScriptData (Some script) (st r0)))))))
             rep
             (calls r0 ++ analysis_calls textFiles
                ++ [call_generateStory; call_analyzeCharacterDescriptions] ++ pcs
                ++ [call_generateCohesiveImagePrompts (requested_scenes script)]
                ++ scs ++ hs_calls (dialogueInputs dl))
             n)) as Hout by (intros; econstructor; eauto with lia).
  unfold hs_update, hs_calls in Hout.
  destruct (0 <? length (dialogueInputs dl)).
  - apply wp_bind_assoc, wp_log_seq, wp_bind_assoc, wp_update_seq, wp_bind_assoc.
    do 2 wp_skip. unfold wp. run_simpl. apply Hout.
  - wp_skip. unfold wp. run_simpl.
    assert (∀ rep n, Outcome w textFiles characterImages stylePrompt r0 (Ok tt)
      (mkRun (setGenerationComplete true
                (setGenerationReport (λ _, rep)
                   (setGeneratedImages (λ prev, prev ++ imgs)
                      (setGeneratedCharacterPortraits f
                         (setScriptData (Some script) (st r0))))))
             rep
             (calls r0 ++ analysis_calls textFiles
                ++ [call_generateStory; call_analyzeCharacterDescriptions] ++ pcs
                ++ [call_generateCohesiveImagePrompts (requested_scenes script)] ++ scs)
             n)) as Hout'.
    { intros repx nx. specialize (Hout repx nx). by rewrite app_nil_r in Hout. }
    apply Hout'.
Qed.

(** *** The handler as a whole *)

Lemma handleGenerate_outcome w s :
  ∃ res r1,
    Outcome w (textFiles s) (characterImages s) (stylePrompt s) (initial_run w s) res r1 ∧
    handleGenerate w s = settle res r1.
Proof.
  pose proof (tryBody_outcome w (textFiles s) (characterImages s) (stylePrompt s)
                (storyPrompt s) (initial_run w s)) as Hout.
  unfold wp in Hout. unfold handleGenerate, try_catch. fold (initial_run w s).
  destruct (tryBody _ _ _ _ _ _) as [[[]|msg] r1]; eauto.
Qed.

Ltac state_simpl :=
  cbv [settle initial_run resetForRun
       setIsGenerating setStatusMessage setError setScriptData setGeneratedImages
       setGeneratedCharacterPortraits setGenerationReport setGenerationComplete
       setIsReadyForDownload setHs3000Lines
       isGenerating statusMessage error scriptData stylePrompt storyPrompt generatedImages
       characterImages generatedCharacterPortraits textFiles generationReport
       generationComplete isReadyForDownload hs3000Lines
       st report calls imageRequests].

Lemma hs_update_frame w inputs s :
  error (hs_update w inputs s) = error s ∧
  scriptData (hs_update w inputs s) = scriptData s ∧
  generatedImages (hs_update w inputs s) = generatedImages s ∧
  generatedCharacterPortraits (hs_update w inputs s) = generatedCharacterPortraits s ∧
  generationReport (hs_update w inputs s) = generationReport s ∧
  hs3000Lines (hs_update w inputs s) =
    if 0 <? length inputs
    then generateHS3000Dialogue (w_generateHS3000Dialogue w) inputs
    else hs3000Lines s.
Proof. unfold hs_update. by destruct (0 <? length inputs). Qed.

(** The error of a run is the error of its first failing fatal stage. *)
Lemma handleGenerate_error w s :
  error (st (handleGenerate w s)) = snd <$> fatal_failure w (textFiles s).
Proof.
  destruct (handleGenerate_outcome w s) as (res & r1 & Hout & ->).
  unfold fatal_failure.
  destruct Hout; repeat match goal with H : _ = _ |- _ => rewrite H end; try done.
  unfold settle. simpl. by rewrite (proj1 (hs_update_frame _ _ _)).
Qed.

(** Drops what an outcome says about the exact requests and images. *)
Ltac forget_requests :=
  repeat match goal with
         | H : _ = portrait_requests _ _ _ _ |- _ => clear H
         | H : _ = scene_requests _ _ _ _ _ _ |- _ => clear H
         | H : _ = images_from _ _ |- _ => clear H
         | H : ∀ prev, _ prev = store_portraits _ _ prev _ _ |- _ => clear H
         end.

(** The flags and the script at the end of a run. *)
Lemma handleGenerate_final w s :
  let final := st (handleGenerate w s) in
  isGenerating final = false ∧
  statusMessage final = EmptyString ∧
  isReadyForDownload final = true ∧
  scriptData final = scriptOf w (textFiles s) ∧
  generationComplete final = bool_decide (fatal_failure w (textFiles s) = None).
Proof.
  cbn zeta. destruct (handleGenerate_outcome w s) as (res & r1 & Hout & ->).
  unfold scriptOf, fatal_failure.
  destruct Hout; repeat match goal with H : _ = _ |- _ => rewrite H end;
    try (by unfold settle; simpl).
  unfold settle. cbn [st]. unfold hs_update. by destruct (0 <? length _).
Qed.

Ltac stage_equations H :=
  repeat match goal with
         | E : _ = Ok _ |- _ => rewrite E in H
         | E : _ = Throw _ |- _ => rewrite E in H
         end.

(** A run in which no fatal stage fails completes: the generated images
    belong to the script, their associations are computed, and the rewrite
    request, when there is one, is the last call. *)
Lemma handleGenerate_completed w s :
  fatal_failure w (textFiles s) = None →
  ∃ script imgs dl,
    scriptData (st (handleGenerate w s)) = Some script ∧
    generatedImages (st (handleGenerate w s)) = imgs ∧
    associateDialogue script initial_dialogue_loop imgs = Ok dl ∧
    Forall (in_script script) imgs ∧
    hs3000Lines (st (handleGenerate w s)) =
      (if 0 <? length (dialogueInputs dl)
       then generateHS3000Dialogue (w_generateHS3000Dialogue w) (dialogueInputs dl)
       else []) ∧
    generationComplete (st (handleGenerate w s)) = true ∧
    ∃ before, calls (handleGenerate w s) = before ++ hs_calls (dialogueInputs dl).
Proof.
  intros Hfatal. destruct (handleGenerate_outcome w s) as (res & r1 & Hout & ->).
  unfold fatal_failure in Hfatal.
  destruct Hout; forget_requests; stage_equations Hfatal; simplify_eq.
  assert (∃ before,
            calls (settle (Ok tt)
                     (mkRun (setGenerationComplete true
                               (setGenerationReport (λ _, rep)
                                  (hs_update w (dialogueInputs dl)
                                     (setGeneratedImages (λ prev, prev ++ imgs)
                                        (setGeneratedCharacterPortraits f
                                           (setScriptData (Some script)
                                              (st (initial_run w s))))))))
                            rep
                            (calls (initial_run w s) ++ analysis_calls (textFiles s)
                               ++ [call_generateStory; call_analyzeCharacterDescriptions]
                               ++ pcs
                               ++ [call_generateCohesiveImagePrompts (requested_scenes script)]
                               ++ scs ++ hs_calls (dialogueInputs dl))
                            n))
            = before ++ hs_calls (dialogueInputs dl)) as Hcalls.
  { unfold settle. cbn [calls]. eexists. rewrite !(assoc_L (++)). reflexivity. }
  unfold settle in *. simpl.
  destruct (hs_update_frame w (dialogueInputs dl)
              (setGeneratedImages (λ prev, prev ++ imgs)
                 (setGeneratedCharacterPortraits f
                    (setScriptData (Some script) (resetForRun s)))))
    as (_ & -> & -> & _ & _ & ->).
  exists script, imgs, dl. by split_and!.
Qed.

Lemma in_script_le script imgs :
  Forall (in_script script) imgs →
  Forall (λ img, gi_sceneIndex img ≤ length (scene_elements script)) imgs.
Proof.
  intros Hin. eapply Forall_impl; [exact Hin|]. unfold in_script. intros; simpl in *; lia.
Qed.

(** ** The requests of a run *)

Lemma filter_none {T} (p : T → bool) (l : list T) :
  Forall (λ x, p x = false) l → List.filter p l = [].
Proof. induction 1 as [|x l Hx _ IH]; [done|]. simpl. by rewrite Hx. Qed.

Lemma chained_Forall prev cs : chained prev cs → Forall scene_call cs.
Proof.
  revert prev. induction cs as [|c cs IH]; intros prev; [done|].
  intros (Hc & _ & Hcs). constructor; eauto.
Qed.

Lemma portrait_calls_not_stage stage cs :
  Forall portrait_call cs → Forall (λ c, is_stage_call stage c = false) cs.
Proof.
  intros Hcs. eapply Forall_impl; [exact Hcs|]. intros c (? & ? & ->). by destruct stage.
Qed.

Lemma scene_calls_not_stage stage cs :
  Forall scene_call cs → Forall (λ c, is_stage_call stage c = false) cs.
Proof.
  intros Hcs. eapply Forall_impl; [exact Hcs|].
  intros c (? & ? & ? & ? & ->). by destruct stage.
Qed.

Lemma portrait_calls_not_rewrite cs :
  Forall portrait_call cs → Forall (λ c, is_rewrite_call c = false) cs.
Proof. intros Hcs. eapply Forall_impl; [exact Hcs|]. by intros c (? & ? & ->). Qed.

Lemma scene_calls_not_rewrite cs :
  Forall scene_call cs → Forall (λ c, is_rewrite_call c = false) cs.
Proof.
  intros Hcs. eapply Forall_impl; [exact Hcs|]. by intros c (? & ? & ? & ? & ->).
Qed.

Lemma chained_scene_calls prev cs : chained prev cs → List.filter scene_site_call cs = cs.
Proof.
  revert prev. induction cs as [|c cs IH]; intros prev; simpl; [done|].
  intros [(? & ? & ? & ? & ->) [_ Hcs]]. simpl. f_equal. eauto.
Qed.

Lemma portrait_calls_not_scene cs :
  Forall portrait_call cs → List.filter scene_site_call cs = [].
Proof.
  induction 1 as [|c cs (? & ? & ->) _ IH]; [done|]. simpl. exact IH.
Qed.

Lemma analysis_calls_not_scene tf : List.filter scene_site_call (analysis_calls tf) = [].
Proof. unfold analysis_calls. by destruct (0 <? length tf). Qed.

Lemma hs_calls_not_scene inputs : List.filter scene_site_call (hs_calls inputs) = [].
Proof. unfold hs_calls. by destruct (0 <? length inputs). Qed.

Lemma filter_all {T} (p : T → bool) (l : list T) :
  Forall (λ x, p x = true) l → List.filter p l = l.
Proof. induction 1 as [|x l Hx _ IH]; [done|]. simpl. by rewrite Hx, IH. Qed.

Lemma portrait_calls_portrait_site cs :
  Forall portrait_call cs → Forall (λ c, portrait_site_call c = true) cs.
Proof. intros Hcs. eapply Forall_impl; [exact Hcs|]. by intros c (? & ? & ->). Qed.

Lemma scene_calls_not_portrait_site cs :
  Forall scene_call cs → Forall (λ c, portrait_site_call c = false) cs.
Proof.
  intros Hcs. eapply Forall_impl; [exact Hcs|]. by intros c (? & ? & ? & ? & ->).
Qed.

Lemma analysis_calls_filter (p : Call → bool) tf :
  p call_analyzeStoryInputs = false → List.filter p (analysis_calls tf) = [].
Proof. intros Hp. unfold analysis_calls. destruct (0 <? length tf); [|done]. simpl. by rewrite Hp. Qed.

Lemma hs_calls_filter (p : Call → bool) inputs :
  (∀ i, p (call_generateHS3000Dialogue i) = false) → List.filter p (hs_calls inputs) = [].
Proof.
  intros Hp. unfold hs_calls. destruct (0 <? length inputs); [|done]. simpl. by rewrite Hp.
Qed.

(** *** The portraits that the requests leave *)

Section Portraits.
Variables (w : World) (style : string).

(** Requests that give no portrait for [name] leave its entry as it was. *)
Lemma store_portraits_unchanged name : ∀ characters k0 prev,
  (∀ j other, characters !! j = Some other → ac_name other = name →
              portrait_answer w style (k0 + j) other = None) →
  JsObject.get (store_portraits w style prev k0 characters) name = JsObject.get prev name.
Proof.
  induction characters as [|char characters IH]; intros k0 prev Hnone; [done|].
  cbn [store_portraits]. rewrite IH.
  - unfold store_portrait.
    destruct (portrait_answer w style k0 char) as [portrait|] eqn:Hanswer; [|done].
    apply get_set_ne. intros Hname.
    specialize (Hnone 0 char eq_refl Hname). rewrite Nat.add_0_r in Hnone. congruence.
  - intros j other Hj Hname. specialize (Hnone (S j) other Hj Hname).
    by replace (S k0 + j) with (k0 + S j) by lia.
Qed.

(** The portrait of the only request that gives one for a name is the
    entry of that name. *)
Lemma store_portraits_get : ∀ characters k0 prev k char portrait,
  characters !! k = Some char →
  portrait_answer w style (k0 + k) char = Some portrait →
  (∀ j other, j ≠ k → characters !! j = Some other → ac_name other = ac_name char →
              portrait_answer w style (k0 + j) other = None) →
  JsObject.get (store_portraits w style prev k0 characters) (ac_name char) = Some portrait.
Proof.
  induction characters as [|char0 characters IH]; intros k0 prev k char portrait Hk Hanswer Hothers;
    [done|].
  cbn [store_portraits]. destruct k as [|k].
  - injection Hk as ->. rewrite Nat.add_0_r in Hanswer.
    rewrite store_portraits_unchanged.
    + unfold store_portrait. rewrite Hanswer. apply get_set_eq.
    + intros j other Hj Hname. specialize (Hothers (S j) other).
      replace (S k0 + j) with (k0 + S j) by lia. by apply Hothers.
  - apply (IH (S k0) _ k); [done|by replace (S k0 + k) with (k0 + S k) by lia|].
    intros j other Hne Hj Hname. specialize (Hothers (S j) other).
    replace (S k0 + j) with (k0 + S j) by lia. apply Hothers; [lia|done..].
Qed.

(** Every entry was there before or is the portrait of a request. *)
Lemma store_portraits_provenance name portrait : ∀ characters k0 prev,
  JsObject.get (store_portraits w style prev k0 characters) name = Some portrait →
  JsObject.get prev name = Some portrait ∨
  ∃ k char, characters !! k = Some char ∧ ac_name char = name ∧
            portrait_answer w style (k0 + k) char = Some portrait.
Proof.
  induction characters as [|char characters IH]; intros k0 prev Hget; [by left|].
  cbn [store_portraits] in Hget. apply IH in Hget as [Hget|(k & c & Hk & Hname & Hanswer)].
  - unfold store_portrait in Hget.
    destruct (portrait_answer w style k0 char) as [p|] eqn:Hanswer; [|by left].
    rewrite get_set in Hget. destruct (String.eqb (ac_name char) name) eqn:Hname.
    + apply String.eqb_eq in Hname. injection Hget as <-. right. exists 0, char.
      by rewrite Nat.add_0_r.
    + by left.
  - right. exists (S k), c. split_and!; [done..|].
    by replace (k0 + S k) with (S k0 + k) by lia.
Qed.

End Portraits.

(** *** The requests of the scene loop *)

Section SceneRequests.
Variables (w : World) (available : JsObject.t NamedImage) (style : string).

(** The request at position [k] is the request of the prompt at that
    position, numbered after the requests before it and issued with the
    reference carried through them. *)
Lemma scene_requests_lookup : ∀ cps k0 prev k c,
  scene_requests w available style k0 prev cps !! k = Some c →
  ∃ cp, cps !! k = Some cp ∧
        c = scene_request w available style (k0 + k)
              (foldl carry prev (take k (scene_requests w available style k0 prev cps))) cp.
Proof.
  induction cps as [|cp cps IH]; intros k0 prev k c Hk; [done|].
  destruct k as [|k]; simpl in *.
  - injection Hk as <-. exists cp. by rewrite Nat.add_0_r.
  - apply IH in Hk as (cp' & Hcp' & ->). exists cp'. split; [done|].
    by replace (k0 + S k) with (S k0 + k) by lia.
Qed.

Lemma scene_requests_prompts : ∀ cps k0 prev,
  prompt_of <$> scene_requests w available style k0 prev cps = (λ cp, Some (cp_prompt cp)) <$> cps.
Proof. induction cps as [|cp cps IH]; intros k0 prev; simpl; [done|]. by rewrite IH. Qed.

End SceneRequests.

(** *** The requests of the handler *)

Lemma charactersOf_Ok w characters :
  analyzeCharacterDescriptions (w_analyzeCharacterDescriptions w) = Ok characters →
  charactersOf w = characters.
Proof. unfold charactersOf. by intros ->. Qed.

Lemma charactersOf_Throw w msg :
  analyzeCharacterDescriptions (w_analyzeCharacterDescriptions w) = Throw msg →
  charactersOf w = [].
Proof. unfold charactersOf. by intros ->. Qed.

(** Once the script is generated, the portrait requests of the run are the
    requests for the characters to portray, in order, and the portraits in
    the state are what these requests gave. *)
Lemma handleGenerate_portraits w s script :
  scriptData (st (handleGenerate w s)) = Some script →
  portrait_calls (handleGenerate w s) =
    portrait_requests w (styleOf s) 0 (charactersToPortray w s) ∧
  generatedCharacterPortraits (st (handleGenerate w s)) =
    store_portraits w (styleOf s) [] 0 (charactersToPortray w s).
Proof.
  destruct (handleGenerate_outcome w s) as (res & r1 & Hout & ->).
  unfold portrait_calls, charactersToPortray, styleOf.
  destruct Hout as [m rep Hse|se m rep Hse Hscript|se sc m rep Hse Hscript Hchars
                   |se sc characters f pcs m rep n Hse Hscript Hchars Hpcs Hplen Hcps
                      Hpcseq Hf
                   |se sc characters f pcs cps imgs scs dl rep n Hse Hscript Hchars
                      Hpcs Hplen Hcps Hch Hslen Hsub Hin Hok Hdl Hpcseq Hf Hscs Himgs];
    unfold settle; cbn [st calls initial_run app]; try done.
  - intros _. rewrite (charactersOf_Throw _ _ Hchars).
    repeat (progress (rewrite ?List.filter_app,
                        ?(analysis_calls_filter portrait_site_call) by done;
                      cbn [List.filter portrait_site_call app])).
    done.
  - intros _. rewrite (charactersOf_Ok _ _ Hchars).
    repeat (progress (rewrite ?List.filter_app,
                        ?(analysis_calls_filter portrait_site_call),
                        ?(filter_all _ pcs (portrait_calls_portrait_site _ Hpcs)) by done;
                      cbn [List.filter portrait_site_call app])).
    rewrite app_nil_r. split; [exact Hpcseq|]. cbn. apply Hf.
  - intros _. rewrite (charactersOf_Ok _ _ Hchars).
    repeat (progress (rewrite ?List.filter_app,
                        ?(analysis_calls_filter portrait_site_call),
                        ?(hs_calls_filter portrait_site_call),
                        ?(filter_all _ pcs (portrait_calls_portrait_site _ Hpcs)),
                        ?(filter_none _ scs (scene_calls_not_portrait_site _
                                               (chained_Forall _ _ Hch))) by done;
                      cbn [List.filter portrait_site_call app])).
    rewrite app_nil_r. split; [exact Hpcseq|]. simpl.
    rewrite (proj1 (proj2 (proj2 (proj2 (hs_update_frame _ _ _))))). simpl. apply Hf.
Qed.

(** In a run that completes, the scene requests are the requests for the
    prompts that select an element of the script, in order, and the images
    in the state are what these requests gave. *)
Lemma handleGenerate_scenes w s script :
  scriptData (st (handleGenerate w s)) = Some script →
  generationComplete (st (handleGenerate w s)) = true →
  scene_calls (handleGenerate w s) =
    scene_requests w (availableImages w s) (styleOf s) (length (charactersToPortray w s)) None
      (prompts_in_script script (cohesivePromptsOf w)) ∧
  generatedImages (st (handleGenerate w s)) =
    images_from (prompts_in_script script (cohesivePromptsOf w))
                (scene_calls (handleGenerate w s)).
Proof.
  destruct (handleGenerate_outcome w s) as (res & r1 & Hout & ->).
  unfold scene_calls, availableImages, charactersToPortray, styleOf, cohesivePromptsOf.
  destruct Hout as [m rep Hse|se m rep Hse Hscript|se sc m rep Hse Hscript Hchars
                   |se sc characters f pcs m rep n Hse Hscript Hchars Hpcs Hplen Hcps
                      Hpcseq Hf
                   |se sc characters f pcs cps imgs scs dl rep n Hse Hscript Hchars
                      Hpcs Hplen Hcps Hch Hslen Hsub Hin Hok Hdl Hpcseq Hf Hscs Himgs];
    unfold settle; cbn [st calls initial_run app]; try done.
  intros Hsc _. simpl in Hsc. rewrite (proj1 (proj2 (hs_update_frame _ _ _))) in Hsc.
  simpl in Hsc. injection Hsc as <-. rewrite (charactersOf_Ok _ _ Hchars), Hcps.
  repeat (progress (rewrite ?List.filter_app, ?analysis_calls_not_scene,
                      ?(portrait_calls_not_scene _ Hpcs), ?hs_calls_not_scene,
                      ?(chained_scene_calls _ _ Hch);
                    cbn [List.filter scene_site_call app])).
  rewrite app_nil_r.
  split; [exact Hscs|]. simpl.
  rewrite (proj1 (proj2 (proj2 (hs_update_frame _ _ _)))). simpl. exact Himgs.
Qed.

(** The request to the prompt service carries the scenes selected from the
    script of the run. *)
Lemma handleGenerate_prompt_call w s scenes :
  In (call_generateCohesiveImagePrompts scenes) (calls (handleGenerate w s)) →
  ∃ script,
    scriptData (st (handleGenerate w s)) = Some script ∧ scenes = requested_scenes script.
Proof.
  destruct (handleGenerate_outcome w s) as (res & r1 & Hout & ->).
  intros Hin.
  assert (In (call_generateCohesiveImagePrompts scenes)
             (List.filter (is_stage_call GenerateCohesivePrompts)
                (calls (settle res r1)))) as Hfilter by (by apply List.filter_In).
  clear Hin. revert Hfilter.
  destruct Hout as [m rep Hse|se m rep Hse Hscript|se sc m rep Hse Hscript Hchars
                   |se sc characters f pcs m rep n Hse Hscript Hchars Hpcs Hplen Hcps
                      Hpcseq Hf
                   |se sc characters f pcs cps imgs scs dl rep n Hse Hscript Hchars
                      Hpcs Hplen Hcps Hch Hslen Hsub Hin Hok Hdl Hpcseq Hf Hscs Himgs];
    unfold settle; cbn [st calls initial_run app];
    repeat (progress (rewrite ?List.filter_app,
                        ?(analysis_calls_filter (is_stage_call GenerateCohesivePrompts)),
                        ?(hs_calls_filter (is_stage_call GenerateCohesivePrompts)) by done;
                      cbn [List.filter is_stage_call app])); try done.
  - rewrite (filter_none _ pcs (portrait_calls_not_stage GenerateCohesivePrompts _ Hpcs)).
    cbn. intros [[= <-]|[]]. by exists sc.
  - rewrite (filter_none _ pcs (portrait_calls_not_stage GenerateCohesivePrompts _ Hpcs)).
    rewrite (filter_none _ scs (scene_calls_not_stage GenerateCohesivePrompts _
                                  (chained_Forall _ _ Hch))).
    cbn. intros [[= <-]|[]]. exists sc. split; [|done].
    simpl. by rewrite (proj1 (proj2 (hs_update_frame _ _ _))).
Qed.

(** A run that completes has asked the prompt service. *)
Lemma handleGenerate_complete_prompt_call w s :
  generationComplete (st (handleGenerate w s)) = true →
  ∃ script,
    scriptData (st (handleGenerate w s)) = Some script ∧
    In (call_generateCohesiveImagePrompts (requested_scenes script))
       (calls (handleGenerate w s)).
Proof.
  destruct (handleGenerate_outcome w s) as (res & r1 & Hout & ->).
  destruct Hout; unfold settle; cbn [st calls initial_run app]; try done.
  intros _. exists script. split; [simpl; by rewrite (proj1 (proj2 (hs_update_frame _ _ _)))|].
  apply in_or_app. right. right. right. apply in_or_app. right. by left.
Qed.

(** A run that does not complete has issued no scene request. *)
Lemma handleGenerate_incomplete_scenes w s :
  generationComplete (st (handleGenerate w s)) = false →
  scene_calls (handleGenerate w s) = [].
Proof.
  destruct (handleGenerate_outcome w s) as (res & r1 & Hout & ->).
  unfold scene_calls.
  destruct Hout as [m rep Hse|se m rep Hse Hscript|se sc m rep Hse Hscript Hchars
                   |se sc characters f pcs m rep n Hse Hscript Hchars Hpcs Hplen Hcps
                      Hpcseq Hf
                   |se sc characters f pcs cps imgs scs dl rep n Hse Hscript Hchars
                      Hpcs Hplen Hcps Hch Hslen Hsub Hin Hok Hdl Hpcseq Hf Hscs Himgs];
    unfold settle; cbn [st calls initial_run app]; intros Hcomplete;
    repeat (progress (rewrite ?List.filter_app, ?analysis_calls_not_scene,
                        ?(portrait_calls_not_scene _ Hpcs);
                      cbn [List.filter scene_site_call app])); try done;
    simpl in Hcomplete; done.
Qed.

(** A run that completes has generated its script. *)
Lemma handleGenerate_complete_script w s :
  generationComplete (st (handleGenerate w s)) = true →
  ∃ script, scriptData (st (handleGenerate w s)) = Some script.
Proof.
  intros Hcomplete.
  destruct (handleGenerate_complete_prompt_call w s Hcomplete) as (script & Hscript & _).
  by exists script.
Qed.

(** Every scene request of a run is a request of the scene loop, numbered
    after the portrait requests, and records what the image service gave
    back for it. *)
Lemma handleGenerate_scene_answers w s k c :
  scene_calls (handleGenerate w s) !! k = Some c →
  ∃ prompt characterImages,
    c = call_generateImage SceneSite prompt (Some characterImages) (reference_of c)
          (image_answer w (styleOf s) (length (charactersToPortray w s) + k) prompt
             (Some characterImages) (reference_of c)).
Proof.
  intros Hk. destruct (generationComplete (st (handleGenerate w s))) eqn:Hcomplete.
  - destruct (handleGenerate_complete_script w s Hcomplete) as [script Hscript].
    destruct (handleGenerate_scenes w s script Hscript Hcomplete) as [Hreq _].
    rewrite Hreq in Hk. apply scene_requests_lookup in Hk as (cp & _ & ->).
    unfold scene_request. cbn [reference_of]. by eexists _, _.
  - by rewrite (handleGenerate_incomplete_scenes w s Hcomplete) in Hk.
Qed.

(** ** Fatal failures *)

Lemma append_nonempty a b : a ≠ EmptyString → a +:+ b ≠ EmptyString.
Proof. by destruct a. Qed.

Lemma generation_failed_nonempty msg : generation_failed msg ≠ EmptyString.
Proof. unfold generation_failed. by apply append_nonempty. Qed.

(** Whatever the failing stage, the report of a failed run is the failure
    entry alone: the entries of the local [report] are not shown. *)
Lemma failed_run_report w s stage msg :
  fatal_failure w (textFiles s) = Some (stage, msg) →
  generationReport (st (handleGenerate w s)) = generation_failed msg.
Proof.
  intros Hfatal. destruct (handleGenerate_outcome w s) as (res & r1 & Hout & ->).
  unfold fatal_failure in Hfatal.
  destruct Hout; forget_requests; stage_equations Hfatal;
    simplify_eq; unfold settle; simpl; reflexivity.
Qed.

Lemma fatal_prompts_script w tf msg :
  fatal_failure w tf = Some (GenerateCohesivePrompts, msg) →
  ∃ script, scriptOf w tf = Some script.
Proof.
  unfold fatal_failure, scriptOf. destruct (storyElementsOf w tf); [|done].
  destruct (generateStory _) as [script|]; [|done]. by exists script.
Qed.

(** C1 (amended): when a fatal stage fails, the final state carries the
    error of that stage, no generated scene image, the ready-for-download
    flag and a non-empty report that ends with the terminal failure entry
    for that error; it carries no generated portrait when the stage that
    failed runs before portrait generation (story analysis, script
    generation, character analysis).  When the cohesive-prompt stage fails,
    the portraits generated before it remain in the state: the portrait
    that the request for a character gave is the entry of the character's
    name, provided that no other character of that name got a portrait, and
    every entry is the portrait that the request for a character of that
    name gave. *)
Theorem fatal_failure_partial_result (w : World) (s : AppState)
    (stage : Stage) (msg : string) :
  fatal_failure w (textFiles s) = Some (stage, msg) →
  let final := st (handleGenerate w s) in
  let characters := charactersToPortray w s in
  error final = Some msg ∧
  generatedImages final = [] ∧
  (stage ≠ GenerateCohesivePrompts → generatedCharacterPortraits final = []) ∧
  (stage = GenerateCohesivePrompts →
   (∀ k char portrait,
      characters !! k = Some char →
      portrait_answer w (styleOf s) k char = Some portrait →
      (∀ j other, j ≠ k → characters !! j = Some other → ac_name other = ac_name char →
                  portrait_answer w (styleOf s) j other = None) →
      JsObject.get (generatedCharacterPortraits final) (ac_name char) = Some portrait) ∧
   (∀ name portrait,
      JsObject.get (generatedCharacterPortraits final) name = Some portrait →
      ∃ k char, characters !! k = Some char ∧ ac_name char = name ∧
                portrait_answer w (styleOf s) k char = Some portrait)) ∧
  generationReport final ≠ EmptyString ∧
  (∃ before, generationReport final = before +:+ generation_failed msg) ∧
  generationComplete final = false ∧
  isReadyForDownload final = true.
Proof.
  intros Hfatal. cbn zeta.
  assert (stage = GenerateCohesivePrompts →
          generatedCharacterPortraits (st (handleGenerate w s)) =
            store_portraits w (styleOf s) [] 0 (charactersToPortray w s)) as Hportraits.
  { intros ->. destruct (fatal_prompts_script _ _ _ Hfatal) as [script Hscript].
    destruct (handleGenerate_final w s) as (_ & _ & _ & Hdata & _).
    rewrite Hscript in Hdata. by apply (handleGenerate_portraits w s script). }
  rewrite handleGenerate_error, Hfatal, (failed_run_report w s stage msg Hfatal).
  split; [done|].
  assert (generatedImages (st (handleGenerate w s)) = [] ∧
          (stage ≠ GenerateCohesivePrompts →
           generatedCharacterPortraits (st (handleGenerate w s)) = []) ∧
          generationComplete (st (handleGenerate w s)) = false ∧
          isReadyForDownload (st (handleGenerate w s)) = true) as (Himgs & Hnone & Hc & Hr).
  { clear Hportraits. destruct (handleGenerate_outcome w s) as (res & r1 & Hout & ->).
    unfold fatal_failure in Hfatal.
    destruct Hout; forget_requests; stage_equations Hfatal;
      simplify_eq; unfold settle; simpl; by split_and!. }
  split_and!; [done|done| |apply generation_failed_nonempty|by exists EmptyString|done|done].
  intros Hstage. rewrite (Hportraits Hstage). split.
  - intros k char portrait Hk Hanswer Hothers.
    by apply (store_portraits_get w (styleOf s) (charactersToPortray w s) 0 [] k).
  - intros name portrait Hget.
    by apply (store_portraits_provenance w (styleOf s)) in Hget as [Hget|Hget].
Qed.

Lemma fatal_failure_partial_result_witness :
  generatedCharacterPortraits (st (handleGenerate world_script_fails prompt_only_state)) = [] ∧
  ∃ portrait,
    JsObject.get
      (generatedCharacterPortraits (st (handleGenerate world_prompts_fail prompt_only_state)))
      "Zed" = Some portrait ∧
    gp_base64 portrait = "PORTRAIT".
Proof.
  split.
  - apply (proj1 (proj2 (proj2
             (fatal_failure_partial_result world_script_fails prompt_only_state
                GenerateScript "Failed to generate script. Details: network down"
                eq_refl)))).
    discriminate.
  - exists {| gp_base64 := "PORTRAIT"; gp_mimeType := "image/png";
              gp_prompt := "Style: cinematic, photorealistic. " +:+ portrait_prompt zed |}.
    split; [|reflexivity].
    apply (proj1 (proj1 (proj2 (proj2 (proj2
             (fatal_failure_partial_result world_prompts_fail prompt_only_state
                GenerateCohesivePrompts
                "Failed to generate cohesive image prompts. Details: quota exceeded"
                eq_refl)))) eq_refl) 0 zed).
    + reflexivity.
    + reflexivity.
    + intros [|j] other Hj Hother; [done|]. discriminate Hother.
Defined.

(** Zero portraits do not hold for every fatal stage: when the
    cohesive-prompt stage fails after a portrait was generated, the run
    keeps that portrait; and its report has no entry for the script stage,
    which was attempted and succeeded. *)
Lemma fatal_failure_zero_portraits_counterexample :
  let final := st (handleGenerate world_prompts_fail prompt_only_state) in
  fatal_failure world_prompts_fail (textFiles prompt_only_state) =
    Some (GenerateCohesivePrompts,
          "Failed to generate cohesive image prompts. Details: quota exceeded") ∧
  generatedCharacterPortraits final ≠ [] ∧
  scriptData final ≠ None ∧
  Js.includes (generationReport final) "--- SCRIPT GENERATED SUCCESSFULLY ---" = false.
Proof. cbn zeta. split_and!; by vm_compute. Qed.

(** ** The continuity chain *)

(** The scene requests of any run form a chain, and the generated images
    are their successes. *)
Lemma handleGenerate_scene_calls w s :
  chained None (scene_calls (handleGenerate w s)) ∧
  gi_base64 <$> generatedImages (st (handleGenerate w s)) =
    omap success_of (scene_calls (handleGenerate w s)) ∧
  sublist (gi_sceneIndex <$> generatedImages (st (handleGenerate w s)))
          (cp_sceneIndex <$> cohesivePromptsOf w) ∧
  length (scene_calls (handleGenerate w s)) ≤ length (cohesivePromptsOf w).
Proof.
  destruct (handleGenerate_outcome w s) as (res & r1 & Hout & ->).
  unfold scene_calls, cohesivePromptsOf.
  destruct Hout; unfold settle; simpl;
    repeat (progress (rewrite ?List.filter_app, ?analysis_calls_not_scene,
                        ?hs_calls_not_scene, ?portrait_calls_not_scene by done; simpl));
    try (split_and!; [done|done|apply sublist_nil_l|lia]).
  rewrite (proj1 (proj2 (proj2 (hs_update_frame _ _ _)))). simpl.
  rewrite app_nil_r.
  match goal with H : chained None _ |- _ => rewrite (chained_scene_calls _ _ H) end.
  match goal with H : generateCohesiveImagePrompts _ = Ok _ |- _ => rewrite H end.
  by split_and!.
Qed.

Lemma carry_failures prev cs :
  Forall (λ c, success_of c = None) cs → foldl carry prev cs = prev.
Proof.
  induction 1 as [|c cs Hc _ IH]; [done|]. simpl. unfold carry at 2. by rewrite Hc.
Qed.

Lemma chained_reference : ∀ cs prev k c,
  chained prev cs → cs !! k = Some c → reference_of c = foldl carry prev (take k cs).
Proof.
  induction cs as [|c' cs IH]; intros prev k c Hch Hk; [done|].
  destruct Hch as (_ & Href & Hch). destruct k as [|k]; simplify_eq/=; [done|]. eauto.
Qed.

Lemma success_of_truthy c img : success_of c = Some img → Js.truthy img = true.
Proof.
  destruct c as [| | | |site prompt chars prev [res|msg]|]; simpl; try done.
  destruct (Js.truthy_opt (imageBase64 res)) eqn:Htruthy; [|done].
  intros Himg. by rewrite Himg in Htruthy.
Qed.

Lemma carried_truthy cs : ∀ prev img,
  (∀ p, prev = Some p → Js.truthy p = true) →
  foldl carry prev cs = Some img → Js.truthy img = true.
Proof.
  induction cs as [|c cs IH]; intros prev img Hprev; simpl; [by apply Hprev|].
  apply IH. unfold carry. destruct (success_of c) as [p'|] eqn:Hc; [|done].
  intros p [= <-]. by eapply success_of_truthy.
Qed.

(** A request issued with a non-empty reference ends with that image as
    inline data. *)
Lemma image_request_parts_continuity finalPrompt characterImages img :
  Js.truthy img = true →
  last (image_request_parts finalPrompt characterImages (Some img))
  = Some (InlineData img "image/png").
Proof.
  intros Htruthy. unfold image_request_parts.
  cbn [Js.truthy_opt default from_option]. rewrite Htruthy, (assoc_L (++)).
  match goal with |- last (?l ++ [?a; ?b]) = _ =>
    replace (l ++ [a; b]) with ((l ++ [a]) ++ [b]) by (by rewrite <-(assoc_L (++))) end.
  apply last_snoc.
Qed.

Lemma reference_of_scene_request w available style k prev cp :
  reference_of (scene_request w available style k prev cp) = prev.
Proof. done. Qed.

(** C2: in every run, each scene-image request is issued with the image of
    the most recent earlier request of the run that succeeded, and with no
    reference when none did; the images of the run are the successes of
    these requests; a request that fails leaves the carried image unchanged,
    so a request that follows a success and, after it, only failures carries
    the image of that success.  A reference is never empty, and the request
    sent to the image service ends with it.  In a run that completes, every
    cohesive prompt whose scene index selects an element of the script is
    requested, once and in the order of the prompt list, whatever the
    requests before it gave; each request records what the image service
    gave back for it.  So with three such prompts there are three requests:
    the first has no reference, and when it succeeds and the second fails,
    the second and the third carry the image of the first. *)
Theorem continuity_reference_is_last_success (w : World) (s : AppState) :
  let final := handleGenerate w s in
  let requests := scene_calls final in
  (∀ k c, requests !! k = Some c →
          reference_of c = foldl carry None (take k requests)) ∧
  gi_base64 <$> generatedImages (st final) = omap success_of requests ∧
  (∀ prev c, success_of c = None → carry prev c = prev) ∧
  (∀ prev c img, success_of c = Some img → carry prev c = Some img) ∧
  (∀ k c img finalPrompt characterImages,
     requests !! k = Some c → reference_of c = Some img →
     last (image_request_parts finalPrompt characterImages (Some img))
     = Some (InlineData img "image/png")) ∧
  (∀ k0 k2 c0 c2 img0,
     k0 < k2 → requests !! k0 = Some c0 → requests !! k2 = Some c2 →
     success_of c0 = Some img0 →
     (∀ k c, k0 < k < k2 → requests !! k = Some c → success_of c = None) →
     reference_of c2 = Some img0) ∧
  (∀ script,
     scriptData (st final) = Some script → generationComplete (st final) = true →
     prompt_of <$> requests =
       (λ cp, Some (cp_prompt cp)) <$> prompts_in_script script (cohesivePromptsOf w)) ∧
  (∀ k c, requests !! k = Some c →
     ∃ prompt characterImages,
       c = call_generateImage SceneSite prompt (Some characterImages) (reference_of c)
             (image_answer w (styleOf s) (length (charactersToPortray w s) + k) prompt
                (Some characterImages) (reference_of c))) ∧
  (∀ script cp0 cp1 cp2 img0,
     scriptData (st final) = Some script → generationComplete (st final) = true →
     prompts_in_script script (cohesivePromptsOf w) = [cp0; cp1; cp2] →
     ∃ c0 c1 c2,
       requests = [c0; c1; c2] ∧
       reference_of c0 = None ∧
       (success_of c0 = Some img0 → success_of c1 = None →
        reference_of c1 = Some img0 ∧ reference_of c2 = Some img0)).
Proof.
  cbn zeta. destruct (handleGenerate_scene_calls w s) as (Hch & Hok & _).
  split_and!; [eauto using chained_reference|done| | | | | | |].
  - intros prev c Hc. unfold carry. by rewrite Hc.
  - intros prev c img Hc. unfold carry. by rewrite Hc.
  - intros k c img finalPrompt characterImages Hk Href.
    apply image_request_parts_continuity.
    rewrite (chained_reference _ _ _ _ Hch Hk) in Href.
    eapply carried_truthy; [|exact Href]. by intros p [=].
  - intros k0 k2 c0 c2 img0 Hlt H0 H2 Himg Hgap.
    rewrite (chained_reference _ _ _ _ Hch H2).
    rewrite <-(take_drop (S k0) (take k2 _)), take_take, Nat.min_l by lia.
    rewrite (take_S_r _ _ _ H0), !foldl_app. simpl.
    rewrite carry_failures; [unfold carry; by rewrite Himg|].
    apply Forall_lookup. intros j c Hj. rewrite lookup_drop in Hj.
    apply lookup_take_Some in Hj as [Hj ?]. apply (Hgap (S k0 + j)); [lia|done].
  - intros script Hscript Hcomplete.
    destruct (handleGenerate_scenes w s script Hscript Hcomplete) as [-> _].
    apply scene_requests_prompts.
  - apply handleGenerate_scene_answers.
  - intros script cp0 cp1 cp2 img0 Hscript Hcomplete Hprompts.
    destruct (handleGenerate_scenes w s script Hscript Hcomplete) as [Hreq _].
    rewrite Hprompts in Hreq. cbn [scene_requests] in Hreq.
    eexists _, _, _. split; [exact Hreq|]. split; [done|].
    intros H0 H1.
    match type of H0 with success_of ?c0 = _ =>
      assert (carry None c0 = Some img0) as Hcarry by (unfold carry; by rewrite H0) end.
    rewrite Hcarry in H1 |- *. rewrite !reference_of_scene_request.
    split; [done|]. unfold carry. by rewrite H1.
Qed.

(** Three scenes, the second request fails: the first request has no
    reference, the second and the third carry the image of the first. *)
Lemma continuity_reference_is_last_success_witness :
  reference_of <$> scene_calls (handleGenerate world_middle_scene_fails prompt_only_state)
  = [None; Some "IMG0"; Some "IMG0"].
Proof.
  destruct (proj2 (proj2 (proj2 (proj2 (proj2 (proj2 (proj2 (proj2
              (continuity_reference_is_last_success world_middle_scene_fails
                 prompt_only_state))))))))
             {| source_file := Some "gemini-3-pro-preview";
                title := title three_scene_script;
                scene_elements := scene_elements three_scene_script |}
             (prompt_for 0) (prompt_for 1) (prompt_for 2) "IMG0"
             eq_refl eq_refl eq_refl)
    as (c0 & c1 & c2 & Hreq & H0 & H12).
  pose proof Hreq as Hcalls. vm_compute in Hcalls. injection Hcalls as Hc0 Hc1 Hc2.
  destruct H12 as [H1 H2]; [by rewrite <-Hc0|by rewrite <-Hc1|].
  rewrite Hreq. cbn [fmap list_fmap]. by rewrite H0, H1, H2.
Defined.

(** ** The order of the generated images *)

Lemma imap_pair_fst {T} (l : list T) : ∀ n, (λ ix, ix.1) <$> imap (λ i, pair (n + i)) l = seq n (length l).
Proof.
  induction l as [|x l IH]; intros n; [done|]. simpl. rewrite Nat.add_0_r. f_equal.
  rewrite <-(IH (S n)). f_equal. apply imap_ext. intros; simpl. f_equal. lia.
Qed.

Lemma StronglySorted_lt_seq n len : StronglySorted lt (seq n len).
Proof.
  revert n. induction len as [|len IH]; intros n; simpl; constructor; [done|].
  apply Forall_forall. intros k Hk%list_elem_of_In%in_seq. lia.
Qed.

Lemma StronglySorted_sublist {T} (R : relation T) l1 l2 :
  sublist l1 l2 → StronglySorted R l2 → StronglySorted R l1.
Proof.
  induction 1 as [|x l1 l2 Hsub IH|x l1 l2 Hsub IH]; intros Hsorted; [done|..].
  - apply StronglySorted_inv in Hsorted as [Hl2 Hx]. constructor; [eauto|].
    apply Forall_forall. intros y Hy. eapply (proj1 (Forall_forall _ _) Hx).
    by eapply elem_of_sublist.
  - apply StronglySorted_inv in Hsorted as [Hl2 _]. eauto.
Qed.

Lemma sublist_List_filter {T} (p : T → bool) (l : list T) : sublist (List.filter p l) l.
Proof.
  induction l as [|x l IH]; simpl; [done|].
  destruct (p x); by constructor.
Qed.

Lemma sublist_fmap {T U} (g : T → U) (l1 l2 : list T) :
  sublist l1 l2 → sublist (g <$> l1) (g <$> l2).
Proof. induction 1; simpl; by constructor. Qed.

Lemma scenesToGenerate_ascending script :
  StronglySorted lt ((λ s, s.1) <$> scenesToGenerate script).
Proof.
  unfold scenesToGenerate, scenesWithAction.
  eapply StronglySorted_sublist;
    [|apply (StronglySorted_lt_seq 0 (length (scene_elements script)))].
  rewrite <-(imap_pair_fst (scene_elements script) 0).
  apply sublist_fmap. etrans; [apply sublist_take|]. apply sublist_List_filter.
Qed.

Lemma scenesToGenerate_elements script i el :
  (i, el) ∈ scenesToGenerate script →
  scene_elements script !! i = Some el ∧
  ∃ content, el = action (Some content) ∧ content ≠ EmptyString.
Proof.
  intros Hin. unfold scenesToGenerate in Hin.
  apply elem_of_take in Hin as (j & Hin%list_elem_of_lookup_2 & _).
  unfold scenesWithAction in Hin.
  apply list_elem_of_In, List.filter_In in Hin as [Hin Hp].
  apply list_elem_of_In, list_elem_of_lookup in Hin as [k Hk].
  rewrite list_lookup_imap in Hk.
  destruct (scene_elements script !! k) as [el'|] eqn:Hel; simplify_eq/=.
  split; [done|]. destruct el as [|[content|]| |]; try done.
  exists content. split; [done|]. by apply truthy_nonempty.
Qed.

(** The scenes submitted to the prompt service: at most 20, in strictly
    ascending order of their index, each an action element of the script
    with its non-empty content. *)
Lemma requested_scenes_spec script :
  StronglySorted lt ((λ s, s.1) <$> requested_scenes script) ∧
  length (requested_scenes script) ≤ 20 ∧
  ∀ i content, (i, content) ∈ requested_scenes script →
               scene_elements script !! i = Some (action (Some content)) ∧
               content ≠ EmptyString.
Proof.
  unfold requested_scenes. split_and!.
  - rewrite <-list_fmap_compose. apply scenesToGenerate_ascending.
  - rewrite length_fmap. unfold scenesToGenerate. rewrite length_take. lia.
  - intros i content [[j el] [[= -> ->] Hin]]%list_elem_of_fmap.
    apply scenesToGenerate_elements in Hin as (Hel & c & -> & Hc). cbn.
    apply truthy_nonempty in Hc as Htruthy. by rewrite Htruthy.
Qed.

(** C3 (amended): the scenes submitted to the prompt service are at most
    20 action elements with content, in strictly ascending [sceneIndex]
    order: so are the scenes that the request of a run to the prompt
    service carries, and a run that completes has made this request.  The
    images are generated one per cohesive prompt, in the order of the
    prompt list the service returned: in a run that completes there is one
    request for each prompt whose scene index selects an element of the
    script, each request records what the image service gave back for it,
    and the generated images are, in order, the images these requests gave
    back, each with the scene index of its prompt; the scenes whose request
    gave no image are absent.  So the final sequence of generated images is
    a subsequence of the prompt list, and it is strictly ascending by
    [sceneIndex] whenever the returned prompt list is. *)
Theorem generated_images_follow_prompt_order (w : World) (s : AppState) :
  let final := handleGenerate w s in
  let images := generatedImages (st final) in
  let requests := scene_calls final in
  (∀ script, StronglySorted lt ((λ s, s.1) <$> scenesToGenerate script) ∧
             length (scenesToGenerate script) ≤ 20 ∧
             (∀ i el, (i, el) ∈ scenesToGenerate script →
                      scene_elements script !! i = Some el ∧
                      ∃ content, el = action (Some content) ∧ content ≠ EmptyString)) ∧
  sublist (gi_sceneIndex <$> images) (cp_sceneIndex <$> cohesivePromptsOf w) ∧
  (StronglySorted lt (cp_sceneIndex <$> cohesivePromptsOf w) →
   StronglySorted lt (gi_sceneIndex <$> images)) ∧
  (∀ scenes,
     In (call_generateCohesiveImagePrompts scenes) (calls final) →
     ∃ script,
       scriptData (st final) = Some script ∧
       scenes = requested_scenes script ∧
       StronglySorted lt ((λ s, s.1) <$> scenes) ∧
       length scenes ≤ 20 ∧
       ∀ i content, (i, content) ∈ scenes →
                    scene_elements script !! i = Some (action (Some content)) ∧
                    content ≠ EmptyString) ∧
  (generationComplete (st final) = true →
   ∃ script,
     scriptData (st final) = Some script ∧
     In (call_generateCohesiveImagePrompts (requested_scenes script)) (calls final)) ∧
  (∀ script,
     scriptData (st final) = Some script → generationComplete (st final) = true →
     let submitted := prompts_in_script script (cohesivePromptsOf w) in
     length requests = length submitted ∧
     prompt_of <$> requests = (λ cp, Some (cp_prompt cp)) <$> submitted ∧
     images = images_from submitted requests) ∧
  (∀ k c, requests !! k = Some c →
     ∃ prompt characterImages,
       c = call_generateImage SceneSite prompt (Some characterImages) (reference_of c)
             (image_answer w (styleOf s) (length (charactersToPortray w s) + k) prompt
                (Some characterImages) (reference_of c))).
Proof.
  cbn zeta. destruct (handleGenerate_scene_calls w s) as (_ & _ & Hsub & _).
  split_and!; [|done|by apply StronglySorted_sublist| | | |].
  - intros script. split_and!.
    + apply scenesToGenerate_ascending.
    + unfold scenesToGenerate. rewrite length_take. lia.
    + apply scenesToGenerate_elements.
  - intros scenes Hin.
    destruct (handleGenerate_prompt_call w s scenes Hin) as (script & Hscript & ->).
    exists script. destruct (requested_scenes_spec script) as (Hsorted & Hlen & Hels).
    by split_and!.
  - apply handleGenerate_complete_prompt_call.
  - intros script Hscript Hcomplete.
    destruct (handleGenerate_scenes w s script Hscript Hcomplete) as [Hreq Himgs].
    split_and!; [|rewrite Hreq; apply scene_requests_prompts|done].
    rewrite Hreq. apply scene_requests_length.
  - apply handleGenerate_scene_answers.
Qed.

(** Three scenes, the second request fails: the images of the first and
    the third scene are generated, in this order. *)
Lemma generated_images_follow_prompt_order_witness :
  StronglySorted lt
    (gi_sceneIndex <$>
       generatedImages (st (handleGenerate world_middle_scene_fails prompt_only_state))) ∧
  generatedImages (st (handleGenerate world_middle_scene_fails prompt_only_state)) =
    images_from [prompt_for 0; prompt_for 1; prompt_for 2]
      (scene_calls (handleGenerate world_middle_scene_fails prompt_only_state)).
Proof.
  split.
  - apply (proj1 (proj2 (proj2 (generated_images_follow_prompt_order
                                  world_middle_scene_fails prompt_only_state)))).
    vm_compute. repeat constructor.
  - apply (proj2 (proj2 (proj1 (proj2 (proj2 (proj2 (proj2 (proj2
             (generated_images_follow_prompt_order world_middle_scene_fails
                prompt_only_state))))))
             {| source_file := Some "gemini-3-pro-preview";
                title := title three_scene_script;
                scene_elements := scene_elements three_scene_script |}
             eq_refl eq_refl))).
Defined.

(** The prompt service returns scene 2 before scene 0 and both images are
    generated: the final sequence is not ascending. *)
Lemma generated_images_ascending_counterexample :
  gi_sceneIndex <$>
    generatedImages (st (handleGenerate world_prompts_unordered prompt_only_state))
  = [2; 0] ∧
  ¬ StronglySorted lt
      (gi_sceneIndex <$>
         generatedImages (st (handleGenerate world_prompts_unordered prompt_only_state))).
Proof.
  split; [by vm_compute|]. intros Hsorted.
  replace (gi_sceneIndex <$> generatedImages
             (st (handleGenerate world_prompts_unordered prompt_only_state)))
    with [2; 0] in Hsorted by (by vm_compute).
  apply StronglySorted_inv in Hsorted as [_ Hfirst].
  apply Forall_cons in Hfirst as [Hlt _]. lia.
Qed.

(** ** Duplicate flags in a run *)

(** C5: in every run that reaches dialogue processing, the associations are
    processed in the order of the generated scene images and the inputs made
    from them are the ones sent to the rewrite; the input made from an
    association is flagged [isDuplicate] exactly when the element index of
    the association was consumed by an earlier association of the run, so
    the first processed occurrence of an index is not a duplicate and every
    later one is; and every processed index ends up in the consumed set. *)
Theorem dialogue_duplicates_in_run (w : World) (s : AppState) :
  fatal_failure w (textFiles s) = None →
  let final := handleGenerate w s in
  ∃ script loop,
    scriptData (st final) = Some script ∧
    associateDialogue script initial_dialogue_loop (generatedImages (st final)) = Ok loop ∧
    (∃ before, calls final = before ++ hs_calls (dialogueInputs loop)) ∧
    let ds := associations script (generatedImages (st final)) in
    length (dialogueInputs loop) = length ds ∧
    (∀ k d, ds !! k = Some d →
       ∃ input, dialogueInputs loop !! k = Some input ∧
                di_character input = dm_character d ∧
                di_originalDialogue input = dm_dialogue d ∧
                (di_isDuplicate input = true ↔
                 ∃ k' d', k' < k ∧ ds !! k' = Some d' ∧
                          dm_elementIndex d' = dm_elementIndex d)) ∧
    (∀ n, n ∈ seenDialogueIndices loop ↔ ∃ k d, ds !! k = Some d ∧ dm_elementIndex d = n).
Proof.
  intros Hfatal. cbn zeta.
  destruct (handleGenerate_completed w s Hfatal)
    as (script & imgs & dl & Hscript & Himgs & Hdl & Hin & _ & _ & Hcalls).
  rewrite Himgs.
  destruct (associateDialogue_flags script imgs (in_script_le _ _ Hin))
    as (dl' & Hdl' & Hflags).
  rewrite Hdl in Hdl'. injection Hdl' as <-.
  cbn zeta in Hflags. destruct Hflags as (Hlen & Hdup & Hseen).
  exists script, dl. split_and!; done.
Qed.

(** Scenes 0 and 2 of the shared-line script are generated: the run reaches
    dialogue processing. *)
Lemma dialogue_duplicates_in_run_witness :
  ∃ script loop,
    scriptData (st (handleGenerate world_shared_line prompt_only_state)) = Some script ∧
    associateDialogue script initial_dialogue_loop
      (generatedImages (st (handleGenerate world_shared_line prompt_only_state))) = Ok loop.
Proof.
  destruct (dialogue_duplicates_in_run world_shared_line prompt_only_state eq_refl)
    as (script & loop & Hscript & Hloop & _).
  exists script, loop. split; [exact Hscript|exact Hloop].
Defined.

(** In that run both scenes use the dialogue block at index 1: the second
    input sent to the rewrite is the duplicate. *)
Example shared_line_flags :
  last (calls (handleGenerate world_shared_line prompt_only_state)) =
  Some (call_generateHS3000Dialogue
          [ {| di_character := "A"; di_originalDialogue := "Who is there?";
               di_isDuplicate := false |};
            {| di_character := "A"; di_originalDialogue := "Who is there?";
               di_isDuplicate := true |} ]).
Proof. by vm_compute. Qed.

(** ** The dialogue rewrite and its fallback *)

(** [first_segment text] is the text before the first of [.], [!], [?]. *)
Lemma first_segment_spec text :
  has_terminator (Js.first_segment text) = false ∧
  ∃ rest, text = Js.first_segment text +:+ rest ∧
          (rest = EmptyString ∨
           ∃ c rest', rest = String c rest' ∧ Js.is_terminator c = true).
Proof.
  induction text as [|c text [IHno (rest & IHeq & IHrest)]]; simpl.
  - split; [done|]. exists EmptyString. by split; [|left].
  - destruct (Js.is_terminator c) eqn:Hc; simpl.
    + split; [done|]. exists (String c text). split; [done|]. right. eauto.
    + rewrite Hc, IHno. split; [done|]. exists rest. split; [|done].
      by rewrite IHeq at 1.
Qed.

(** The lines of a run that completes: those of the rewrite of the inputs
    made from the associations, and none when no scene has an
    association. *)
Lemma handleGenerate_lines w s script :
  scriptData (st (handleGenerate w s)) = Some script →
  generationComplete (st (handleGenerate w s)) = true →
  ∃ inputs,
    length inputs = length (associations script (generatedImages (st (handleGenerate w s)))) ∧
    hs3000Lines (st (handleGenerate w s)) =
      if 0 <? length inputs
      then generateHS3000Dialogue (w_generateHS3000Dialogue w) inputs
      else [].
Proof.
  intros Hscript Hcomplete.
  destruct (handleGenerate_final w s) as (_ & _ & _ & _ & Hfatal).
  rewrite Hcomplete in Hfatal. symmetry in Hfatal. apply bool_decide_eq_true in Hfatal.
  destruct (handleGenerate_completed w s Hfatal)
    as (script' & imgs & dl & Hscript' & Himgs & Hdl & Hin & Hlines & _ & _).
  rewrite Hscript in Hscript'. injection Hscript' as <-. rewrite Himgs, Hlines.
  destruct (associateDialogue_length script imgs (in_script_le _ _ Hin))
    as (dl' & Hdl' & Hlen).
  rewrite Hdl in Hdl'. injection Hdl' as <-. by exists (dialogueInputs dl).
Qed.

(** C8 (amended): when the rewrite call fails entirely, the fallback makes
    exactly one line per input, in order, with the character of the input
    and the text of the original dialogue before its first sentence
    terminator, followed by a full stop; a run that completes then has
    exactly one dialogue line per associated scene.  When the service
    answers, the lines are the ones it returned, whatever their number:
    these are the lines of a run that completes with at least one
    associated scene.  A run that completes without an associated scene has
    no line. *)
Theorem rewrite_fallback_one_line_per_input (w : World) (s : AppState) :
  let final := st (handleGenerate w s) in
  (rewrite_failed (w_generateHS3000Dialogue w) = true →
   (∀ inputs,
      let lines := generateHS3000Dialogue (w_generateHS3000Dialogue w) inputs in
      length lines = length inputs ∧
      ∀ k input, inputs !! k = Some input →
        lines !! k =
          Some {| hl_character := di_character input;
                  hl_dialogue := Js.first_segment (di_originalDialogue input) +:+ "." |}) ∧
   (generationComplete final = true →
    ∃ script,
      scriptData final = Some script ∧
      length (hs3000Lines final) =
        length (associations script (generatedImages final)))) ∧
  (∀ text,
     has_terminator (Js.first_segment text) = false ∧
     ∃ rest, text = Js.first_segment text +:+ rest ∧
             (rest = EmptyString ∨
              ∃ c rest', rest = String c rest' ∧ Js.is_terminator c = true)) ∧
  (∀ lines,
     w_generateHS3000Dialogue w = RawJson lines →
     (∀ inputs,
        generateHS3000Dialogue (w_generateHS3000Dialogue w) inputs = default [] lines) ∧
     (∀ script,
        scriptData final = Some script → generationComplete final = true →
        associations script (generatedImages final) ≠ [] →
        hs3000Lines final = default [] lines)) ∧
  (∀ script,
     scriptData final = Some script → generationComplete final = true →
     associations script (generatedImages final) = [] →
     hs3000Lines final = []).
Proof.
  cbn zeta. split_and!.
  - intros Hfailed.
    assert (∀ inputs, generateHS3000Dialogue (w_generateHS3000Dialogue w) inputs
                      = fallback_line <$> inputs) as Hfallback.
    { intros inputs. by destruct (w_generateHS3000Dialogue w). }
    split.
    + intros inputs. cbn zeta. rewrite Hfallback. split; [by rewrite length_fmap|].
      intros k input Hk. by rewrite list_lookup_fmap, Hk.
    + intros Hcomplete.
      destruct (handleGenerate_final w s) as (_ & _ & _ & _ & Hfatal).
      rewrite Hcomplete in Hfatal. symmetry in Hfatal.
      apply bool_decide_eq_true in Hfatal.
      destruct (handleGenerate_completed w s Hfatal)
        as (script & imgs & dl & -> & -> & Hdl & Hin & -> & _ & _).
      exists script. split; [done|].
      destruct (associateDialogue_length script imgs (in_script_le _ _ Hin))
        as (dl' & Hdl' & Hlen).
      rewrite Hdl in Hdl'. injection Hdl' as <-. rewrite <-Hlen.
      destruct (0 <? length (dialogueInputs dl)) eqn:Hpos.
      * by rewrite Hfallback, length_fmap.
      * apply Nat.ltb_ge in Hpos. simpl. lia.
  - apply first_segment_spec.
  - intros lines Hlines. split; [intros inputs; by rewrite Hlines|].
    intros script Hscript Hcomplete Hassoc.
    destruct (handleGenerate_lines w s script Hscript Hcomplete) as (inputs & Hlen & ->).
    destruct (0 <? length inputs) eqn:Hpos; [by rewrite Hlines|].
    apply Nat.ltb_ge in Hpos.
    destruct (associations script _); [done|]. simpl in Hlen. lia.
  - intros script Hscript Hcomplete Hassoc.
    destruct (handleGenerate_lines w s script Hscript Hcomplete) as (inputs & Hlen & ->).
    rewrite Hassoc in Hlen. simpl in Hlen.
    destruct (0 <? length inputs) eqn:Hpos; [|done].
    apply Nat.ltb_lt in Hpos. lia.
Qed.

(** The rewrite service is down: the run has one line for its one
    associated scene.  The rewrite service returns two lines for one
    associated scene: the run has these two lines. *)
Lemma rewrite_fallback_one_line_per_input_witness :
  (∃ script,
     scriptData (st (handleGenerate world_rewrite_down prompt_only_state)) = Some script ∧
     length (hs3000Lines (st (handleGenerate world_rewrite_down prompt_only_state))) =
       length (associations script
                 (generatedImages
                    (st (handleGenerate world_rewrite_down prompt_only_state))))) ∧
  hs3000Lines (st (handleGenerate world_two_lines prompt_only_state)) =
    [ {| hl_character := "A"; hl_dialogue := "Hello." |};
      {| hl_character := "A"; hl_dialogue := "There." |} ].
Proof.
  split.
  - apply (proj2 (proj1 (rewrite_fallback_one_line_per_input world_rewrite_down
                           prompt_only_state) eq_refl)).
    reflexivity.
  - apply (proj2 (proj1 (proj2 (proj2
             (rewrite_fallback_one_line_per_input world_two_lines prompt_only_state)))
             (Some [ {| hl_character := "A"; hl_dialogue := "Hello." |};
                     {| hl_character := "A"; hl_dialogue := "There." |} ])
             eq_refl)
             {| source_file := Some "gemini-3-pro-preview";
                title := title example_script;
                scene_elements := scene_elements example_script |}).
    + reflexivity.
    + reflexivity.
    + by vm_compute.
Defined.

(** The rewrite service answers with no line at all: the run completes with
    one associated scene and no dialogue line. *)
Lemma one_line_per_scene_counterexample :
  let final := st (handleGenerate world_no_lines prompt_only_state) in
  error final = None ∧
  length (associations example_script (generatedImages final)) = 1 ∧
  length (hs3000Lines final) = 0.
Proof. cbn zeta. split_and!; by vm_compute. Qed.

(** ** Authentication failures *)

Lemma rethrow_auth {T} details raw :
  is_auth_error raw = true → @rethrow T details raw = Throw authentication_failed.
Proof. unfold rethrow. by intros ->. Qed.

Lemma storyElementsOf_Throw w tf msg :
  storyElementsOf w tf = Throw msg →
  (0 <? length tf) = true ∧ analyzeStoryInputs tf (w_analyzeStoryInputs w) = Throw msg.
Proof. unfold storyElementsOf. by destruct (0 <? length tf). Qed.

(** The error of a fatal stage that the service refused for the
    credentials is the authentication failure. *)
Lemma fatal_failure_auth w tf stage msg raw :
  fatal_failure w tf = Some (stage, msg) →
  stage_raw_failure w stage = Some raw →
  is_auth_error raw = true →
  msg = authentication_failed.
Proof.
  unfold fatal_failure, stage_raw_failure. intros Hfatal Hraw Hauth.
  destruct (storyElementsOf w tf) as [se|m] eqn:Hse.
  2:{ simplify_eq. apply storyElementsOf_Throw in Hse as [Hpos Hse].
      unfold analyzeStoryInputs in Hse.
      destruct (length tf =? 0) eqn:Hlen.
      { apply Nat.eqb_eq in Hlen. rewrite Hlen in Hpos. done. }
      destruct (w_analyzeStoryInputs w); simplify_eq/=.
      rewrite rethrow_auth in Hse by done. congruence. }
  destruct (generateStory _) as [script|m] eqn:Hscript.
  2:{ simplify_eq. unfold generateStory in Hscript.
      destruct (w_generateStory w); simplify_eq/=.
      rewrite rethrow_auth in Hscript by done. congruence. }
  destruct (analyzeCharacterDescriptions _) as [characters|m] eqn:Hchars.
  2:{ simplify_eq. unfold analyzeCharacterDescriptions in Hchars.
      destruct (w_analyzeCharacterDescriptions w); simplify_eq/=.
      rewrite rethrow_auth in Hchars by done. congruence. }
  destruct (generateCohesiveImagePrompts _) as [cps|m] eqn:Hcps; [done|].
  simplify_eq. unfold generateCohesiveImagePrompts in Hcps.
  destruct (w_generateCohesiveImagePrompts w); simplify_eq/=.
  rewrite rethrow_auth in Hcps by done. congruence.
Qed.

(** The calls of a failed run end with the call of the failing stage, which
    was not called before. *)
Lemma failed_run_calls w s stage msg :
  fatal_failure w (textFiles s) = Some (stage, msg) →
  ∃ before c,
    calls (handleGenerate w s) = before ++ [c] ∧
    is_stage_call stage c = true ∧
    Forall (λ c', is_stage_call stage c' = false) before.
Proof.
  intros Hfatal. destruct (handleGenerate_outcome w s) as (res & r1 & Hout & ->).
  unfold fatal_failure in Hfatal.
  destruct Hout as [m rep Hse|se m rep Hse Hscript|se script m rep Hse Hscript Hchars
                   |se script characters f pcs m rep n Hse Hscript Hchars Hpcs Hplen Hcps|];
    forget_requests; stage_equations Hfatal; simplify_eq; unfold settle; simpl.
  - apply storyElementsOf_Throw in Hse as [Hpos _]. unfold analysis_calls. rewrite Hpos.
    by exists [], call_analyzeStoryInputs.
  - exists (analysis_calls (textFiles s)), call_generateStory. split_and!; [done..|].
    unfold analysis_calls. destruct (0 <? _); by repeat constructor.
  - exists (analysis_calls (textFiles s) ++ [call_generateStory]),
           call_analyzeCharacterDescriptions.
    rewrite <-(assoc_L (++)). split_and!; [done..|].
    unfold analysis_calls. destruct (0 <? _); by repeat constructor.
  - exists (analysis_calls (textFiles s)
            ++ [call_generateStory; call_analyzeCharacterDescriptions] ++ pcs),
           (call_generateCohesiveImagePrompts (requested_scenes script)).
    rewrite <-!(assoc_L (++)). split_and!; [done..|].
    apply Forall_app. split; [unfold analysis_calls; destruct (0 <? _); by repeat constructor|].
    repeat constructor. by apply (portrait_calls_not_stage GenerateCohesivePrompts).
Qed.

Lemma filter_length_app {T} (p : T → bool) (l1 l2 : list T) :
  length (List.filter p (l1 ++ l2)) = length (List.filter p l1) + length (List.filter p l2).
Proof. by rewrite List.filter_app, length_app. Qed.

Lemma filter_length_cons {T} (p : T → bool) (x : T) (l : list T) :
  length (List.filter p (x :: l)) = (if p x then 1 else 0) + length (List.filter p l).
Proof. simpl. by destruct (p x). Qed.

Lemma analysis_calls_count (p : Call → bool) tf :
  length (List.filter p (analysis_calls tf)) ≤ if p call_analyzeStoryInputs then 1 else 0.
Proof.
  unfold analysis_calls. destruct (0 <? length tf); simpl; destruct (p _); simpl; lia.
Qed.

Lemma hs_calls_count (p : Call → bool) inputs :
  length (List.filter p (hs_calls inputs)) ≤
  if p (call_generateHS3000Dialogue inputs) then 1 else 0.
Proof.
  unfold hs_calls. destruct (0 <? length inputs); simpl; destruct (p _); simpl; lia.
Qed.

(** No service is called again: every text service is called at most once
    in a run, and the image service at most once for each character and
    each cohesive prompt. *)
Lemma handleGenerate_no_retry w s :
  (∀ stage, count_calls (is_stage_call stage) (handleGenerate w s) ≤ 1) ∧
  count_calls is_rewrite_call (handleGenerate w s) ≤ 1 ∧
  count_calls is_image_call (handleGenerate w s)
    ≤ length (charactersOf w) + length (cohesivePromptsOf w).
Proof.
  destruct (handleGenerate_outcome w s) as (res & r1 & Hout & ->).
  unfold count_calls, charactersOf, cohesivePromptsOf.
  assert (∀ p, length (List.filter p (analysis_calls (textFiles s)))
               ≤ if p call_analyzeStoryInputs then 1 else 0) as Hanalysis
    by (intros; apply analysis_calls_count).
  destruct Hout as [m rep Hse|se m rep Hse Hscript|se script m rep Hse Hscript Hchars
                   |se script characters f pcs m rep n Hse Hscript Hchars Hpcs Hplen Hcps
                   |se script characters f pcs cps imgs scs dl rep n Hse Hscript Hchars
                      Hpcs Hplen Hcps Hch Hslen Hsub Hin Hok Hdl];
    unfold settle; cbn [calls initial_run app]; rewrite ?Hchars, ?Hcps;
    (split_and!; [intros stage; specialize (Hanalysis (is_stage_call stage))
                 |specialize (Hanalysis is_rewrite_call)
                 |specialize (Hanalysis is_image_call)]);
    repeat (progress rewrite ?filter_length_app, ?filter_length_cons);
    try (pose proof (hs_calls_count (is_stage_call stage) (dialogueInputs dl)) as Hhs);
    try (pose proof (hs_calls_count is_rewrite_call (dialogueInputs dl)) as Hhs2);
    try (pose proof (hs_calls_count is_image_call (dialogueInputs dl)) as Hhs3);
    try apply chained_Forall in Hch;
    rewrite ?(filter_none _ pcs (portrait_calls_not_stage stage _ Hpcs)),
            ?(filter_none _ pcs (portrait_calls_not_rewrite _ Hpcs)),
            ?(filter_none _ scs (scene_calls_not_stage stage _ Hch)),
            ?(filter_none _ scs (scene_calls_not_rewrite _ Hch));
    try (pose proof (List.filter_length_le is_image_call pcs));
    try (pose proof (List.filter_length_le is_image_call scs));
    repeat match goal with
           | H : context [length (List.filter ?p (analysis_calls ?tf))] |- _ =>
               set (length (List.filter p (analysis_calls tf))) in *
           | H : context [length (List.filter ?p (hs_calls ?inputs))] |- _ =>
               set (length (List.filter p (hs_calls inputs))) in *
           end;
    try destruct stage; simpl in *; lia.
Qed.

(** The service layer raises a refusal of the image model for the
    credentials as the authentication error. *)
Lemma generateImage_auth service prompt characterImages previous style aspectRatio raw :
  service (image_request_parts
             ("Style: " +:+ Js.or_else style "cinematic, photorealistic" +:+ ". " +:+ prompt)
             characterImages previous)
          (Js.or_else aspectRatio "1:1") = ImageThrows raw →
  is_auth_error raw = true → Js.includes raw "SAFETY" = false →
  generateImage service prompt characterImages previous style aspectRatio
  = Throw authentication_failed.
Proof.
  intros Hanswer Hauth Hsafety. unfold generateImage. rewrite Hanswer.
  unfold image_catch. rewrite Hsafety. by apply rethrow_auth.
Qed.

(** A portrait request that throws leaves the portraits as they were. *)
Lemma portraitItem_caught w style newPortraits i char r msg :
  image_answer w style (imageRequests r) (portrait_prompt char) None None = Throw msg →
  let r' := (portraitItem w style newPortraits (i, char) r).2 in
  (portraitItem w style newPortraits (i, char) r).1 = Ok newPortraits ∧
  generatedCharacterPortraits (st r') = generatedCharacterPortraits (st r) ∧
  error (st r') = error (st r) ∧
  calls r' =
    calls r ++ [call_generateImage PortraitSite (portrait_prompt char) None None (Throw msg)].
Proof.
  intros Hthrow. cbn zeta.
  destruct (portraitItem_run w style newPortraits (i, char) r) as (rep & ->).
  cbn [fst snd st calls]. unfold store_portrait, portrait_request, portrait_answer.
  rewrite Hthrow. cbn [portrait_from]. by rewrite setGeneratedCharacterPortraits_id.
Qed.

(** A scene request that throws leaves the images and the continuity
    reference as they were. *)
Lemma sceneIteration_caught w script available style total loop i cp r el msg :
  scene_elements script !! cp_sceneIndex cp = Some el →
  image_answer w style (imageRequests r) (cp_prompt cp)
    (Some (resolveCharacters available (cp_characters cp)).1)
    (previousImageBase64 loop) = Throw msg →
  let r' := (sceneIteration w script available style total loop (i, cp) r).2 in
  (sceneIteration w script available style total loop (i, cp) r).1 = Ok loop ∧
  generatedImages (st r') = generatedImages (st r) ∧
  error (st r') = error (st r) ∧
  calls r' =
    calls r ++ [call_generateImage SceneSite (cp_prompt cp)
                  (Some (resolveCharacters available (cp_characters cp)).1)
                  (previousImageBase64 loop) (Throw msg)].
Proof.
  intros Hel Hthrow. cbn zeta. unfold sceneIteration, try_catch. rewrite Hel.
  destruct (resolveCharacters available (cp_characters cp)) as [forGen usedLog].
  unfold image_answer in Hthrow. cbn [fst] in Hthrow.
  unfold bind, callImage. rewrite Hthrow. done.
Qed.

(** The rewrite request of a run is its last step that can fail: the run
    completes, without error, with the lines of the rewrite. *)
Lemma handleGenerate_rewrite_call w s inputs :
  In (call_generateHS3000Dialogue inputs) (calls (handleGenerate w s)) →
  generationComplete (st (handleGenerate w s)) = true ∧
  error (st (handleGenerate w s)) = None ∧
  hs3000Lines (st (handleGenerate w s)) =
    generateHS3000Dialogue (w_generateHS3000Dialogue w) inputs.
Proof.
  destruct (handleGenerate_outcome w s) as (res & r1 & Hout & ->).
  intros Hin.
  assert (In (call_generateHS3000Dialogue inputs)
             (List.filter is_rewrite_call (calls (settle res r1)))) as Hfilter
    by (by apply List.filter_In).
  clear Hin. revert Hfilter.
  destruct Hout as [m rep Hse|se m rep Hse Hscript|se sc m rep Hse Hscript Hchars
                   |se sc characters f pcs m rep n Hse Hscript Hchars Hpcs Hplen Hcps
                      Hpcseq Hf
                   |se sc characters f pcs cps imgs scs dl rep n Hse Hscript Hchars
                      Hpcs Hplen Hcps Hch Hslen Hsub Hin Hok Hdl Hpcseq Hf Hscs Himgs];
    unfold settle; cbn [st calls initial_run app];
    repeat (progress (rewrite ?List.filter_app,
                        ?(analysis_calls_filter is_rewrite_call),
                        ?(filter_none _ pcs (portrait_calls_not_rewrite _ Hpcs)) by done;
                      cbn [List.filter is_rewrite_call app])); try done.
  rewrite (filter_none _ scs (scene_calls_not_rewrite _ (chained_Forall _ _ Hch))).
  cbn [app]. unfold hs_calls, hs_update.
  destruct (0 <? length (dialogueInputs dl)); [|done].
  cbn. intros [[= <-]|[]]. done.
Qed.

(** C9 (amended): an authentication failure of a fatal stage (story
    analysis, script generation, character analysis, cohesive prompts) is
    raised by the service layer as the authentication error and becomes the
    error of the run as it is; the call of that stage is the last service
    call of the run and was not made before.  The image service raises a
    refusal for the credentials as the same authentication error, but in
    the per-item stages an error of one portrait or scene-image request, an
    authentication failure included, is caught at that item: the item ends
    normally, with the portraits, the images, the continuity reference and
    the error of the run as they were, and the stage goes on, so that once the script is generated
    the run requests a portrait for every character to portray, and a run
    that completes has issued a request for every prompt whose scene index
    selects an element of the script.  In the dialogue rewrite a failure is
    replaced by the local fallback: a run that called the rewrite completes
    without error, and with the fallback lines when the call was refused.
    No call is retried: every text service is called at most once, the
    image service at most once per character and per prompt. *)
Theorem authentication_failure_propagation (w : World) (s : AppState) :
  let final := handleGenerate w s in
  (∀ stage msg raw,
     fatal_failure w (textFiles s) = Some (stage, msg) →
     stage_raw_failure w stage = Some raw →
     is_auth_error raw = true →
     msg = authentication_failed ∧
     error (st final) = Some authentication_failed ∧
     ∃ before c, calls final = before ++ [c] ∧ is_stage_call stage c = true ∧
                 Forall (λ c', is_stage_call stage c' = false) before) ∧
  (∀ service prompt characterImages previous style aspectRatio raw,
     service (image_request_parts
                ("Style: " +:+ Js.or_else style "cinematic, photorealistic" +:+ ". "
                 +:+ prompt)
                characterImages previous)
             (Js.or_else aspectRatio "1:1") = ImageThrows raw →
     is_auth_error raw = true → Js.includes raw "SAFETY" = false →
     generateImage service prompt characterImages previous style aspectRatio
     = Throw authentication_failed) ∧
  (∀ style newPortraits ichar r,
     ∃ newPortraits', (portraitItem w style newPortraits ichar r).1 = Ok newPortraits') ∧
  (∀ script available style total loop icp r,
     ∃ loop', (sceneIteration w script available style total loop icp r).1 = Ok loop') ∧
  (∀ style newPortraits i char r msg,
     image_answer w style (imageRequests r) (portrait_prompt char) None None = Throw msg →
     let r' := (portraitItem w style newPortraits (i, char) r).2 in
     (portraitItem w style newPortraits (i, char) r).1 = Ok newPortraits ∧
     generatedCharacterPortraits (st r') = generatedCharacterPortraits (st r) ∧
     error (st r') = error (st r) ∧
     calls r' =
       calls r ++ [call_generateImage PortraitSite (portrait_prompt char) None None
                     (Throw msg)]) ∧
  (∀ script available style total loop i cp r el msg,
     scene_elements script !! cp_sceneIndex cp = Some el →
     image_answer w style (imageRequests r) (cp_prompt cp)
       (Some (resolveCharacters available (cp_characters cp)).1)
       (previousImageBase64 loop) = Throw msg →
     let r' := (sceneIteration w script available style total loop (i, cp) r).2 in
     (sceneIteration w script available style total loop (i, cp) r).1 = Ok loop ∧
     generatedImages (st r') = generatedImages (st r) ∧
     error (st r') = error (st r) ∧
     calls r' =
       calls r ++ [call_generateImage SceneSite (cp_prompt cp)
                     (Some (resolveCharacters available (cp_characters cp)).1)
                     (previousImageBase64 loop) (Throw msg)]) ∧
  (∀ script,
     scriptData (st final) = Some script →
     portrait_calls final = portrait_requests w (styleOf s) 0 (charactersToPortray w s)) ∧
  (∀ script,
     scriptData (st final) = Some script → generationComplete (st final) = true →
     prompt_of <$> scene_calls final =
       (λ cp, Some (cp_prompt cp)) <$> prompts_in_script script (cohesivePromptsOf w)) ∧
  (∀ raw inputs, generateHS3000Dialogue (RawThrows raw) inputs = fallback_line <$> inputs) ∧
  (∀ inputs,
     In (call_generateHS3000Dialogue inputs) (calls final) →
     generationComplete (st final) = true ∧
     error (st final) = None ∧
     hs3000Lines (st final) = generateHS3000Dialogue (w_generateHS3000Dialogue w) inputs ∧
     (rewrite_failed (w_generateHS3000Dialogue w) = true →
      hs3000Lines (st final) = fallback_line <$> inputs)) ∧
  (∀ stage', count_calls (is_stage_call stage') final ≤ 1) ∧
  count_calls is_rewrite_call final ≤ 1 ∧
  count_calls is_image_call final ≤ length (charactersOf w) + length (cohesivePromptsOf w).
Proof.
  cbn zeta.
  destruct (handleGenerate_no_retry w s) as (Hstages & Hrewrite & Himages).
  split_and!; [| | | | | | | |done| |done|done|done].
  - intros stage msg raw Hfatal Hraw Hauth.
    pose proof (fatal_failure_auth _ _ _ _ _ Hfatal Hraw Hauth) as ->.
    split_and!; [done| |by eapply failed_run_calls].
    by rewrite handleGenerate_error, Hfatal.
  - apply generateImage_auth.
  - intros style np ichar r.
    destruct (portraitItem_run w style np ichar r) as (rep & ->). eauto.
  - intros script available style total loop icp r.
    destruct (sceneIteration_run w script available style total loop icp r)
      as (loop' & ? & ? & ? & ? & -> & _). eauto.
  - apply portraitItem_caught.
  - apply sceneIteration_caught.
  - intros script Hscript. by apply (handleGenerate_portraits w s script).
  - intros script Hscript Hcomplete.
    destruct (handleGenerate_scenes w s script Hscript Hcomplete) as [-> _].
    apply scene_requests_prompts.
  - intros inputs Hin.
    destruct (handleGenerate_rewrite_call w s inputs Hin) as (Hcomplete & Herror & Hlines).
    split_and!; [done..|]. intros Hfailed. rewrite Hlines.
    by destruct (w_generateHS3000Dialogue w).
Qed.

(** Script generation is refused for the credentials: the run ends with the
    authentication error.  The one portrait request of a run is refused for
    the credentials: it is the only portrait request, and the run goes on
    to request the prompts. *)
Lemma authentication_failure_propagation_witness :
  error (st (handleGenerate world_script_denied prompt_only_state))
  = Some authentication_failed ∧
  portrait_calls (handleGenerate world_items_denied prompt_only_state) =
    [ call_generateImage PortraitSite (portrait_prompt zed) None None
        (Throw authentication_failed) ].
Proof.
  split.
  - apply (proj1 (proj2
             (proj1 (authentication_failure_propagation world_script_denied
                       prompt_only_state)
                GenerateScript authentication_failed "403 PERMISSION_DENIED"
                eq_refl eq_refl eq_refl))).
  - etrans.
    + apply (proj1 (proj2 (proj2 (proj2 (proj2 (proj2 (proj2
               (authentication_failure_propagation world_items_denied
                  prompt_only_state)))))))
               {| source_file := Some "gemini-3-pro-preview";
                  title := title example_script;
                  scene_elements := scene_elements example_script |}).
      reflexivity.
    + reflexivity.
Defined.

(** The portrait request and the dialogue rewrite are refused for the
    credentials: the authentication failure of the portrait is caught, the
    rewrite falls back, and the run completes without error. *)
Lemma authentication_failure_per_item_counterexample :
  let final := handleGenerate world_items_denied prompt_only_state in
  calls final !! 2 =
    Some (call_generateImage PortraitSite (portrait_prompt zed) None None
            (Throw authentication_failed)) ∧
  w_generateHS3000Dialogue world_items_denied = RawThrows "PERMISSION_DENIED" ∧
  length (calls final) = 6 ∧
  error (st final) = None ∧
  generationComplete (st final) = true.
Proof. cbn zeta. split_and!; by vm_compute. Qed.

(** * Properties of the code around the orchestrator *)

(** ** Text helpers *)

#[local] Arguments String.append !_ _ / : simpl nomatch.

Lemma append_assoc_L (a b c : string) : (a +:+ b) +:+ c = a +:+ (b +:+ c).
Proof. induction a as [|x a IH]; simpl; [done|]. by rewrite IH. Qed.

Ltac str_assoc :=
  repeat match goal with
         | |- context [(?a +:+ ?b) +:+ ?c] => rewrite (append_assoc_L a b c)
         end.

Lemma append_nil_r (a : string) : a +:+ EmptyString = a.
Proof. induction a as [|x a IH]; simpl; [done|]. by rewrite IH. Qed.

Lemma all_chars_app p a b :
  JsText.all_chars p (a +:+ b) = JsText.all_chars p a && JsText.all_chars p b.
Proof. induction a as [|x a IH]; simpl; [done|]. rewrite IH. by destruct (p x). Qed.

Lemma map_chars_app f a b : Js.map_chars f (a +:+ b) = Js.map_chars f a +:+ Js.map_chars f b.
Proof. induction a as [|x a IH]; simpl; [done|]. by rewrite IH. Qed.

Lemma map_chars_length f a : String.length (Js.map_chars f a) = String.length a.
Proof. induction a as [|x a IH]; simpl; [done|]. by rewrite IH. Qed.

Lemma all_chars_map_chars p f a :
  JsText.all_chars p (Js.map_chars f a) = JsText.all_chars (λ c, p (f c)) a.
Proof. induction a as [|x a IH]; simpl; [done|]. by rewrite IH. Qed.

Lemma all_chars_impl (p q : ascii → bool) a :
  (∀ c, p c = true → q c = true) → JsText.all_chars p a = true → JsText.all_chars q a = true.
Proof.
  intros Hpq. induction a as [|x a IH]; simpl; [done|].
  intros [Hx Ha]%andb_true_iff. by rewrite (Hpq _ Hx), IH.
Qed.

(** Splitting: a text without the separator is one segment, and the
    separator starts a new one. *)
Lemma segments_free sep a :
  JsText.all_chars (λ c, negb (Ascii.eqb c sep)) a = true →
  JsText.segments sep a = (a, []).
Proof.
  induction a as [|x a IH]; simpl; [done|].
  intros [Hx Ha]%andb_true_iff. rewrite (IH Ha).
  by destruct (Ascii.eqb x sep).
Qed.

Lemma split_app sep a b :
  JsText.all_chars (λ c, negb (Ascii.eqb c sep)) a = true →
  JsText.split sep (a +:+ String sep b) = a :: JsText.split sep b.
Proof.
  unfold JsText.split. induction a as [|x a IH]; simpl.
  - intros _. destruct (JsText.segments sep b) as [seg segs]. by rewrite Ascii.eqb_refl.
  - intros [Hx Ha]%andb_true_iff. specialize (IH Ha).
    destruct (JsText.segments sep (a +:+ String sep b)) as [seg segs].
    destruct (JsText.segments sep b) as [seg' segs']. simplify_eq.
    by destruct (Ascii.eqb x sep).
Qed.

Lemma split_free sep a :
  JsText.all_chars (λ c, negb (Ascii.eqb c sep)) a = true → JsText.split sep a = [a].
Proof. intros Ha. unfold JsText.split. by rewrite (segments_free _ _ Ha). Qed.

Lemma split_join sep parts :
  parts ≠ [] →
  Forall (λ p, JsText.all_chars (λ c, negb (Ascii.eqb c sep)) p = true) parts →
  JsText.split sep (Js.join (String sep EmptyString) parts) = parts.
Proof.
  induction parts as [|p parts IH]; [done|]. intros _ Hall.
  apply Forall_cons in Hall as [Hp Hparts].
  destruct parts as [|q parts]; [by apply split_free|].
  change (Js.join (String sep EmptyString) (p :: q :: parts))
    with (p +:+ String sep (Js.join (String sep EmptyString) (q :: parts))).
  rewrite split_app by done. f_equal. by apply IH.
Qed.

(** X1: the summary file has one line per dialogue line, in order:
    when no character name and no dialogue contains a line feed, cutting
    the content at its line feeds gives back, for each line, the character,
    a space and the dialogue between double quotes.  Without lines the file
    is empty. *)
Theorem generateHs3000Content_one_line_each (lines : list Hs3000Line) :
  lines ≠ [] →
  Forall (λ line, single_line (hl_character line) = true ∧
                  single_line (hl_dialogue line) = true) lines →
  JsText.split (Ascii.ascii_of_nat 10) (generateHs3000Content lines) =
    (λ line, hl_character line +:+ " " +:+ Js.dq +:+ hl_dialogue line +:+ Js.dq) <$> lines ∧
  generateHs3000Content [] = EmptyString.
Proof.
  intros Hne Hall. split; [|done]. unfold generateHs3000Content.
  apply split_join; [by destruct lines|].
  apply Forall_fmap. eapply Forall_impl; [exact Hall|].
  intros line [Hc Hd]. unfold compose, single_line in *.
  by rewrite 4 all_chars_app, Hc, Hd.
Qed.

Lemma generateHs3000Content_one_line_each_witness :
  JsText.split (Ascii.ascii_of_nat 10)
    (generateHs3000Content
       [ {| hl_character := "A"; hl_dialogue := "Hello there." |};
         {| hl_character := "B"; hl_dialogue := "Well?" |} ]) =
  [ "A " +:+ Js.dq +:+ "Hello there." +:+ Js.dq; "B " +:+ Js.dq +:+ "Well?" +:+ Js.dq ].
Proof.
  apply (generateHs3000Content_one_line_each
           [ {| hl_character := "A"; hl_dialogue := "Hello there." |};
             {| hl_character := "B"; hl_dialogue := "Well?" |} ]).
  - done.
  - repeat constructor.
Defined.

(** ** The text of the script *)

Lemma foldl_append {T} (f : T → string) (l : list T) (acc : string) :
  foldl (λ text x, text +:+ f x) acc l = acc +:+ String.concat EmptyString (f <$> l).
Proof.
  revert acc. induction l as [|x l IH]; intros acc; simpl.
  - by rewrite append_nil_r.
  - rewrite IH. destruct l as [|y l]; simpl.
    + by rewrite !append_nil_r.
    + by rewrite append_assoc_L.
Qed.

Lemma appendElement_text text el : appendElement text el = text +:+ elementText el.
Proof.
  unfold elementText. destruct el as [c|c|c|character elements]; try done.
  cbn [appendElement]. rewrite !foldl_append. by str_assoc.
Qed.

Lemma foldl_appendElement els text :
  foldl appendElement text els = text +:+ String.concat EmptyString (elementText <$> els).
Proof.
  rewrite <-foldl_append. revert text.
  induction els as [|el els IH]; intros text; [done|]. cbn [foldl].
  by rewrite appendElement_text, IH.
Qed.

Lemma elementText_ends_blank el : ∃ body, elementText el = body +:+ Js.nl +:+ Js.nl.
Proof.
  unfold elementText.
  destruct el as [c|c|c|character elements]; cbn [appendElement];
    [by eexists|by eexists|by eexists|].
  induction elements as [|diag elements [body IH]] using rev_ind.
  - exists (JsText.tab +:+ Js.toUpperCase character). cbn [foldl]. by str_assoc.
  - rewrite foldl_app. cbn [foldl].
    destruct (part_type diag).
    + eexists (foldl _ _ elements +:+ JsText.tab +:+ "(" +:+ part_content diag +:+ ")").
      by str_assoc.
    + eexists (foldl _ _ elements +:+ JsText.tab +:+ part_content diag).
      by str_assoc.
Qed.

(** X2: the text of the script.  Without a script it is empty.
    Otherwise it is the title line and an empty line, followed by the text
    of each element in script order; the text of every element ends with
    an empty line, so the whole text does, and a script with more elements
    at its end has the text of the shorter one as a prefix. *)
Theorem scriptToText_shape (script : Script) (more : list SceneElement) :
  scriptToText None = EmptyString ∧
  scriptToText (Some script) =
    "Title: " +:+ title script +:+ Js.nl +:+ Js.nl
    +:+ String.concat EmptyString (elementText <$> scene_elements script) ∧
  (∃ body, scriptToText (Some script) = body +:+ Js.nl +:+ Js.nl) ∧
  scriptToText (Some {| source_file := source_file script; title := title script;
                        scene_elements := scene_elements script ++ more |}) =
    scriptToText (Some script) +:+ String.concat EmptyString (elementText <$> more).
Proof.
  split; [done|]. split; [|split].
  - unfold scriptToText. rewrite foldl_appendElement. by str_assoc.
  - unfold scriptToText. destruct (scene_elements script) as [|el els _] using rev_ind.
    + cbn [foldl]. exists ("Title: " +:+ title script). by str_assoc.
    + rewrite foldl_app. cbn [foldl]. rewrite appendElement_text.
      destruct (elementText_ends_blank el) as [body ->].
      eexists (foldl _ _ els +:+ body). by str_assoc.
  - unfold scriptToText. cbn [scene_elements title]. rewrite foldl_app.
    by rewrite (foldl_appendElement more).
Qed.

(** ** File names *)

Lemma safe_char c :
  let c' := Js.lower_char (if JsText.is_alnum c then c else "_"%char) in
  (Js.is_lower c' || Js.is_digit c' || Ascii.eqb c' "_"%char) = true ∧
  Js.lower_char (if JsText.is_alnum c' then c' else "_"%char) = c'.
Proof. by destruct c as [[] [] [] [] [] [] [] []]. Qed.

Lemma safeName_chars name :
  JsText.all_chars (λ c, Js.is_lower c || Js.is_digit c || Ascii.eqb c "_"%char)
                   (safeName name) = true.
Proof.
  unfold safeName, Js.toLowerCase, JsText.replace_non_alnum.
  induction name as [|c name IH]; [done|]. cbn [Js.map_chars JsText.all_chars].
  by rewrite (proj1 (safe_char c)), IH.
Qed.

(** X3: the file-name form of a title or of a character name has the
    length of the original, is made of lowercase letters, digits and
    underscores only, and is left unchanged by a second pass; titles and
    names go through the same rule. *)
Theorem safeTitle_is_safe (title : string) :
  String.length (safeTitle title) = String.length title ∧
  JsText.all_chars (λ c, Js.is_lower c || Js.is_digit c || Ascii.eqb c "_"%char)
                   (safeTitle title) = true ∧
  safeTitle (safeTitle title) = safeTitle title ∧
  safeName title = safeTitle title.
Proof.
  unfold safeName, safeTitle, Js.toLowerCase, JsText.replace_non_alnum.
  split; [by rewrite !map_chars_length|]. split; [|split; [|done]].
  - apply safeName_chars.
  - induction title as [|c title IH]; [done|]. cbn [Js.map_chars].
    by rewrite (proj2 (safe_char c)), IH.
Qed.

Lemma numeral_value_of_nat n : numeral_value (Js.of_nat n) = Some n.
Proof.
  unfold numeral_value, Js.of_nat. rewrite NilEmpty.usu. simpl.
  by rewrite DecimalNat.Unsigned.of_to.
Qed.

Lemma numeral_value_zero s : numeral_value (String "0" s) = numeral_value s.
Proof.
  unfold numeral_value. cbn [NilEmpty.uint_of_string uint_of_char].
  by destruct (NilEmpty.uint_of_string s).
Qed.

Lemma length_append (a b : string) :
  String.length (a +:+ b) = String.length a + String.length b.
Proof. induction a as [|x a IH]; simpl; [done|]. by rewrite IH. Qed.

Lemma repeat_char_length k c : String.length (JsText.repeat_char k c) = k.
Proof. induction k as [|k IH]; simpl; [done|]. by rewrite IH. Qed.

Lemma numeral_value_repeat_zero k s :
  numeral_value (JsText.repeat_char k "0" +:+ s) = numeral_value s.
Proof.
  induction k as [|k IH]; [done|]. cbn [JsText.repeat_char].
  change (String "0" (JsText.repeat_char k "0") +:+ s)
    with (String "0" (JsText.repeat_char k "0" +:+ s)).
  by rewrite numeral_value_zero.
Qed.

Lemma numeral_value_padStart n k : numeral_value (JsText.padStart n "0" (Js.of_nat k)) = Some k.
Proof. unfold JsText.padStart. by rewrite numeral_value_repeat_zero, numeral_value_of_nat. Qed.

Lemma string_of_uint_digits d : JsText.all_chars Js.is_digit (NilEmpty.string_of_uint d) = true.
Proof. induction d; simpl; try done. Qed.

Lemma of_nat_digits n : JsText.all_chars Js.is_digit (Js.of_nat n) = true.
Proof. apply string_of_uint_digits. Qed.

Lemma repeat_char_all p k c : p c = true → JsText.all_chars p (JsText.repeat_char k c) = true.
Proof. intros Hc. induction k as [|k IH]; simpl; [done|]. by rewrite Hc, IH. Qed.

Lemma padStart_digits n k : JsText.all_chars Js.is_digit (JsText.padStart n "0" (Js.of_nat k)) = true.
Proof.
  unfold JsText.padStart. by rewrite all_chars_app, repeat_char_all, of_nat_digits.
Qed.

(** Two texts made of characters of one class, each followed by a
    character outside the class: the whole texts are equal only if the two
    parts are. *)
Lemma class_then_inj (p : ascii → bool) a b x y :
  JsText.all_chars p a = true → JsText.all_chars p b = true →
  (∀ c x', x = String c x' → p c = false) →
  (∀ c y', y = String c y' → p c = false) →
  x ≠ EmptyString → y ≠ EmptyString →
  a +:+ x = b +:+ y → a = b ∧ x = y.
Proof.
  revert b. induction a as [|c a IH]; intros [|d b] Ha Hb Hx Hy Hxne Hyne Heq; simpl in *.
  - done.
  - destruct x as [|c x']; [done|]. injection Heq as -> _.
    apply andb_true_iff in Hb as [Hd _]. by rewrite (Hx _ _ eq_refl) in Hd.
  - destruct y as [|d y']; [done|]. injection Heq as -> _.
    apply andb_true_iff in Ha as [Hc _]. by rewrite (Hy _ _ eq_refl) in Hc.
  - injection Heq as -> Heq.
    apply andb_true_iff in Ha as [_ Ha]. apply andb_true_iff in Hb as [_ Hb].
    destruct (IH b Ha Hb Hx Hy Hxne Hyne Heq) as [-> ->]. done.
Qed.

Lemma digits_then_inj a b x y :
  JsText.all_chars Js.is_digit a = true → JsText.all_chars Js.is_digit b = true →
  (∀ c x', x = String c x' → Js.is_digit c = false) →
  (∀ c y', y = String c y' → Js.is_digit c = false) →
  x ≠ EmptyString → y ≠ EmptyString →
  a +:+ x = b +:+ y → a = b ∧ x = y.
Proof. apply class_then_inj. Qed.

Lemma sceneFileStem_inj a b : sceneFileStem a = sceneFileStem b → a = b.
Proof.
  unfold sceneFileStem. intros Heq. apply String.app_inj in Heq.
  apply (f_equal numeral_value) in Heq. rewrite !numeral_value_padStart in Heq. congruence.
Qed.

Lemma sceneFile_png_txt a b : sceneFileStem a +:+ ".png" ≠ sceneFileStem b +:+ ".txt".
Proof.
  unfold sceneFileStem. rewrite !append_assoc_L. intros Heq. apply String.app_inj in Heq.
  apply digits_then_inj in Heq as [_ [=]];
    try apply padStart_digits; try done; by intros c x' [= <- _].
Qed.

Lemma sceneFile_ext_inj a b ext :
  sceneFileStem a +:+ String "." ext = sceneFileStem b +:+ String "." ext → a = b.
Proof.
  unfold sceneFileStem. rewrite !append_assoc_L. intros Heq. apply String.app_inj in Heq.
  apply digits_then_inj in Heq as [Heq _];
    try apply padStart_digits; try done; try by intros c x' [= <- _].
  apply (f_equal numeral_value) in Heq. rewrite !numeral_value_padStart in Heq. congruence.
Qed.

(** X4: the files of a scene image are named after its scene
    index, padded to four digits: two images get the same name exactly when
    they have the same scene index, the number can be read back from the
    name, and the picture of one scene never has the name of the text of
    another. *)
Theorem sceneFileStem_injective (a b : nat) :
  (sceneFileStem a = sceneFileStem b ↔ a = b) ∧
  (∃ digits, sceneFileStem a = "scene_" +:+ digits ∧ 4 ≤ String.length digits ∧
             numeral_value digits = Some a) ∧
  sceneFileStem a +:+ ".png" ≠ sceneFileStem b +:+ ".txt".
Proof.
  split; [|split].
  - split; [apply sceneFileStem_inj|by intros ->].
  - unfold sceneFileStem. eexists. split; [done|]. split; [|apply numeral_value_padStart].
    unfold JsText.padStart. rewrite length_append, repeat_char_length. lia.
  - apply sceneFile_png_txt.
Qed.

(** ** Upload naming rules *)

Lemma lower_char_separator c :
  Ascii.eqb (Js.lower_char c) "."%char = Ascii.eqb c "."%char ∧
  Ascii.eqb (Js.lower_char c) "/"%char = Ascii.eqb c "/"%char.
Proof. by destruct c as [[] [] [] [] [] [] [] []]. Qed.

Lemma toLowerCase_app a b : Js.toLowerCase (a +:+ b) = Js.toLowerCase a +:+ Js.toLowerCase b.
Proof. apply map_chars_app. Qed.

Lemma is_extension_toLowerCase t : JsText.is_extension (Js.toLowerCase t) = JsText.is_extension t.
Proof.
  unfold JsText.is_extension. f_equal; [by destruct t|].
  unfold Js.toLowerCase. rewrite all_chars_map_chars.
  induction t as [|c t IH]; [done|]. cbn [JsText.all_chars].
  destruct (lower_char_separator c) as [-> ->]. by rewrite IH.
Qed.

Lemma is_extension_dot a b : JsText.is_extension (a +:+ String "." b) = false.
Proof.
  unfold JsText.is_extension. apply andb_false_iff. right.
  induction a as [|c a IH]; simpl; [done|]. rewrite IH. apply andb_false_r.
Qed.

Lemma strip_extension_app stem ext :
  JsText.is_extension ext = true → JsText.strip_extension (stem +:+ String "." ext) = stem.
Proof.
  intros Hext. induction stem as [|c stem IH]; simpl.
  - by rewrite Hext.
  - by rewrite is_extension_dot, andb_false_r, IH.
Qed.

Lemma strip_extension_free name :
  JsText.all_chars (λ c, negb (Ascii.eqb c "."%char)) name = true →
  JsText.strip_extension name = name.
Proof.
  induction name as [|c name IH]; simpl; [done|].
  intros [Hc Hname]%andb_true_iff. apply negb_true_iff in Hc. by rewrite Hc, IH.
Qed.

Lemma split_nonempty sep s : JsText.split sep s ≠ [].
Proof. unfold JsText.split. by destruct (JsText.segments sep s). Qed.

Lemma last_split_app sep a b :
  last (JsText.split sep (a +:+ String sep b)) = last (JsText.split sep b).
Proof.
  assert (∀ a, ∃ seg seg' segs,
            JsText.segments sep (a +:+ String sep b) = (seg, seg' :: segs) ∧
            last (seg' :: segs) = last (JsText.split sep b)) as Haux.
  { clear a. unfold JsText.split. induction a as [|c a (seg & seg' & segs & IH & Hlast)]; simpl.
    - destruct (JsText.segments sep b) as [seg segs]. rewrite Ascii.eqb_refl. eauto.
    - rewrite IH. destruct (Ascii.eqb c sep); eauto. }
  unfold JsText.split at 1. destruct (Haux a) as (seg & seg' & segs & -> & <-). done.
Qed.

Lemma extension_of_free ext :
  JsText.all_chars (λ c, negb (Ascii.eqb c "."%char)) ext = true →
  Upload.extension ext = ext.
Proof.
  intros Hfree. unfold Upload.extension. rewrite (split_free _ _ Hfree). by destruct ext.
Qed.

Lemma is_extension_free ext (sep : ascii) :
  JsText.is_extension ext = true → sep = "."%char ∨ sep = "/"%char →
  JsText.all_chars (λ c, negb (Ascii.eqb c sep)) ext = true.
Proof.
  intros [_ Hext]%andb_true_iff Hsep. eapply all_chars_impl; [|exact Hext].
  intros c Hc. apply negb_true_iff, orb_false_iff in Hc as [Hslash Hdot].
  by destruct Hsep as [-> | ->]; apply negb_true_iff.
Qed.

(** X5: how an uploaded picture is named.  For a file called stem.ext, where
    the extension is not empty and has neither a dot nor a slash, the key
    of the character image is the stem in lower case and the extension
    that the handler reads is the extension in lower case (so a picture is
    recognised whatever the case of its extension), and the lowercased
    file name is the key, a dot and the extension.  Inside a zip archive
    the folders of the path are dropped first. *)
Theorem upload_name_key_and_extension (stem ext folder : string) :
  JsText.is_extension ext = true →
  let name := stem +:+ "." +:+ ext in
  Upload.charName name = Js.toLowerCase stem ∧
  Upload.extension (Js.toLowerCase name) = Js.toLowerCase ext ∧
  Js.toLowerCase name =
    Upload.charName name +:+ "." +:+ Upload.extension (Js.toLowerCase name) ∧
  Upload.kind (Upload.extension (Js.toLowerCase name)) = Upload.kind (Js.toLowerCase ext) ∧
  (JsText.all_chars (λ c, negb (Ascii.eqb c "/"%char)) stem = true →
   Upload.entryCharName (folder +:+ "/" +:+ name) = Js.toLowerCase stem).
Proof.
  intros Hext name.
  assert (Upload.charName name = Js.toLowerCase stem) as Hkey.
  { unfold Upload.charName, name. by rewrite (strip_extension_app _ _ Hext). }
  assert (Upload.extension (Js.toLowerCase name) = Js.toLowerCase ext) as Hextension.
  { unfold name. rewrite toLowerCase_app.
    change (Js.toLowerCase ("." +:+ ext)) with (String "." (Js.toLowerCase ext)).
    unfold Upload.extension. rewrite last_split_app.
    fold (Upload.extension (Js.toLowerCase ext)). apply extension_of_free.
    apply is_extension_free; [|by left]. by rewrite is_extension_toLowerCase. }
  split; [done|]. split; [done|]. split; [|split].
  - rewrite Hkey, Hextension. unfold name. by rewrite toLowerCase_app.
  - by rewrite Hextension.
  - intros Hstem. unfold Upload.entryCharName.
    change (folder +:+ "/" +:+ name) with (folder +:+ String "/" name).
    rewrite last_split_app, split_free; [done|].
    unfold name. rewrite all_chars_app, Hstem. cbn [andb].
    change ("." +:+ ext) with (String "." ext). cbn [JsText.all_chars].
    by rewrite is_extension_free; [|done|right].
Qed.

Lemma upload_name_key_and_extension_witness :
  Upload.charName "Alice.PNG" = "alice" ∧
  Upload.kind (Upload.extension (Js.toLowerCase "Alice.PNG")) = Upload.Image ∧
  Upload.entryCharName "cast/Alice.PNG" = "alice".
Proof.
  destruct (upload_name_key_and_extension "Alice" "PNG" "cast" eq_refl)
    as (Hkey & _ & _ & Hkind & Hentry).
  split; [exact Hkey|]. split; [exact Hkind|]. exact (Hentry eq_refl).
Defined.

(** X6: a name without any dot is its own extension: the branch is chosen by
    the whole lowercased name and, for a picture, the key is the whole
    lowercased name (nothing is cut off). *)
Theorem upload_name_without_dot (name : string) :
  JsText.all_chars (λ c, negb (Ascii.eqb c "."%char)) name = true →
  Upload.extension (Js.toLowerCase name) = Js.toLowerCase name ∧
  Upload.charName name = Js.toLowerCase name.
Proof.
  intros Hfree. split.
  - apply extension_of_free. unfold Js.toLowerCase. rewrite all_chars_map_chars.
    eapply all_chars_impl; [|exact Hfree]. intros c Hc. cbn beta in *.
    by rewrite (proj1 (lower_char_separator c)).
  - unfold Upload.charName. by rewrite strip_extension_free.
Qed.

Lemma upload_name_without_dot_witness :
  Upload.extension (Js.toLowerCase "PNG") = "png" ∧ Upload.charName "PNG" = "png".
Proof. exact (upload_name_without_dot "PNG" eq_refl). Defined.

(** ** More on the edit distance and the resolver *)

Section LevenshteinBounds.
Context {A : Type} `{EqDecision A}.

Lemma edit1_length (b c : list A) : edit1 b c → length b ≤ length c + 1 ∧ length c ≤ length b + 1.
Proof. destruct 1; rewrite !length_app; simpl; lia. Qed.

Lemma edits_length n (a b : list A) :
  edits n a b → length a ≤ length b + n ∧ length b ≤ length a + n.
Proof.
  induction 1 as [a|n a b c _ IH Hedit]; [lia|].
  apply edit1_length in Hedit. lia.
Qed.

Lemma lev_zero (a b : list A) : lev a b = 0 ↔ a = b.
Proof.
  split; [|intros ->; apply lev_refl].
  intros Hzero. pose proof (lev_realised a b) as Hedits. rewrite Hzero in Hedits.
  by inversion Hedits.
Qed.

Lemma lev_upper_bound (a b : list A) : lev a b ≤ Nat.max (length a) (length b).
Proof.
  revert b. induction a as [|x a IH]; intros b.
  - rewrite lev_nil_l. lia.
  - destruct b as [|y b]; [rewrite lev_nil_r; lia|].
    rewrite lev_cons. specialize (IH b). pose proof (subst_cost_le x y).
    unfold min3. simpl. lia.
Qed.

End LevenshteinBounds.

Lemma chars_inj a b : chars a = chars b → a = b.
Proof.
  intros Heq. rewrite <-(String.string_of_list_ascii_of_string a),
    <-(String.string_of_list_ascii_of_string b). unfold chars in Heq. by rewrite Heq.
Qed.

Lemma levenshteinDistance_bounds_aux (a b : string) : levenshteinDistance a b = 0 ↔ a = b.
Proof.
  rewrite levenshteinDistance_lev, lev_zero. split; [apply chars_inj|by intros ->].
Qed.

(** X7: the edit distance is zero exactly between equal strings;
    it is at least the difference of the two lengths and at most the longer
    of them. *)
Theorem levenshteinDistance_bounds (a b : string) :
  (levenshteinDistance a b = 0 ↔ a = b) ∧
  Nat.max (String.length a) (String.length b) - Nat.min (String.length a) (String.length b)
    ≤ levenshteinDistance a b ∧
  levenshteinDistance a b ≤ Nat.max (String.length a) (String.length b).
Proof.
  split; [apply levenshteinDistance_bounds_aux|].
  rewrite levenshteinDistance_lev, <-!chars_length. split.
  - pose proof (edits_length _ _ _ (lev_realised (chars a) (chars b))). lia.
  - apply lev_upper_bound.
Qed.

(** X8: a name that, once normalised, equals a normalised key is
    always resolved, to the first such key and with distance zero. *)
Theorem resolveCharacter_exact_match (keys : list string) (charName key0 : string) :
  normalizeForMatch charName ≠ EmptyString →
  key0 ∈ keys →
  normalizeForMatch key0 = normalizeForMatch charName →
  ∃ n key,
    keys !! n = Some key ∧
    normalizeForMatch key = normalizeForMatch charName ∧
    (∀ m k, m < n → keys !! m = Some k →
            normalizeForMatch k ≠ normalizeForMatch charName) ∧
    resolved (resolveCharacter keys charName) = Some (key, 0).
Proof.
  intros Hq Hin Hsame. set (q := normalizeForMatch charName) in *.
  assert (keys ≠ []) as Hkeys by (intros ->; by apply elem_of_nil in Hin).
  destruct (findBestMatch_first_minimum q keys Hkeys)
    as (n & key & (Hn & Hmin & Hfirst) & Hbest & Hdist & _).
  assert (∀ k, key_distance q k = 0 ↔ normalizeForMatch k = q) as Hzero.
  { intros k. unfold key_distance. rewrite levenshteinDistance_bounds_aux.
    split; by intros ->. }
  apply list_elem_of_lookup in Hin as [m0 Hm0].
  assert (key_distance q key = 0) as Hkey.
  { specialize (Hmin _ _ Hm0). rewrite (proj2 (Hzero key0) Hsame) in Hmin. lia. }
  exists n, key. split; [done|]. split; [by apply Hzero|]. split.
  - intros m k Hm Hk Heq. specialize (Hfirst _ _ Hm Hk).
    rewrite (proj2 (Hzero k) Heq) in Hfirst. lia.
  - unfold resolveCharacter. fold q. apply truthy_nonempty in Hq as Htruthy.
    rewrite Htruthy. destruct keys as [|k1 keys']; [done|]. cbn [length Nat.eqb negb orb].
    rewrite Hbest, Hdist, Hkey. cbn [resolved].
    assert (Js.truthy key = true) as ->.
    { apply truthy_nonempty. intros ->. apply Hzero in Hkey. by rewrite <-Hkey in Hq. }
    unfold ratio_below_half. cbn [andb].
    assert ((2 * 0 <? Nat.max (String.length q) (String.length (normalizeForMatch key)))
            = true) as ->; [|done].
    apply Nat.ltb_lt. destruct q; [done|]. simpl. lia.
Qed.

Lemma resolveCharacter_exact_match_witness :
  ∃ n key, ["jane"; "john"; "JOHN "] !! n = Some key ∧
           resolved (resolveCharacter ["jane"; "john"; "JOHN "] "John!") = Some (key, 0).
Proof.
  destruct (resolveCharacter_exact_match ["jane"; "john"; "JOHN "] "John!" "JOHN ")
    as (n & key & Hn & _ & _ & Hres).
  - done.
  - set_solver.
  - reflexivity.
  - exists n, key. split; [exact Hn|exact Hres].
Defined.

(** ** The image service and the script service *)

Lemma image_catch_Throw finalPrompt errorMessage msg :
  image_catch finalPrompt errorMessage = Throw msg ↔
  Js.includes errorMessage "SAFETY" = false ∧
  msg = if is_auth_error errorMessage then authentication_failed
        else "Failed to generate image. Details: " +:+ errorMessage.
Proof.
  unfold image_catch, rethrow. destruct (Js.includes errorMessage "SAFETY").
  - split; [done|]. by intros [? _].
  - destruct (is_auth_error errorMessage); split.
    + by intros [= <-].
    + by intros [_ ->].
    + by intros [= <-].
    + by intros [_ ->].
Qed.

(** X9: [generateImage] throws in exactly three cases: the call to the
    image model throws with a message that does not mention SAFETY, and
    the error is then the fixed authentication error if the message
    mentions PERMISSION_DENIED or an invalid API key, and the message
    behind a fixed prefix otherwise; or the first candidate of the answer
    has no content, or a content without parts, and the error is then the
    [TypeError] of reading it, behind the same prefix.  A call that throws
    with a message that mentions SAFETY is a result without an image,
    never an error, whatever else the message says. *)
Theorem generateImage_throws_iff (service : list ContentPart → string → RawImage)
    (prompt : string) (characterImages : option (list NamedImage))
    (previous style aspectRatio : option string) (msg : string) :
  let finalPrompt :=
    "Style: " +:+ Js.or_else style "cinematic, photorealistic" +:+ ". " +:+ prompt in
  let answer :=
    service (image_request_parts finalPrompt characterImages previous)
            (Js.or_else aspectRatio "1:1") in
  (generateImage service prompt characterImages previous style aspectRatio = Throw msg ↔
   (∃ errorMessage,
      answer = ImageThrows errorMessage ∧
      Js.includes errorMessage "SAFETY" = false ∧
      msg = if is_auth_error errorMessage then authentication_failed
            else "Failed to generate image. Details: " +:+ errorMessage) ∨
   (∃ candidate candidates,
      answer = ImageResponse (candidate :: candidates) ∧
      (cand_content candidate = NoContent ∧
       msg = "Failed to generate image. Details: " +:+ type_error_undefined "parts" ∨
       cand_content candidate = NoParts ∧
       msg = "Failed to generate image. Details: " +:+ type_error_not_iterable))) ∧
  (∀ errorMessage,
     answer = ImageThrows errorMessage → Js.includes errorMessage "SAFETY" = true →
     generateImage service prompt characterImages previous style aspectRatio =
       Ok {| imageBase64 := None; finalPrompt := finalPrompt; wasRewritten := true |}).
Proof.
  cbn zeta. unfold generateImage. split.
  - destruct (service _ _) as [errorMessage|[|candidate candidates]].
    + rewrite image_catch_Throw. split.
      * intros [Hsafety ->]. left. by exists errorMessage.
      * intros [(e & [= <-] & Hsafety & ->)|(? & ? & [=] & _)]. done.
    + split; [done|]. by intros [(e & [=] & _)|(? & ? & [=] & _)].
    + destruct (cand_content candidate) eqn:Hcontent.
      * rewrite image_catch_Throw. split.
        -- intros [_ ->]. right. exists candidate, candidates. split; [done|]. by left.
        -- intros [(e & [=] & _)|(c & cs & [= <- <-] & [[_ ->]|[Hc _]])];
             [by split|congruence].
      * rewrite image_catch_Throw. split.
        -- intros [_ ->]. right. exists candidate, candidates. split; [done|]. by right.
        -- intros [(e & [=] & _)|(c & cs & [= <- <-] & [[Hc _]|[_ ->]])];
             [congruence|by split].
      * split; [done|].
        intros [(e & [=] & _)|(c & cs & [= <- <-] & [[Hc _]|[Hc _]])]; congruence.
  - intros errorMessage -> Hsafety. unfold image_catch. by rewrite Hsafety.
Qed.

(** A refusal that mentions both SAFETY and PERMISSION_DENIED is a result;
    an answer whose first candidate has no content is an error. *)
Lemma generateImage_throws_iff_witness :
  generateImage (λ _ _, ImageThrows "SAFETY: PERMISSION_DENIED") "A cat." None None None None
  = Ok {| imageBase64 := None;
          finalPrompt := "Style: cinematic, photorealistic. A cat.";
          wasRewritten := true |} ∧
  generateImage
    (λ _ _, ImageResponse [ {| cand_content := NoContent; cand_blocked := true |} ])
    "A cat." None None None None
  = Throw "Failed to generate image. Details: Cannot read properties of undefined (reading 'parts')".
Proof.
  split.
  - exact (proj2 (generateImage_throws_iff (λ _ _, ImageThrows "SAFETY: PERMISSION_DENIED")
                    "A cat." None None None None EmptyString)
             "SAFETY: PERMISSION_DENIED" eq_refl eq_refl).
  - apply (proj1 (generateImage_throws_iff
                    (λ _ _, ImageResponse
                              [ {| cand_content := NoContent; cand_blocked := true |} ])
                    "A cat." None None None None _)).
    right. eexists _, _. split; [reflexivity|]. left. by split.
Defined.

Lemma find_truthy_opt l data :
  mjoin (List.find Js.truthy_opt l) = Some data → Some data ∈ l ∧ data ≠ EmptyString.
Proof.
  induction l as [|o l IH]; [done|]. simpl.
  destruct (Js.truthy_opt o) eqn:Ho.
  - destruct o as [s|]; [|done]. simpl. intros [= ->]. split; [left|].
    by apply truthy_nonempty.
  - intros [Hin Hne]%IH. split; [by right|done].
Qed.

(** X10: what [generateImage] returns when it does not throw.
    The final prompt is the style (or the default style, when none is
    given) in front of the prompt; an image in the result is never the
    empty string and is inline data of a part of the first candidate of the
    answer; an answer without candidates is reported as rewritten, without
    an image. *)
Theorem generateImage_result (service : list ContentPart → string → RawImage)
    (prompt : string) (characterImages : option (list NamedImage))
    (previous style aspectRatio : option string) (res : ImageGenResult) :
  generateImage service prompt characterImages previous style aspectRatio = Ok res →
  let answer :=
    service (image_request_parts (finalPrompt res) characterImages previous)
            (Js.or_else aspectRatio "1:1") in
  finalPrompt res =
    "Style: " +:+ Js.or_else style "cinematic, photorealistic" +:+ ". " +:+ prompt ∧
  (∀ data, imageBase64 res = Some data →
           data ≠ EmptyString ∧
           ∃ candidate candidates answered,
             answer = ImageResponse (candidate :: candidates) ∧
             cand_content candidate = Parts answered ∧
             Some data ∈ answered ∧
             wasRewritten res = cand_blocked candidate) ∧
  (answer = ImageResponse [] → imageBase64 res = None ∧ wasRewritten res = true).
Proof.
  intros Hres. cbn zeta.
  assert (∀ e, image_catch
                 ("Style: " +:+ Js.or_else style "cinematic, photorealistic" +:+ ". "
                  +:+ prompt) e = Ok res →
               finalPrompt res =
                 "Style: " +:+ Js.or_else style "cinematic, photorealistic" +:+ ". "
                 +:+ prompt ∧ imageBase64 res = None) as Hcatch.
  { intros e. unfold image_catch, rethrow.
    destruct (Js.includes e "SAFETY"); [by intros [= <-]|by case_match]. }
  assert (finalPrompt res =
            "Style: " +:+ Js.or_else style "cinematic, photorealistic" +:+ ". " +:+ prompt)
    as Hfinal.
  { unfold generateImage in Hres.
    destruct (service _ _) as [errorMessage|[|candidate candidates]].
    - by apply Hcatch in Hres as [? _].
    - by injection Hres as <-.
    - destruct (cand_content candidate).
      + by apply Hcatch in Hres as [? _].
      + by apply Hcatch in Hres as [? _].
      + by injection Hres as <-. }
  rewrite Hfinal. split; [done|]. revert Hres. unfold generateImage.
  destruct (service _ _) as [errorMessage|[|candidate candidates]].
  - intros [_ Hnone]%Hcatch. rewrite Hnone. by split.
  - by intros [= <-].
  - destruct (cand_content candidate) as [| |answered] eqn:Hcontent.
    + intros [_ Hnone]%Hcatch. rewrite Hnone. by split.
    + intros [_ Hnone]%Hcatch. rewrite Hnone. by split.
    + intros [= <-]. cbn [imageBase64 wasRewritten]. split; [|done].
      intros data [Hin Hne]%find_truthy_opt. split; [done|].
      by exists candidate, candidates, answered.
Qed.

Lemma generateImage_result_witness :
  ∃ res,
    generateImage (λ _ _, image_of "IMG") "A cat." None None (Some "noir") None = Ok res ∧
    finalPrompt res = "Style: noir. A cat." ∧ imageBase64 res = Some "IMG".
Proof.
  eexists. split; [reflexivity|]. split; [|reflexivity].
  exact (proj1 (generateImage_result (λ _ _, image_of "IMG") "A cat." None None
                  (Some "noir") None _ eq_refl)).
Defined.

(** X11: a script that [generateStory] returns always names
    its source: the one the model gave or, when the model gave none or an
    empty one, the name of the model; the title and the elements are the
    ones of the answer. *)
Theorem generateStory_names_source (raw : Raw Script) (script : Script) :
  generateStory raw = Ok script →
  Js.truthy_opt (source_file script) = true ∧
  ∃ answer,
    raw = RawJson answer ∧
    title script = title answer ∧
    scene_elements script = scene_elements answer ∧
    source_file script =
      (if Js.truthy_opt (source_file answer) then source_file answer
       else Some "gemini-3-pro-preview").
Proof.
  unfold generateStory. destruct raw as [msg| |answer].
  - unfold rethrow. by destruct (is_auth_error _).
  - unfold rethrow. by destruct (is_auth_error _).
  - intros [= <-]. destruct (Js.truthy_opt (source_file answer)) eqn:Hsource.
    + split; [done|]. exists answer. by rewrite Hsource.
    + split; [done|]. exists answer. by rewrite Hsource.
Qed.

Lemma generateStory_names_source_witness :
  Js.truthy_opt (source_file {| source_file := Some "gemini-3-pro-preview";
                                title := "Three scenes";
                                scene_elements := scene_elements three_scene_script |}) = true.
Proof.
  exact (proj1 (generateStory_names_source (RawJson three_scene_script) _ eq_refl)).
Defined.

(** ** How a run ends *)

Lemma rethrow_messages {T} details errorMessage msg :
  @rethrow T details errorMessage = Throw msg →
  msg = authentication_failed ∨ ∃ e, msg = details +:+ e.
Proof. unfold rethrow. destruct (is_auth_error errorMessage); intros [= <-]; eauto. Qed.

Lemma generateStory_messages raw msg :
  generateStory raw = Throw msg →
  msg = authentication_failed ∨ ∃ e, msg = stage_details GenerateScript +:+ e.
Proof. destruct raw; [apply rethrow_messages..|done]. Qed.

Lemma analyzeCharacterDescriptions_messages raw msg :
  analyzeCharacterDescriptions raw = Throw msg →
  msg = authentication_failed ∨ ∃ e, msg = stage_details AnalyzeCharacters +:+ e.
Proof. destruct raw; [apply rethrow_messages..|done]. Qed.

Lemma generateCohesiveImagePrompts_messages raw msg :
  generateCohesiveImagePrompts raw = Throw msg →
  msg = authentication_failed ∨ ∃ e, msg = stage_details GenerateCohesivePrompts +:+ e.
Proof. destruct raw; [apply rethrow_messages..|done]. Qed.

Lemma storyElementsOf_messages w textFiles msg :
  storyElementsOf w textFiles = Throw msg →
  msg = authentication_failed ∨ ∃ e, msg = stage_details AnalyzeStory +:+ e.
Proof.
  unfold storyElementsOf, analyzeStoryInputs.
  destruct (0 <? length textFiles) eqn:Hfiles; [|done].
  apply Nat.ltb_lt in Hfiles. destruct (length textFiles =? 0) eqn:Hzero.
  { apply Nat.eqb_eq in Hzero. lia. }
  destruct (w_analyzeStoryInputs w); [apply rethrow_messages..|done].
Qed.

Lemma fatal_failure_messages w textFiles stage msg :
  fatal_failure w textFiles = Some (stage, msg) →
  msg = authentication_failed ∨ ∃ e, msg = stage_details stage +:+ e.
Proof.
  unfold fatal_failure.
  destruct (storyElementsOf w textFiles) eqn:Hstory;
    [|intros [= <- <-]; by eapply storyElementsOf_messages].
  destruct (generateStory _) eqn:Hscript;
    [|intros [= <- <-]; by eapply generateStory_messages].
  destruct (analyzeCharacterDescriptions _) eqn:Hchars;
    [|intros [= <- <-]; by eapply analyzeCharacterDescriptions_messages].
  destruct (generateCohesiveImagePrompts _) eqn:Hprompts;
    [done|intros [= <- <-]; by eapply generateCohesiveImagePrompts_messages].
Qed.

(** A run that left an error has no dialogue line. *)
Lemma failed_run_lines w s stage msg :
  fatal_failure w (textFiles s) = Some (stage, msg) →
  hs3000Lines (st (handleGenerate w s)) = [].
Proof.
  intros Hfatal. destruct (handleGenerate_outcome w s) as (res & r1 & Hout & ->).
  unfold fatal_failure in Hfatal.
  destruct Hout; forget_requests; stage_equations Hfatal;
    simplify_eq; unfold settle; simpl; reflexivity.
Qed.

(** X12: when [handleGenerate] has finished, the application is no
    longer generating, the status line is empty and the download is
    enabled, whatever happened.  The run either completed or left an error,
    never both and never neither.  A run in which one of the four fatal
    stages failed did not complete and left the error of that stage; a run
    that left an error shows the failure entry of that error as its whole
    report, and no dialogue line. *)
Theorem run_ends_complete_or_failed (w : World) (s : AppState) :
  let final := st (handleGenerate w s) in
  isGenerating final = false ∧
  statusMessage final = EmptyString ∧
  isReadyForDownload final = true ∧
  (generationComplete final = true ↔ error final = None) ∧
  (∀ stage msg,
     fatal_failure w (textFiles s) = Some (stage, msg) →
     generationComplete final = false ∧ error final = Some msg) ∧
  (∀ msg,
     error final = Some msg →
     generationReport final = generation_failed msg ∧ hs3000Lines final = []).
Proof.
  cbn zeta. destruct (handleGenerate_final w s) as (Hgen & Hstatus & Hready & _ & Hcomplete).
  rewrite Hgen, Hstatus, Hready, Hcomplete, handleGenerate_error.
  split_and!; try done.
  - rewrite bool_decide_eq_true. by destruct (fatal_failure w (textFiles s)).
  - intros stage msg ->. split; [|done]. by apply bool_decide_eq_false.
  - intros msg Hmsg.
    destruct (fatal_failure w (textFiles s)) as [[stage m]|] eqn:Hfatal; [|done].
    injection Hmsg as ->.
    by rewrite (failed_run_report w s stage msg Hfatal), (failed_run_lines w s stage msg Hfatal).
Qed.

(** Script generation fails: the run is not complete, and its report is the
    failure entry of that error. *)
Lemma run_ends_complete_or_failed_witness :
  generationComplete (st (handleGenerate world_script_fails prompt_only_state)) = false ∧
  generationReport (st (handleGenerate world_script_fails prompt_only_state)) =
    generation_failed "Failed to generate script. Details: network down".
Proof.
  destruct (run_ends_complete_or_failed world_script_fails prompt_only_state)
    as (_ & _ & _ & _ & Hfatal & Hreport).
  destruct (Hfatal GenerateScript "Failed to generate script. Details: network down" eq_refl)
    as [Hcomplete Herror].
  split; [exact Hcomplete|]. exact (proj1 (Hreport _ Herror)).
Defined.

Lemma rethrow_message {T} details errorMessage msg :
  @rethrow T details errorMessage = Throw msg →
  msg = if is_auth_error errorMessage then authentication_failed
        else details +:+ errorMessage.
Proof. unfold rethrow. destruct (is_auth_error errorMessage); by intros [= <-]. Qed.

(** The error of a fatal stage, from the answer of its service. *)
Lemma fatal_failure_message w textFiles stage msg :
  fatal_failure w textFiles = Some (stage, msg) →
  (∀ raw, stage_raw_failure w stage = Some raw →
          msg = if is_auth_error raw then authentication_failed
                else stage_details stage +:+ raw) ∧
  (stage_raw_failure w stage = None → msg = stage_details stage +:+ no_answer stage).
Proof.
  unfold fatal_failure, stage_raw_failure.
  destruct (storyElementsOf w textFiles) as [se|m] eqn:Hstory.
  2:{ intros [= <- <-]. apply storyElementsOf_Throw in Hstory as [Hpos Hstory].
      unfold analyzeStoryInputs in Hstory.
      destruct (length textFiles =? 0) eqn:Hlen.
      { apply Nat.eqb_eq in Hlen. rewrite Hlen in Hpos. done. }
      destruct (w_analyzeStoryInputs w) as [e| |v]; [| |done];
        apply rethrow_message in Hstory; (split; [intros raw [= <-]|]; done). }
  destruct (generateStory _) as [script|m] eqn:Hscript.
  2:{ intros [= <- <-]. unfold generateStory in Hscript.
      destruct (w_generateStory w) as [e| |v]; [| |done];
        apply rethrow_message in Hscript; (split; [intros raw [= <-]|]; done). }
  destruct (analyzeCharacterDescriptions _) as [characters|m] eqn:Hchars.
  2:{ intros [= <- <-]. unfold analyzeCharacterDescriptions in Hchars.
      destruct (w_analyzeCharacterDescriptions w) as [e| |v]; [| |done];
        apply rethrow_message in Hchars; (split; [intros raw [= <-]|]; done). }
  destruct (generateCohesiveImagePrompts _) as [cps|m] eqn:Hcps; [done|].
  intros [= <- <-]. unfold generateCohesiveImagePrompts in Hcps.
  destruct (w_generateCohesiveImagePrompts w) as [e| |v]; [| |done];
    apply rethrow_message in Hcps; (split; [intros raw [= <-]|]; done).
Qed.

(** X13: the error that the failure of a fatal stage leaves.  It is the
    fixed authentication error when the service refused the call with a
    message that mentions PERMISSION_DENIED or an invalid API key;
    otherwise it is the fixed text of that stage followed by the message
    of the failed call, or by the fixed no-answer message of the stage
    when the service answered with no text.  (The refusal of
    [analyzeStoryInputs] for an empty list of files cannot occur: the stage
    is skipped when there is no file.) *)
Theorem run_error_messages (w : World) (s : AppState) (stage : Stage) (msg : string) :
  fatal_failure w (textFiles s) = Some (stage, msg) →
  error (st (handleGenerate w s)) = Some msg ∧
  (msg = authentication_failed ∨ ∃ e, msg = stage_details stage +:+ e) ∧
  (∀ raw, stage_raw_failure w stage = Some raw →
          msg = if is_auth_error raw then authentication_failed
                else stage_details stage +:+ raw) ∧
  (stage_raw_failure w stage = None → msg = stage_details stage +:+ no_answer stage) ∧
  (stage = AnalyzeStory → textFiles s ≠ []).
Proof.
  intros Hfatal. rewrite handleGenerate_error, Hfatal.
  destruct (fatal_failure_message w (textFiles s) stage msg Hfatal) as [Hraw Hempty].
  split_and!; [done|by eapply fatal_failure_messages|done|done|].
  intros -> Hnone. unfold fatal_failure, storyElementsOf in Hfatal. rewrite Hnone in Hfatal.
  simpl in Hfatal. by repeat case_match.
Qed.

Lemma run_error_messages_witness :
  error (st (handleGenerate world_script_fails prompt_only_state))
  = Some "Failed to generate script. Details: network down".
Proof.
  exact (proj1 (run_error_messages world_script_fails prompt_only_state GenerateScript
                  "Failed to generate script. Details: network down" eq_refl)).
Defined.

(** X14: the view after a run.  Once the script has been generated the
    results are shown, also when a later stage failed; when the story
    analysis or the script generation failed, the initial form is shown
    again (with the error above it). *)
Theorem view_after_run (w : World) (s : AppState) :
  let final := st (handleGenerate w s) in
  renderContent final =
    match scriptOf w (textFiles s) with
    | Some _ => Results
    | None => InitialForm
    end ∧
  (renderContent final = InitialForm → is_Some (error final)) ∧
  (∀ stage msg,
     fatal_failure w (textFiles s) = Some (stage, msg) →
     renderContent final = Results ↔
     stage = AnalyzeCharacters ∨ stage = GenerateCohesivePrompts).
Proof.
  cbn zeta. destruct (handleGenerate_final w s) as (Hgen & _ & _ & Hscript & _).
  unfold renderContent. rewrite Hgen, Hscript, handleGenerate_error.
  unfold scriptOf, fatal_failure.
  destruct (storyElementsOf w (textFiles s)).
  2:{ split; [done|]. split; [by eauto|]. intros stage m [= <- _].
      split; [done|]. by intros [|]. }
  destruct (generateStory _).
  2:{ split; [done|]. split; [by eauto|]. intros stage m [= <- _].
      split; [done|]. by intros [|]. }
  split; [done|]. split; [done|]. intros stage msg Hfatal. split; [|done]. intros _.
  repeat case_match; simplify_eq; eauto.
Qed.

Lemma view_after_run_witness :
  renderContent (st (handleGenerate world_script_fails prompt_only_state)) = InitialForm ∧
  is_Some (error (st (handleGenerate world_script_fails prompt_only_state))).
Proof.
  destruct (view_after_run world_script_fails prompt_only_state) as (Hview & Herror & _).
  split; [exact Hview|]. apply Herror. exact Hview.
Defined.

(** ** The archive *)

Lemma get_file_ne root zip name d path :
  root +:+ name ≠ path → JsObject.get (Zip.file root zip name d) path = JsObject.get zip path.
Proof. apply get_set_ne. Qed.

Lemma get_folder_ne root zip name path :
  root +:+ name +:+ "/" ≠ path →
  JsObject.get (Zip.folder root zip name).1 path = JsObject.get zip path.
Proof.
  intros Hne. unfold Zip.folder. cbn [fst].
  destruct (JsObject.get zip _); [done|]. by apply get_set_ne.
Qed.

(** A path outside a folder is not touched by what is filed in it. *)
Lemma outside_ne root name path : String.prefix root path = false → root +:+ name ≠ path.
Proof.
  intros Hout <-. revert Hout. clear. induction root as [|c root IH]; simpl.
  - by destruct name.
  - by destruct (Ascii.ascii_dec c c).
Qed.

Lemma foldl_fileSceneImage_frame root hs path : ∀ l zip,
  (∀ idx ext, root +:+ sceneFileStem idx +:+ ext ≠ path) →
  JsObject.get (foldl (fileSceneImage root hs) zip l) path = JsObject.get zip path.
Proof.
  induction l as [|[i img] l IH]; intros zip Hout; [done|]. cbn [foldl].
  rewrite IH by done. unfold fileSceneImage. by rewrite !get_file_ne.
Qed.

Lemma foldl_filePortrait_frame root path : ∀ l zip,
  (∀ name, root +:+ name ≠ path) →
  JsObject.get (foldl (filePortrait root) zip l) path = JsObject.get zip path.
Proof.
  induction l as [|[name image] l IH]; intros zip Hout; [done|]. cbn [foldl].
  rewrite IH by done. unfold filePortrait. by rewrite !get_file_ne.
Qed.

(** The stages of [buildZip]. *)
Lemma buildZip_stages dw script s :
  ∃ documents scenes,
    documents =
      Zip.file EmptyString
        (Zip.file EmptyString
           (Zip.file EmptyString
              (Zip.file EmptyString [] "script.json" (Zip.Text (dw_stringify dw script)))
              "story.txt" (Zip.Text (scriptToText (Some script))))
           "generation_report.txt" (Zip.Text (generationReport s)))
        (hs3000Filename dw (title script))
        (Zip.Text (generateHs3000Content (hs3000Lines s))) ∧
    scenes =
      foldl (fileSceneImage "images/" (hs3000Lines s))
            (Zip.folder EmptyString documents "images").1
            (imap pair (generatedImages s)) ∧
    buildZip dw script s =
      foldl (filePortrait "images/characters/")
            (Zip.folder "images/" scenes "characters").1
            (JsObject.entries (generatedCharacterPortraits s)).
Proof. eexists _, _. split; [reflexivity|]. split; reflexivity. Qed.

Lemma documents_outside dw script s path :
  String.prefix "images/" path = false →
  JsObject.get (buildZip dw script s) path =
  JsObject.get
    (Zip.file EmptyString
       (Zip.file EmptyString
          (Zip.file EmptyString
             (Zip.file EmptyString [] "script.json" (Zip.Text (dw_stringify dw script)))
             "story.txt" (Zip.Text (scriptToText (Some script))))
          "generation_report.txt" (Zip.Text (generationReport s)))
       (hs3000Filename dw (title script))
       (Zip.Text (generateHs3000Content (hs3000Lines s)))) path.
Proof.
  intros Hout. destruct (buildZip_stages dw script s) as (documents & scenes & -> & -> & ->).
  rewrite foldl_filePortrait_frame
    by (intros name; by apply (outside_ne "images/" ("characters/" +:+ name))).
  rewrite get_folder_ne by (by apply (outside_ne "images/" "characters/")).
  rewrite foldl_fileSceneImage_frame by (intros; by apply outside_ne).
  by rewrite get_folder_ne by (by apply (outside_ne "images/" EmptyString)).
Qed.

(** X15: whatever the state, the archive made for a script holds
    the JSON of the script, its text, the generation report and the HS3000
    summary under their four names: nothing that is filed afterwards
    replaces them. *)
Theorem buildZip_documents (dw : DownloadWorld) (script : Script) (s : AppState) :
  let zip := buildZip dw script s in
  JsObject.get zip "script.json" = Some (Zip.Text (dw_stringify dw script)) ∧
  JsObject.get zip "story.txt" = Some (Zip.Text (scriptToText (Some script))) ∧
  JsObject.get zip "generation_report.txt" = Some (Zip.Text (generationReport s)) ∧
  JsObject.get zip (hs3000Filename dw (title script)) =
    Some (Zip.Text (generateHs3000Content (hs3000Lines s))).
Proof.
  cbn zeta. rewrite !documents_outside by done. unfold Zip.file, hs3000Filename.
  rewrite !get_set. cbn [String.append String.eqb Ascii.eqb Bool.eqb].
  by rewrite String.eqb_refl.
Qed.

Lemma truthy_app_r a b : Js.truthy b = true → Js.truthy (a +:+ b) = true.
Proof. by destruct a. Qed.

(** The scene files after the images [l]: the last image of a scene index
    decides what its two files hold. *)
Lemma foldl_fileSceneImage_last root hs i img : ∀ later l zip,
  Forall (λ jimg : nat * GeneratedImage, gi_sceneIndex jimg.2 ≠ gi_sceneIndex img) later →
  let zip' := foldl (fileSceneImage root hs) zip (l ++ (i, img) :: later) in
  JsObject.get zip' (root +:+ sceneFileStem (gi_sceneIndex img) +:+ ".png") =
    Some (Zip.Base64 (JsText.split "," (gi_imageUrl img) !! 1)) ∧
  JsObject.get zip' (root +:+ sceneFileStem (gi_sceneIndex img) +:+ ".txt") =
    Some (Zip.Text
            match hs !! i with
            | Some diag =>
                gi_prompt img +:+ Js.nl +:+ Js.nl
                +:+ hl_character diag +:+ ": " +:+ hl_dialogue diag
            | None => gi_prompt img
            end).
Proof.
  intros later l zip Hlater. cbn zeta. rewrite foldl_app. cbn [foldl].
  set (zip1 := foldl _ zip l). clearbody zip1.
  assert (∀ ext zipx,
            ext = "png" ∨ ext = "txt" →
            JsObject.get (foldl (fileSceneImage root hs) zipx later)
                         (root +:+ sceneFileStem (gi_sceneIndex img) +:+ String "." ext) =
            JsObject.get zipx (root +:+ sceneFileStem (gi_sceneIndex img) +:+ String "." ext))
    as Hframe.
  { intros ext zipx Hext. revert zipx.
    induction Hlater as [|[j img'] later Hj _ IH]; intros zipx; [done|]. cbn [foldl].
    rewrite IH. unfold fileSceneImage.
    rewrite !get_file_ne; [done|..].
    - intros Heq%String.app_inj. simpl in Hj.
      destruct Hext as [-> | ->]; [by apply sceneFile_ext_inj in Heq|].
      by apply sceneFile_png_txt in Heq.
    - intros Heq%String.app_inj. simpl in Hj.
      destruct Hext as [-> | ->]; [symmetry in Heq; by apply sceneFile_png_txt in Heq|].
      by apply sceneFile_ext_inj in Heq. }
  rewrite (Hframe "png"), (Hframe "txt") by eauto. unfold fileSceneImage.
  split.
  - rewrite get_file_ne; [unfold Zip.file; by rewrite get_set_eq|].
    intros Heq%String.app_inj%String.app_inj. done.
  - unfold Zip.file. rewrite get_set_eq. do 2 f_equal.
    destruct (hs !! i) as [diag|]; [|done].
    by rewrite truthy_app_r.
Qed.

Lemma split_data_url base64 :
  comma_free base64 = true →
  JsText.split "," ("data:image/png;base64," +:+ base64) !! 1 = Some base64.
Proof.
  intros Hfree.
  change ("data:image/png;base64," +:+ base64)
    with ("data:image/png;base64" +:+ String "," base64).
  rewrite split_app by done. by rewrite split_free.
Qed.

(** X16: the two files of a generated image in the archive.
    For the image at position [i] of the generated images, when no later
    image has the same scene index (a later one would replace both files),
    the picture file holds what follows the first comma of the image URL,
    and the text file holds the prompt of the image followed, when the
    HS3000 lines have an entry at the same position [i], by an empty line
    and that entry: lines and images are paired by position.  For a data
    URL of base64 text without a comma the picture is that base64 text. *)
Theorem buildZip_scene_files (dw : DownloadWorld) (script : Script) (s : AppState)
    (i : nat) (img : GeneratedImage) :
  generatedImages s !! i = Some img →
  (∀ j later, i < j → generatedImages s !! j = Some later →
              gi_sceneIndex later ≠ gi_sceneIndex img) →
  let zip := buildZip dw script s in
  JsObject.get zip ("images/" +:+ sceneFileStem (gi_sceneIndex img) +:+ ".png") =
    Some (Zip.Base64 (JsText.split "," (gi_imageUrl img) !! 1)) ∧
  JsObject.get zip ("images/" +:+ sceneFileStem (gi_sceneIndex img) +:+ ".txt") =
    Some (Zip.Text
            match hs3000Lines s !! i with
            | Some diag =>
                gi_prompt img +:+ Js.nl +:+ Js.nl
                +:+ hl_character diag +:+ ": " +:+ hl_dialogue diag
            | None => gi_prompt img
            end) ∧
  (gi_imageUrl img = "data:image/png;base64," +:+ gi_base64 img →
   comma_free (gi_base64 img) = true →
   JsText.split "," (gi_imageUrl img) !! 1 = Some (gi_base64 img)).
Proof.
  intros Hi Hlast. cbn zeta.
  destruct (buildZip_stages dw script s) as (documents & scenes & _ & -> & ->).
  assert (∀ ext name,
            "images/characters/" +:+ name ≠
            "images/" +:+ sceneFileStem (gi_sceneIndex img) +:+ ext) as Hchars.
  { intros ext name. unfold sceneFileStem. intros Heq. simpl in Heq. discriminate. }
  rewrite !foldl_filePortrait_frame by (intros; apply Hchars).
  rewrite !get_folder_ne by apply (Hchars _ EmptyString).
  rewrite <-(take_drop_middle _ _ _ Hi) at 1 2.
  rewrite imap_app. cbn [imap]. rewrite Nat.add_0_r.
  rewrite length_take_le by (apply lookup_lt_Some in Hi; lia).
  split_and!; [eapply foldl_fileSceneImage_last..|].
  - apply Forall_lookup. intros n [j later]. rewrite list_lookup_imap.
    rewrite lookup_drop. intros Hn.
    destruct (generatedImages s !! (S i + n)) as [x|] eqn:Hx; [|done].
    injection Hn as <- <-. simpl. eapply Hlast; [|exact Hx]. lia.
  - apply Forall_lookup. intros n [j later]. rewrite list_lookup_imap.
    rewrite lookup_drop. intros Hn.
    destruct (generatedImages s !! (S i + n)) as [x|] eqn:Hx; [|done].
    injection Hn as <- <-. simpl. eapply Hlast; [|exact Hx]. lia.
  - intros ->. apply split_data_url.
Qed.

Lemma buildZip_scene_files_witness :
  let s := setHs3000Lines [ {| hl_character := "A"; hl_dialogue := "Hello there." |} ]
             (setGeneratedImages (λ _, [image_at 0; image_at 2]) prompt_only_state) in
  let zip := buildZip world_download example_script s in
  JsObject.get zip "images/scene_0002.png" = Some (Zip.Base64 (Some "IMG")) ∧
  JsObject.get zip "images/scene_0002.txt" = Some (Zip.Text "A medium shot.").
Proof.
  cbn zeta.
  destruct (buildZip_scene_files world_download example_script
              (setHs3000Lines [ {| hl_character := "A"; hl_dialogue := "Hello there." |} ]
                 (setGeneratedImages (λ _, [image_at 0; image_at 2]) prompt_only_state))
              1 (image_at 2) eq_refl) as (Hpng & Htxt & _).
  - intros [|[|[|j]]] later Hj Hlater; simpl in Hlater; try lia; done.
  - split; [exact Hpng|exact Htxt].
Defined.

Lemma safeName_ext_inj a b ext1 ext2 :
  safeName a +:+ String "." ext1 = safeName b +:+ String "." ext2 →
  safeName a = safeName b ∧ ext1 = ext2.
Proof.
  intros Heq.
  apply (class_then_inj (λ c, Js.is_lower c || Js.is_digit c || Ascii.eqb c "_"%char))
    in Heq as [Hname [= ->]]; try apply safeName_chars; try done;
    by intros c x' [= <- _].
Qed.

(** The portrait files after the entries [l]: the last entry of a safe
    name decides what its two files hold. *)
Lemma foldl_filePortrait_last root name image : ∀ later l zip,
  Forall (λ entry : string * GeneratedCharacterPortrait,
            safeName entry.1 ≠ safeName name) later →
  let zip' := foldl (filePortrait root) zip (l ++ (name, image) :: later) in
  JsObject.get zip' (root +:+ safeName name +:+ ".png") =
    Some (Zip.Base64 (Some (gp_base64 image))) ∧
  JsObject.get zip' (root +:+ safeName name +:+ ".txt") = Some (Zip.Text (gp_prompt image)).
Proof.
  intros later l zip Hlater. cbn zeta. rewrite foldl_app. cbn [foldl].
  set (zip1 := foldl _ zip l). clearbody zip1.
  assert (∀ ext zipx,
            JsObject.get (foldl (filePortrait root) zipx later)
                         (root +:+ safeName name +:+ String "." ext) =
            JsObject.get zipx (root +:+ safeName name +:+ String "." ext)) as Hframe.
  { intros ext zipx. revert zipx.
    induction Hlater as [|[name' image'] later Hname _ IH]; intros zipx; [done|].
    cbn [foldl]. rewrite IH. unfold filePortrait.
    rewrite !get_file_ne; [done|..];
      intros Heq%String.app_inj; by apply safeName_ext_inj in Heq as [? _]. }
  rewrite (Hframe "png"), (Hframe "txt"). unfold filePortrait. split.
  - rewrite get_file_ne; [unfold Zip.file; by rewrite get_set_eq|].
    intros Heq%String.app_inj%String.app_inj. done.
  - unfold Zip.file. by rewrite get_set_eq.
Qed.

(** X17: the two files of a generated portrait in the archive.  Portraits are
    filed in the order in which the object lists them, under the file-name
    form of the character name; for an entry after which no entry has the
    same file-name form (a later one would replace both files), the
    picture file holds the base64 data of the portrait and the text file
    its prompt. *)
Theorem buildZip_portrait_files (dw : DownloadWorld) (script : Script) (s : AppState)
    (i : nat) (name : string) (image : GeneratedCharacterPortrait) :
  JsObject.entries (generatedCharacterPortraits s) !! i = Some (name, image) →
  (∀ j name' image',
     i < j → JsObject.entries (generatedCharacterPortraits s) !! j = Some (name', image') →
     safeName name' ≠ safeName name) →
  let zip := buildZip dw script s in
  JsObject.get zip ("images/characters/" +:+ safeName name +:+ ".png") =
    Some (Zip.Base64 (Some (gp_base64 image))) ∧
  JsObject.get zip ("images/characters/" +:+ safeName name +:+ ".txt") =
    Some (Zip.Text (gp_prompt image)).
Proof.
  intros Hi Hlast. cbn zeta.
  destruct (buildZip_stages dw script s) as (documents & scenes & _ & _ & ->).
  rewrite <-(take_drop_middle _ _ _ Hi).
  apply foldl_filePortrait_last.
  apply Forall_lookup. intros n [name' image']. rewrite lookup_drop. intros Hn.
  simpl. eapply Hlast; [|exact Hn]. lia.
Qed.

Lemma buildZip_portrait_files_witness :
  let portrait := {| gp_base64 := "PORTRAIT"; gp_mimeType := "image/png";
                     gp_prompt := "Style: noir. A portrait." |} in
  JsObject.get
    (buildZip world_download example_script
       (setGeneratedCharacterPortraits (λ _, [("Dr. Zed", portrait)]) prompt_only_state))
    "images/characters/dr__zed.png" = Some (Zip.Base64 (Some "PORTRAIT")).
Proof.
  cbn zeta.
  refine (proj1 (buildZip_portrait_files world_download example_script
                   (setGeneratedCharacterPortraits
                      (λ _, [("Dr. Zed",
                              {| gp_base64 := "PORTRAIT"; gp_mimeType := "image/png";
                                 gp_prompt := "Style: noir. A portrait." |})])
                      prompt_only_state)
                   0 "Dr. Zed" _ eq_refl _)).
  intros [|j] name' image' Hj Hentry; [lia|done].
Defined.

(** ** The download after a run *)

Lemma downloadEffect_settled dw s :
  generationComplete (downloadEffect dw s).1 = false ∨ isReadyForDownload s = false.
Proof.
  unfold downloadEffect.
  destruct (generationComplete s) eqn:Hcomplete; [|by left].
  destruct (isReadyForDownload s); [|by right]. left. simpl.
  by destruct (handleDownloadZip dw s).
Qed.

(** X18: the effect that starts the download after a run.  It
    starts a download only after a run that completed; after such a run it
    does what a click on the download button does, and the archive is then
    the one built from the final state, under the file name made from the
    title; in every case it leaves [generationComplete] false, so running
    the effect again starts nothing. *)
Theorem downloadEffect_after_run (w : World) (dw : DownloadWorld) (s : AppState) :
  let final := st (handleGenerate w s) in
  let after := downloadEffect dw final in
  (is_Some after.2 → fatal_failure w (textFiles s) = None) ∧
  (fatal_failure w (textFiles s) = None →
   ∃ script,
     scriptData final = Some script ∧
     after.2 = (handleDownloadZip dw final).2 ∧
     ∀ blob,
       dw_generateAsync dw (buildZip dw script (setError None final)) = Ok blob →
       after.2 = Some {| dl_download := safeTitle (title script) +:+ "_assets.zip";
                         dl_archive := buildZip dw script (setError None final);
                         dl_blob := blob |}) ∧
  generationComplete after.1 = false ∧
  downloadEffect dw after.1 = (after.1, None).
Proof.
  cbn zeta.
  destruct (handleGenerate_final w s) as (_ & _ & Hready & Hscript & Hcomplete).
  set (final := st (handleGenerate w s)) in *.
  assert (generationComplete (downloadEffect dw final).1 = false) as Hdone.
  { destruct (downloadEffect_settled dw final) as [?|Hno]; [done|congruence]. }
  split_and!; [| |done|by unfold downloadEffect at 1; rewrite Hdone].
  - unfold downloadEffect. rewrite Hcomplete, Hready.
    case_bool_decide; [done|]. simpl. by intros [? [=]].
  - intros Hfatal. unfold downloadEffect. rewrite Hcomplete, Hready, Hfatal. simpl.
    assert (∃ script, scriptData final = Some script) as [script Hfinal].
    { rewrite Hscript. unfold scriptOf. unfold fatal_failure in Hfatal.
      repeat case_match; simplify_eq; eauto. }
    exists script. split; [done|].
    destruct (handleDownloadZip dw final) as [s' started] eqn:Hzip. split; [done|].
    intros blob Hblob. unfold handleDownloadZip in Hzip. rewrite Hfinal, Hblob in Hzip.
    by injection Hzip as _ <-.
Qed.

Lemma downloadEffect_after_run_witness :
  ∃ script,
    scriptData (st (handleGenerate world_no_lines prompt_only_state)) = Some script ∧
    (downloadEffect world_download
       (st (handleGenerate world_no_lines prompt_only_state))).2 =
    (handleDownloadZip world_download
       (st (handleGenerate world_no_lines prompt_only_state))).2.
Proof.
  destruct (proj1 (proj2 (downloadEffect_after_run world_no_lines world_download
                            prompt_only_state)) eq_refl)
    as (script & Hscript & Hstarted & _).
  exists script. split; [exact Hscript|exact Hstarted].
Defined.

(** X19: the download button after a failed run.
    When the run failed before there was a script, the click does nothing:
    no download starts and the error stays.  When the run failed after the
    script was generated, the archive is built; its report file holds the
    failure entry, and alone. *)
Theorem handleDownloadZip_after_failure (w : World) (dw : DownloadWorld) (s : AppState)
    (stage : Stage) (msg : string) :
  fatal_failure w (textFiles s) = Some (stage, msg) →
  let final := st (handleGenerate w s) in
  (stage = AnalyzeStory ∨ stage = GenerateScript →
   handleDownloadZip dw final = (final, None) ∧ error final = Some msg) ∧
  (stage = AnalyzeCharacters ∨ stage = GenerateCohesivePrompts →
   ∃ script,
     scriptData final = Some script ∧
     JsObject.get (buildZip dw script (setError None final)) "generation_report.txt" =
       Some (Zip.Text (generation_failed msg)) ∧
     (handleDownloadZip dw final).2 =
       match dw_generateAsync dw (buildZip dw script (setError None final)) with
       | Ok blob =>
           Some {| dl_download := safeTitle (title script) +:+ "_assets.zip";
                   dl_archive := buildZip dw script (setError None final);
                   dl_blob := blob |}
       | Throw _ => None
       end).
Proof.
  intros Hfatal. cbn zeta.
  destruct (handleGenerate_final w s) as (_ & _ & _ & Hscript & _).
  pose proof (failed_run_report w s stage msg Hfatal) as Hreport.
  pose proof (handleGenerate_error w s) as Herror. rewrite Hfatal in Herror.
  set (final := st (handleGenerate w s)) in *.
  unfold scriptOf in Hscript. unfold fatal_failure in Hfatal. split.
  - intros Hstage. split; [|done]. unfold handleDownloadZip.
    assert (scriptData final = None) as ->; [|done].
    rewrite Hscript. destruct Hstage as [-> | ->]; repeat case_match; by simplify_eq.
  - intros Hstage.
    assert (∃ script, scriptData final = Some script) as [script Hfinal].
    { rewrite Hscript. destruct Hstage as [-> | ->]; repeat case_match; simplify_eq; eauto. }
    exists script. split; [done|]. split.
    + destruct (buildZip_stages dw script (setError None final)) as (? & ? & _ & _ & _).
      rewrite documents_outside by done. unfold Zip.file, hs3000Filename.
      rewrite !get_set. cbn [String.append String.eqb Ascii.eqb Bool.eqb].
      by rewrite <-Hreport.
    + unfold handleDownloadZip. rewrite Hfinal. by destruct (dw_generateAsync dw _).
Qed.

Lemma handleDownloadZip_after_failure_witness :
  handleDownloadZip world_download
    (st (handleGenerate world_script_fails prompt_only_state)) =
  (st (handleGenerate world_script_fails prompt_only_state), None).
Proof.
  apply (handleDownloadZip_after_failure world_script_fails world_download
           prompt_only_state GenerateScript
           "Failed to generate script. Details: network down" eq_refl).
  by right.
Defined.

(** ** Invariants of a run *)

Section Preserves.
Context (I : AppState → list Call → Prop).

Lemma preserves_ret {T} (v : T) : preserves I (ret v).
Proof. by intros r. Qed.

Lemma preserves_throw {T} msg : preserves I (@throw T msg).
Proof. by intros r. Qed.

Lemma preserves_lift {T} (res : Result T) : preserves I (lift res).
Proof. by intros r. Qed.

Lemma preserves_append_report text : preserves I (append_report text).
Proof. by intros r. Qed.

Lemma preserves_current_report : preserves I current_report.
Proof. by intros r. Qed.

Lemma preserves_bind {T U} (m : M T) (k : T → M U) :
  preserves I m → (∀ v, preserves I (k v)) → preserves I (bind m k).
Proof.
  intros Hm Hk r Hr. unfold bind. specialize (Hm r Hr).
  destruct (m r) as [[v|msg] r']; [by apply Hk|done].
Qed.

Lemma preserves_lift_bind {T U} (res : Result T) (k : T → M U) :
  (∀ v, res = Ok v → preserves I (k v)) → preserves I (bind (lift res) k).
Proof. intros Hk r Hr. unfold bind, lift. destruct res as [v|msg]; [by apply Hk|done]. Qed.

Lemma preserves_try_catch {T} (body : M T) (handler : string → M T) :
  preserves I body → (∀ e, preserves I (handler e)) → preserves I (try_catch body handler).
Proof.
  intros Hbody Hhandler r Hr. unfold try_catch. specialize (Hbody r Hr).
  destruct (body r) as [[v|msg] r']; [done|by apply Hhandler].
Qed.

Lemma preserves_foldM {T B} (body : B → T → M B) (l : list T) :
  (∀ acc x, x ∈ l → preserves I (body acc x)) → ∀ acc, preserves I (foldM body acc l).
Proof.
  induction l as [|x l IH]; intros Hbody acc; [apply preserves_ret|].
  cbn [foldM]. apply preserves_bind; [apply Hbody; by left|].
  intros acc'. apply IH. intros ???. apply Hbody. by right.
Qed.

End Preserves.

Section SoundAssets.
Context (characters : list AnalyzedCharacter).

Lemma sound_log c : is_image_call c = false → preserves (sound_assets characters) (log c).
Proof.
  intros Hc r (Himages & Hportraits & Hcalls). split_and!; [done..|].
  cbn. apply Forall_app. split; [done|]. constructor; [|done]. by destruct c.
Qed.

Lemma sound_update f :
  (∀ s, generatedImages (f s) = generatedImages s) →
  (∀ s, generatedCharacterPortraits (f s) = generatedCharacterPortraits s) →
  preserves (sound_assets characters) (update f).
Proof.
  intros Himg Hport r (Himages & Hportraits & Hcalls). cbn.
  split_and!; [by rewrite Himg|by rewrite Hport|done].
Qed.

Lemma sound_add_image newImg :
  data_url_image newImg →
  preserves (sound_assets characters)
            (update (setGeneratedImages (λ prev, prev ++ [newImg]))).
Proof.
  intros Hnew r (Himages & Hportraits & Hcalls). cbn.
  split_and!; [|done..]. apply Forall_app. split; [done|]. by constructor.
Qed.

Lemma sound_add_portrait name newPortrait :
  portrait_of characters name newPortrait →
  preserves (sound_assets characters)
            (update (setGeneratedCharacterPortraits
                       (λ prev, JsObject.set prev name newPortrait))).
Proof.
  intros Hnew r (Himages & Hportraits & Hcalls).
  split_and!; [done| |done]. intros name' portrait.
  unfold update, setGeneratedCharacterPortraits. cbn [st snd generatedCharacterPortraits].
  rewrite get_set.
  destruct (String.eqb name name') eqn:Hname; [|by apply Hportraits].
  apply String.eqb_eq in Hname as ->. by intros [= <-].
Qed.

Lemma sound_callImage_scene w prompt characterImages previous style :
  preserves (sound_assets characters)
            (callImage w SceneSite prompt characterImages previous style).
Proof.
  intros r (Himages & Hportraits & Hcalls). cbn. split_and!; [done..|].
  apply Forall_app. split; [done|]. by constructor.
Qed.

Lemma sound_callImage_portrait w char style :
  char ∈ characters →
  preserves (sound_assets characters)
            (callImage w PortraitSite (portrait_prompt char) None None style).
Proof.
  intros Hchar r (Himages & Hportraits & Hcalls). cbn. split_and!; [done..|].
  apply Forall_app. split; [done|]. constructor; [|done]. cbn. eauto.
Qed.

Ltac preserves_step :=
  lazymatch goal with
  | |- preserves _ (ret _) => apply preserves_ret
  | |- preserves _ (throw _) => apply preserves_throw
  | |- preserves _ (lift _) => apply preserves_lift
  | |- preserves _ (append_report _) => apply preserves_append_report
  | |- preserves _ current_report => apply preserves_current_report
  | |- preserves _ (bind (lift _) _) => apply preserves_lift_bind; intros ? ?
  | |- preserves _ (bind _ _) => apply preserves_bind; [|intros ?]
  | |- preserves _ (try_catch _ _) => apply preserves_try_catch; [|intros ?]
  | |- preserves _ (if ?c then _ else _) => destruct c eqn:?
  | |- preserves _ (match ?x with _ => _ end) => destruct x eqn:?
  | |- preserves _ (log _) => by apply sound_log
  | |- preserves _ (callImage _ SceneSite _ _ _ _) => apply sound_callImage_scene
  | |- preserves _ (update (setGeneratedImages _)) => apply sound_add_image
  | |- preserves _ (update (setGeneratedCharacterPortraits _)) => apply sound_add_portrait
  | |- preserves _ (update _) => by apply sound_update
  end.

Lemma sound_portraitItem w style np ichar :
  ichar.2 ∈ characters → preserves (sound_assets characters) (portraitItem w style np ichar).
Proof.
  destruct ichar as [i char]. intros Hchar. unfold portraitItem.
  apply preserves_try_catch; [|intros e; repeat preserves_step].
  apply preserves_bind; [by apply sound_callImage_portrait|]. intros imageGenResult.
  repeat preserves_step.
  split; [done|]. split; [by apply truthy_nonempty|]. by exists char.
Qed.

Lemma sound_generatePortraits w style chars :
  chars ⊆ characters → preserves (sound_assets characters) (generatePortraits w style chars).
Proof.
  intros Hsub. unfold generatePortraits. apply preserves_foldM.
  intros acc [i char] Hin. apply sound_portraitItem.
  apply elem_of_lookup_imap_1 in Hin as (j & c & [= -> ->] & Hj).
  apply Hsub. by eapply list_elem_of_lookup_2.
Qed.

Lemma sound_sceneIteration w script available style total loop icp :
  preserves (sound_assets characters)
            (sceneIteration w script available style total loop icp).
Proof.
  destruct icp as [i cp]. unfold sceneIteration. cbv zeta.
  repeat preserves_step.
  split; [done|]. by apply truthy_nonempty.
Qed.

Lemma sound_generateSceneImages w script available style cps :
  preserves (sound_assets characters) (generateSceneImages w script available style cps).
Proof.
  unfold generateSceneImages. apply preserves_foldM. intros. apply sound_sceneIteration.
Qed.

End SoundAssets.

Lemma sound_tryBody w textFiles characterImages stylePrompt storyPrompt :
  preserves (sound_assets (charactersToGenerate characterImages (charactersOf w)))
            (tryBody w textFiles characterImages stylePrompt storyPrompt).
Proof.
  unfold tryBody. cbv zeta.
  repeat lazymatch goal with
    | |- preserves _ (ret _) => apply preserves_ret
    | |- preserves _ (throw _) => apply preserves_throw
    | |- preserves _ (lift _) => apply preserves_lift
    | |- preserves _ (append_report _) => apply preserves_append_report
    | |- preserves _ current_report => apply preserves_current_report
    | |- preserves _ (bind (lift _) _) => apply preserves_lift_bind; intros ? ?
    | |- preserves _ (bind _ _) => apply preserves_bind; [|intros ?]
    | |- preserves _ (if ?c then _ else _) => destruct c eqn:?
    | |- preserves _ (match ?x with _ => _ end) => destruct x eqn:?
    | |- preserves _ (log _) => by apply sound_log
    | |- preserves _ (update _) => by apply sound_update
    | |- preserves _ (generateSceneImages _ _ _ _ _) => apply sound_generateSceneImages
    | |- preserves _ (generatePortraits _ _ _) => apply sound_generatePortraits
    end.
  all: unfold charactersToGenerate, charactersOf;
    match goal with H : analyzeCharacterDescriptions _ = Ok _ |- _ => by rewrite H end.
Qed.

Lemma sound_handleGenerate w s :
  sound_assets (charactersToGenerate (characterImages s) (charactersOf w))
               (st (handleGenerate w s)) (calls (handleGenerate w s)).
Proof.
  unfold handleGenerate.
  set (characters := charactersToGenerate (characterImages s) (charactersOf w)).
  assert (preserves (sound_assets characters)
            (update (setIsGenerating false) >>
             update (setStatusMessage EmptyString) >>
             update (setIsReadyForDownload true))%run) as Hfinally.
  { repeat (apply preserves_bind; [|intros ?]); by apply sound_update. }
  apply Hfinally.
  assert (preserves (sound_assets characters)
            (try_catch
               (tryBody w (textFiles s) (characterImages s) (stylePrompt s) (storyPrompt s))
               (λ errorMessage,
                  update (setError (Some errorMessage)) >>
                  update (setGenerationReport
                            (λ prev, prev +:+ generation_failed errorMessage)))%run))
    as Hbody.
  { apply preserves_try_catch; [apply sound_tryBody|].
    intros e. apply preserves_bind; [|intros ?]; by apply sound_update. }
  apply Hbody. split_and!; [by constructor|done|by constructor].
Qed.

(** X20: whatever the services answer, every generated image in
    the state at the end of a run is a data URL [data:image/png;base64,]
    followed by its own base64 text, and that text is not empty. *)
Theorem run_images_are_data_urls (w : World) (s : AppState) :
  Forall (λ img, gi_imageUrl img = "data:image/png;base64," +:+ gi_base64 img ∧
                 gi_base64 img ≠ EmptyString)
         (generatedImages (st (handleGenerate w s))).
Proof. apply (sound_handleGenerate w s). Qed.

(** X21: portraits are requested and kept only for the
    analysed characters that have no uploaded image under their
    lowercased, trimmed name, and whose lowercased, trimmed name is not a
    property that every object inherits (such as [constructor]: the lookup
    among the uploaded images finds those as well).  Every portrait request
    of a run is for such a character, with the portrait prompt of that
    character and without any reference image; every portrait in the final
    state is stored under the name of such a character, as a PNG with
    non-empty data. *)
Theorem run_portraits_only_for_characters_without_upload (w : World) (s : AppState) :
  let final := handleGenerate w s in
  let characters := charactersToGenerate (characterImages s) (charactersOf w) in
  (∀ char, char ∈ characters ↔
           char ∈ charactersOf w ∧
           JsObject.get (characterImages s) (Js.trim (Js.toLowerCase (ac_name char))) = None ∧
           Js.trim (Js.toLowerCase (ac_name char)) ∉ JsObject.inherited) ∧
  (∀ site prompt characterImages previous result,
     call_generateImage site prompt characterImages previous result ∈ calls final →
     site = PortraitSite →
     characterImages = None ∧ previous = None ∧
     ∃ char, char ∈ characters ∧ prompt = portrait_prompt char) ∧
  (∀ name portrait,
     JsObject.get (generatedCharacterPortraits (st final)) name = Some portrait →
     gp_mimeType portrait = "image/png" ∧ gp_base64 portrait ≠ EmptyString ∧
     ∃ char, char ∈ characters ∧ ac_name char = name).
Proof.
  cbn zeta. destruct (sound_handleGenerate w s) as (_ & Hportraits & Hcalls).
  split_and!.
  - intros char. unfold charactersToGenerate, JsObject.truthy_at.
    rewrite list_elem_of_In, List.filter_In.
    rewrite <-list_elem_of_In, negb_true_iff, orb_false_iff, !bool_decide_eq_false.
    rewrite <-eq_None_not_Some. done.
  - intros site prompt characterImages previous result Hin ->.
    rewrite Forall_forall in Hcalls. apply (Hcalls _ Hin).
  - apply Hportraits.
Qed.

(** Without uploads, Zed is portrayed; a character called Constructor is
    not. *)
Lemma run_portraits_only_for_characters_without_upload_witness :
  zed ∈ charactersToGenerate (characterImages prompt_only_state)
                             (charactersOf world_prompts_fail) ∧
  constructor_character
    ∉ charactersToGenerate (characterImages prompt_only_state)
                           (charactersOf world_constructor).
Proof.
  split.
  - apply (proj1 (run_portraits_only_for_characters_without_upload
                    world_prompts_fail prompt_only_state)).
    split_and!; [by left|reflexivity|]. apply (bool_decide_unpack _). by vm_compute.
  - intros Hin.
    apply (proj1 (run_portraits_only_for_characters_without_upload
                    world_constructor prompt_only_state))
      in Hin as (_ & _ & Hinherited).
    apply Hinherited. by left.
Defined.

(** ** The presentation player *)

Lemma playbackEffect_index items s :
  Player.currentIndex (Player.playbackEffect items s) = Player.currentIndex s ∧
  Player.currentMusicIndex (Player.playbackEffect items s) = Player.currentMusicIndex s.
Proof.
  unfold Player.playbackEffect.
  destruct (negb (Player.isPlaying s) || (length items <=? Player.currentIndex s)).
  - by destruct (length items <=? Player.currentIndex s).
  - destruct (currentItem items (Player.currentIndex s)) as [item|]; [|done].
    by destruct (Player.imageUrlOf item).
Qed.

Lemma playbackEffect_playing items s :
  Player.isPlaying (Player.playbackEffect items s) =
  Player.isPlaying s && (Player.currentIndex s <? length items).
Proof.
  unfold Player.playbackEffect.
  destruct (Player.isPlaying s) eqn:Hplaying; simpl.
  - destruct (length items <=? Player.currentIndex s) eqn:Hend.
    + apply Nat.leb_le in Hend. simpl. symmetry. apply Nat.ltb_ge. lia.
    + apply Nat.leb_gt in Hend.
      assert ((Player.currentIndex s <? length items) = true) as -> by by apply Nat.ltb_lt.
      destruct (currentItem items (Player.currentIndex s)) as [item|]; [|done].
      by destruct (Player.imageUrlOf item).
  - by destruct (length items <=? Player.currentIndex s).
Qed.

Lemma playbackEffect_range items s :
  Player.currentIndex s ≤ length items →
  Player.currentIndex (Player.playbackEffect items s) ≤ length items ∧
  (Player.isPlaying (Player.playbackEffect items s) = true →
   Player.currentIndex (Player.playbackEffect items s) < length items) ∧
  Player.currentMusicIndex (Player.playbackEffect items s) = Player.currentMusicIndex s.
Proof.
  intros Hs. destruct (playbackEffect_index items s) as [-> ->].
  rewrite playbackEffect_playing. split_and!; [done| |done].
  by intros [_ Hlt%Nat.ltb_lt]%andb_true_iff.
Qed.

(** X22: whatever is pressed and whenever slides and tracks
    end, the player stays inside its storyboard: the current index never
    passes the number of items, the player is never playing at the end of
    the storyboard, and the music index stays inside the list of tracks. *)
Theorem player_stays_in_range (items : list StoryboardItem) (backgroundMusic : list string)
    (events : list Player.Event) :
  let s := foldl (Player.step items backgroundMusic) (Player.mount items) events in
  Player.currentIndex s ≤ length items ∧
  (Player.isPlaying s = true → Player.currentIndex s < length items) ∧
  (backgroundMusic ≠ [] → Player.currentMusicIndex s < length backgroundMusic).
Proof.
  cbn zeta. induction events as [|e events IH] using rev_ind.
  - cbn [foldl]. unfold Player.mount.
    assert (Player.currentIndex (Player.firstImageEffect items Player.initial) = 0 ∧
            Player.currentMusicIndex (Player.firstImageEffect items Player.initial) = 0)
      as [Hindex Hmusic].
    { unfold Player.firstImageEffect. by destruct (find _ items). }
    destruct (playbackEffect_range items (Player.firstImageEffect items Player.initial))
      as (? & ? & ->); [lia|].
    rewrite Hmusic. split_and!; [done..|]. destruct backgroundMusic; simpl; [done|lia].
  - rewrite foldl_app. cbn [foldl].
    set (s := foldl _ _ events) in *. destruct IH as (Hindex & Hplaying & Hmusic).
    destruct e; cbn [Player.step].
    + destruct (playbackEffect_range items
                  (Player.setCurrentIndex (goToNext items (Player.currentIndex s)) s))
        as (? & ? & ->); [cbn; unfold goToNext; lia|done].
    + destruct (playbackEffect_range items
                  (Player.setCurrentIndex (goToNext items (Player.currentIndex s)) s))
        as (? & ? & ->); [cbn; unfold goToNext; lia|done].
    + destruct (playbackEffect_range items
                  (Player.setCurrentIndex (Player.goToPrev (Player.currentIndex s)) s))
        as (? & ? & ->); [cbn; unfold Player.goToPrev; lia|done].
    + destruct (playbackEffect_range items (Player.togglePlayPause items s))
        as (? & ? & ->).
      { unfold Player.togglePlayPause.
        destruct (negb (Player.isPlaying s) && (length items <=? Player.currentIndex s));
          cbn; lia. }
      split_and!; [done..|]. unfold Player.togglePlayPause.
      by destruct (negb (Player.isPlaying s) && (length items <=? Player.currentIndex s)).
    + cbn. split_and!; [done..|]. intros Hne. unfold Player.playNextMusicTrack.
      destruct backgroundMusic as [|t music]; [done|]. cbn [length Nat.ltb Nat.leb].
      apply Nat.mod_upper_bound. done.
Qed.

Lemma player_stays_in_range_witness :
  Player.currentIndex
    (foldl (Player.step example_items ["a.mp3"]) (Player.mount example_items)
           [Player.PressToggle; Player.PressNext; Player.MusicEnded; Player.PressToggle])
  < length example_items.
Proof.
  apply (player_stays_in_range example_items ["a.mp3"]
           [Player.PressToggle; Player.PressNext; Player.MusicEnded; Player.PressToggle]).
  reflexivity.
Defined.

Lemma find_imageUrl_head items :
  (find (λ item, bool_decide (is_Some (Player.imageUrlOf item))) items
     ≫= Player.imageUrlOf) = head (omap Player.imageUrlOf items).
Proof.
  induction items as [|item items IH]; [done|].
  change (omap Player.imageUrlOf (item :: items))
    with (match Player.imageUrlOf item with
          | Some url => url :: omap Player.imageUrlOf items
          | None => omap Player.imageUrlOf items
          end).
  cbn [find]. destruct (Player.imageUrlOf item) as [url|] eqn:Hurl.
  - rewrite bool_decide_true by eauto. simpl. by rewrite Hurl.
  - rewrite bool_decide_false by (by intros [??]). exact IH.
Qed.

Lemma firstImageEffect_image items :
  Player.currentImage (Player.firstImageEffect items Player.initial) =
  head (omap Player.imageUrlOf items).
Proof.
  rewrite <-find_imageUrl_head. unfold Player.firstImageEffect.
  destruct (find _ items) as [item|] eqn:Hfind; [|done]. done.
Qed.

Lemma image_on_screen_S items k item :
  items !! S k = Some item →
  image_on_screen items (S k) =
  match Player.imageUrlOf item with
  | Some imageUrl => Some imageUrl
  | None => image_on_screen items k
  end.
Proof.
  intros Hitem. unfold image_on_screen. rewrite (take_S_r _ _ _ Hitem), omap_app.
  change (omap Player.imageUrlOf [item])
    with (match Player.imageUrlOf item with Some url => [url] | None => [] end).
  destruct (Player.imageUrlOf item) as [url|].
  - by rewrite last_snoc.
  - by rewrite app_nil_r.
Qed.

Lemma image_on_screen_0 items item :
  items !! 0 = Some item →
  image_on_screen items 0 =
  match Player.imageUrlOf item with
  | Some imageUrl => Some imageUrl
  | None => head (omap Player.imageUrlOf items)
  end.
Proof.
  destruct items as [|item0 items]; [done|]. intros [= ->].
  unfold image_on_screen. cbn [take]. rewrite take_0.
  change (omap Player.imageUrlOf [item])
    with (match Player.imageUrlOf item with Some url => [url] | None => [] end).
  by destruct (Player.imageUrlOf item).
Qed.

(** The player while it plays from the start. *)
Lemma player_playing items backgroundMusic k :
  k < length items →
  let s := foldl (Player.step items backgroundMusic) (Player.mount items)
                 (replicate k Player.Advance) in
  Player.currentIndex s = k ∧ Player.isPlaying s = true ∧
  Player.currentImage s = image_on_screen items k.
Proof.
  cbn zeta. induction k as [|k IH]; intros Hk.
  - cbn [replicate foldl]. unfold Player.mount, Player.playbackEffect.
    destruct (lookup_lt_is_Some_2 items 0 Hk) as [item Hitem].
    assert (Player.currentIndex (Player.firstImageEffect items Player.initial) = 0 ∧
            Player.isPlaying (Player.firstImageEffect items Player.initial) = true)
      as [Hindex Hplaying].
    { unfold Player.firstImageEffect. by destruct (find _ items). }
    rewrite Hindex, Hplaying. apply Nat.leb_gt in Hk as Hend. rewrite Hend. cbn [negb orb].
    unfold currentItem. rewrite Hitem, (image_on_screen_0 _ _ Hitem).
    destruct (Player.imageUrlOf item); cbn; [done|].
    split_and!; [done..|]. apply firstImageEffect_image.
  - rewrite replicate_S_end, foldl_app. cbn [foldl Player.step].
    destruct IH as (Hindex & Hplaying & Himage); [lia|].
    set (s := foldl _ _ (replicate k Player.Advance)) in *.
    unfold Player.playbackEffect, goToNext. rewrite Hindex. cbn.
    rewrite Hplaying. replace (Nat.min (k + 1) (length items)) with (S k) by lia.
    apply Nat.leb_gt in Hk as Hend. rewrite Hend. cbn [negb orb].
    destruct (lookup_lt_is_Some_2 items (S k) Hk) as [item Hitem].
    unfold currentItem. rewrite Hitem, (image_on_screen_S _ _ _ Hitem).
    destruct (Player.imageUrlOf item); cbn; by rewrite ?Himage.
Qed.

(** X23: a player left alone plays its storyboard once.  After
    [k] slides have ended, with [k] below the number of items, it is
    playing at index [k] and shows the image of the latest image slide up
    to there (before the first image slide, the first image of the
    storyboard).  When the last slide has ended it stops at the end; more
    endings change nothing, and pressing play starts again from the first
    item. *)
Theorem player_plays_through (items : list StoryboardItem) (backgroundMusic : list string)
    (k : nat) :
  let after n :=
    foldl (Player.step items backgroundMusic) (Player.mount items)
          (replicate n Player.Advance) in
  (k < length items →
   Player.currentIndex (after k) = k ∧ Player.isPlaying (after k) = true ∧
   Player.currentImage (after k) = image_on_screen items k) ∧
  Player.currentIndex (after (length items)) = length items ∧
  Player.isPlaying (after (length items)) = false ∧
  Player.step items backgroundMusic (after (length items)) Player.Advance
    = after (length items) ∧
  (items ≠ [] →
   let again :=
     Player.step items backgroundMusic (after (length items)) Player.PressToggle in
   Player.currentIndex again = 0 ∧ Player.isPlaying again = true).
Proof.
  cbn zeta. split; [apply player_playing|].
  assert (Player.currentIndex
            (foldl (Player.step items backgroundMusic) (Player.mount items)
                   (replicate (length items) Player.Advance)) = length items ∧
          Player.isPlaying
            (foldl (Player.step items backgroundMusic) (Player.mount items)
                   (replicate (length items) Player.Advance)) = false) as [Hindex Hplaying].
  { destruct (length items) as [|n] eqn:Hlen.
    - cbn [replicate foldl]. unfold Player.mount.
      assert (Player.currentIndex (Player.firstImageEffect items Player.initial) = 0)
        as Hfirst by (unfold Player.firstImageEffect; by destruct (find _ items)).
      unfold Player.playbackEffect. rewrite Hfirst, Hlen. cbn [Nat.leb].
      rewrite orb_true_r. by cbn.
    - rewrite replicate_S_end, foldl_app. cbn [foldl Player.step].
      destruct (player_playing items backgroundMusic n) as (Hindex & Hplaying & _); [lia|].
      set (s := foldl _ _ (replicate n Player.Advance)) in *.
      unfold Player.playbackEffect, goToNext. rewrite Hindex, Hlen. cbn.
      replace (Nat.min (n + 1) (S n)) with (S n) by lia.
      rewrite Nat.leb_refl, orb_true_r. by cbn. }
  set (s := foldl _ _ (replicate (length items) Player.Advance)) in *.
  split; [done|]. split; [done|]. split.
  - cbn [Player.step]. unfold Player.playbackEffect, goToNext. rewrite Hindex. cbn.
    replace (Nat.min (length items + 1) (length items)) with (length items) by lia.
    rewrite Nat.leb_refl, orb_true_r. destruct s. cbn in *. by subst.
  - intros Hne. cbn [Player.step]. unfold Player.togglePlayPause.
    rewrite Hplaying, Hindex, Nat.leb_refl. cbn [negb andb].
    unfold Player.playbackEffect. cbn.
    destruct items as [|item items]; [done|]. cbn [length Nat.leb orb].
    unfold currentItem. cbn. by destruct (Player.imageUrlOf item).
Qed.

Lemma player_plays_through_witness :
  Player.currentImage
    (foldl (Player.step example_items []) (Player.mount example_items)
           (replicate 1 Player.Advance)) = image_on_screen example_items 1.
Proof.
  apply (proj1 (player_plays_through example_items [] 1)). cbn. lia.
Defined.

(** X24: while the player is paused, moving to the next slide changes
    the index (and with it the texts on screen) but not the image, and does
    not start playback; moving back afterwards restores the state as it
    was. *)
Theorem player_paused_navigation (items : list StoryboardItem)
    (backgroundMusic : list string) (s : Player.State) :
  Player.isPlaying s = false →
  Player.currentIndex s < length items →
  let next := Player.step items backgroundMusic s Player.PressNext in
  Player.currentIndex next = S (Player.currentIndex s) ∧
  Player.currentImage next = Player.currentImage s ∧
  Player.isPlaying next = false ∧
  Player.step items backgroundMusic next Player.PressPrev = s.
Proof.
  intros Hpaused Hindex. destruct s as [index image playing music]. cbn in *. subst.
  unfold Player.playbackEffect, goToNext. cbn.
  replace (Nat.min (index + 1) (length items)) with (S index) by lia.
  destruct (length items <=? S index) eqn:Hend; cbn.
  - unfold Player.goToPrev. cbn. rewrite Nat.sub_0_r, Nat.max_0_r.
    apply Nat.leb_gt in Hindex as ->. done.
  - unfold Player.goToPrev. cbn. rewrite Nat.sub_0_r, Nat.max_0_r.
    apply Nat.leb_gt in Hindex as ->. done.
Qed.

Lemma player_paused_navigation_witness :
  Player.currentImage
    (Player.step example_items [] (Player.mkState 1 (Some "shown") false 0)
                 Player.PressNext) = Some "shown".
Proof.
  apply (player_paused_navigation example_items [] (Player.mkState 1 (Some "shown") false 0)
           eq_refl).
  cbn. lia.
Defined.

Lemma playNextMusicTrack_iter music n i :
  0 < length music →
  Nat.iter n (Player.playNextMusicTrack music) i =
  if decide (n = 0) then i else (i + n) mod length music.
Proof.
  intros Hlen. induction n as [|n IH]; [done|]. rewrite Nat.iter_succ, IH.
  unfold Player.playNextMusicTrack. apply Nat.ltb_lt in Hlen as Hlt. rewrite Hlt.
  destruct (decide (n = 0)) as [->|Hn]; simpl.
  - by rewrite Nat.add_1_r.
  - rewrite Nat.Div0.add_mod_idemp_l. f_equal. lia.
Qed.

(** X25: the background music goes round: the next track of the last
    one is the first, the index stays inside the list, after as many track
    ends as there are tracks the same track plays again, and with no tracks
    the index does not move. *)
Theorem playNextMusicTrack_cycles (backgroundMusic : list string) (i : nat) :
  i < length backgroundMusic →
  Player.playNextMusicTrack backgroundMusic i < length backgroundMusic ∧
  Player.playNextMusicTrack backgroundMusic (length backgroundMusic - 1) = 0 ∧
  Nat.iter (length backgroundMusic) (Player.playNextMusicTrack backgroundMusic) i = i ∧
  Player.playNextMusicTrack [] i = i.
Proof.
  intros Hi. assert (0 < length backgroundMusic) as Hlen by lia. split_and!.
  - unfold Player.playNextMusicTrack. apply Nat.ltb_lt in Hlen as ->.
    apply Nat.mod_upper_bound. lia.
  - unfold Player.playNextMusicTrack. apply Nat.ltb_lt in Hlen as Hlt. rewrite Hlt.
    replace (length backgroundMusic - 1 + 1) with (length backgroundMusic) by lia.
    apply Nat.Div0.mod_same.
  - rewrite playNextMusicTrack_iter by done.
    destruct (decide (length backgroundMusic = 0)); [lia|].
    rewrite <-(Nat.mul_1_l (length backgroundMusic)) at 1.
    rewrite Nat.Div0.mod_add. by apply Nat.mod_small.
  - done.
Qed.

Lemma playNextMusicTrack_cycles_witness :
  Nat.iter 3 (Player.playNextMusicTrack ["a.mp3"; "b.mp3"; "c.mp3"]) 1 = 1.
Proof.
  apply (playNextMusicTrack_cycles ["a.mp3"; "b.mp3"; "c.mp3"] 1). simpl. lia.
Defined.

(** What a scan returns is what [examine] returns at the index it names. *)
Lemma scan_forward_Some : ∀ els j d,
  scan_forward els j = Some d →
  ∃ el, els !! (dm_elementIndex d - j) = Some el ∧ j ≤ dm_elementIndex d ∧
        examine el (dm_elementIndex d) = Return d.
Proof.
  induction els as [|el els IH]; intros j d; [done|]. cbn [scan_forward].
  destruct (examine el j) as [|d'|] eqn:Hexamine; [done| |].
  - intros [= ->]. assert (dm_elementIndex d = j) as Hindex.
    { unfold examine in Hexamine. repeat case_match; by simplify_eq. }
    exists el. rewrite Hindex, Nat.sub_diag. done.
  - intros (el' & Hel' & Hle & Hd)%IH. exists el'. split_and!; [|lia|done].
    by replace (dm_elementIndex d - j) with (S (dm_elementIndex d - S j)) by lia.
Qed.

Lemma scan_backward_Some els : ∀ n d,
  scan_backward els n = Ok (Some d) →
  ∃ el, els !! dm_elementIndex d = Some el ∧ examine el (dm_elementIndex d) = Return d.
Proof.
  induction n as [|j IH]; intros d; [done|]. cbn [scan_backward].
  destruct (els !! j) as [el|] eqn:Hel; [|done].
  destruct (examine el j) as [|d'|] eqn:Hexamine; [done| |by apply IH].
  intros [= ->]. assert (dm_elementIndex d = j) as Hindex.
  { unfold examine in Hexamine. repeat case_match; by simplify_eq. }
  exists el. by rewrite Hindex.
Qed.

Lemma getDialogueForScene_Some script i d :
  getDialogueForScene i script = Ok (Some d) →
  ∃ el, scene_elements script !! dm_elementIndex d = Some el ∧
        examine el (dm_elementIndex d) = Return d.
Proof.
  unfold getDialogueForScene.
  destruct (scan_forward _ _) as [d'|] eqn:Hforward; [|apply scan_backward_Some].
  intros [= ->]. apply scan_forward_Some in Hforward as (el & Hel & Hle & Hd).
  exists el. split; [|done]. rewrite lookup_drop in Hel.
  by replace (S i + (dm_elementIndex d - S i)) with (dm_elementIndex d) in Hel by lia.
Qed.

(** X26: the player and the dialogue association read a
    dialogue block in the same way.  When [getDialogueForScene] associates
    a scene with a line, the storyboard item of any item that stands on
    the element of that line shows exactly the associated character and
    the associated text. *)
Theorem player_shows_associated_dialogue (script : Script) (sceneIndex : nat)
    (d : DialogueMatch) (initialItems : list PlayerItem) (item : PlayerItem) :
  getDialogueForScene sceneIndex script = Ok (Some d) →
  item ∈ initialItems →
  pi_sceneIndex item = dm_elementIndex d →
  ∃ shown,
    shown ∈ storyboardItems initialItems script ∧
    sb_item shown = item ∧
    Player.texts (Some shown) = (dm_dialogue d, dm_character d).
Proof.
  intros (el & Hel & Hexamine)%getDialogueForScene_Some Hin Hitem.
  exists {| sb_item := item; sb_sceneElement := scene_elements script !! pi_sceneIndex item |}.
  split; [|split; [done|]].
  - unfold storyboardItems. rewrite sort_by_sceneIndex_Permutation.
    apply list_elem_of_fmap. by exists item.
  - unfold Player.texts. cbn [sb_sceneElement].
    rewrite Hitem, Hel. unfold examine in Hexamine.
    destruct el as [c|c|c|character elements]; try done.
    destruct (spoken_text elements) as [spoken|]; [|done].
    destruct (Js.truthy spoken) eqn:Htruthy; [|done].
    injection Hexamine as <-. cbn. by rewrite Htruthy.
Qed.

Lemma player_shows_associated_dialogue_witness :
  ∃ shown,
    shown ∈ storyboardItems [ {| pi_sceneIndex := 1; pi_media := ImageUrl "u" |} ]
                            example_script ∧
    Player.texts (Some shown) = ("Hello there.", "A").
Proof.
  destruct (player_shows_associated_dialogue example_script 0
              {| dm_character := "A"; dm_dialogue := "Hello there."; dm_elementIndex := 1 |}
              [ {| pi_sceneIndex := 1; pi_media := ImageUrl "u" |} ]
              {| pi_sceneIndex := 1; pi_media := ImageUrl "u" |} eq_refl)
    as (shown & Hin & _ & Htexts); [by left|reflexivity|].
  exists shown. split; [exact Hin|exact Htexts].
Defined.
